(** * pymanopt solvers: particle swarm and conjugate gradient

    A shallow embedding of [pymanopt/solvers/particle_swarm.py] and
    [pymanopt/solvers/conjugate_gradient.py].

    Conventions of the embedding.
    - Scalars (costs, inner products, step sizes) are embedded as exact
      rationals [Q].  [truediv] is the division of Python numbers, which
      raises [ZeroDivisionError] on a zero denominator.  A numpy float64
      scalar gives nan or an infinity there and raises nothing: on a
      manifold whose inner products are such scalars the passes of the
      conjugate gradient are as embedded while no denominator is zero,
      and [Numbers] has the division of both kinds.
    - Points and tangent vectors are opaque; the manifold is a record of
      operations, as the solvers only ever call its methods.
    - Python exceptions are values of [exn]; a computation that may raise
      returns a [result].
    - The numpy random generator is a stream indexed by the number of draws
      made so far; the wall clock read by the stopping criterion is indexed
      by the number of calls made so far.
    - The column printer only formats progress tables and is left out; the
      computation of its column width, which can raise, is kept. *)

From Stdlib Require Import ZArith QArith Qabs String Lia.
From stdpp Require Import base list.

Open Scope string_scope.
Open Scope Z_scope.

(** ** Exceptions and results *)

Inductive exn : Type :=
| ValueError (msg : string)
| OverflowError (msg : string)
| ZeroDivisionError
| IndexError
| UnboundLocalError (name : string).

Inductive result (A : Type) : Type :=
| Ok (a : A)
| Raise (e : exn).
Arguments Ok {A} a.
Arguments Raise {A} e.

Definition rbind {A B : Type} (r : result A) (k : A -> result B) : result B :=
  match r with
  | Ok a => k a
  | Raise e => Raise e
  end.

Declare Scope result_scope.
Delimit Scope result_scope with result.
Notation "'let*' x := r 'in' k" := (rbind r (fun x => k))
  (at level 10, x pattern, r at level 100, k at level 200) : result_scope.
Open Scope result_scope.

(** [l[i]] on a Python list. *)
Definition getitem {A : Type} (l : list A) (i : nat) : result A :=
  match l !! i with
  | Some a => Ok a
  | None => Raise IndexError
  end.

(** [l[i] = a] on a Python list. *)
Definition setitem {A : Type} (l : list A) (i : nat) (a : A) : result (list A) :=
  if decide (i < length l)%nat then Ok (<[i := a]> l) else Raise IndexError.

(** ** Scalars *)

Definition Qltb (a b : Q) : bool := negb (Qle_bool b a).

(** [a / b] on Python numbers. *)
Definition truediv (a b : Q) : result Q :=
  if Qeq_bool b 0 then Raise ZeroDivisionError else Ok (a / b)%Q.

(** [max(0, q)]: Python's [max] returns its first argument unless a later
    one is strictly greater. *)
Definition pymax (a b : Q) : Q := if Qltb a b then b else a.
Definition pymin (a b : Q) : Q := if Qltb b a then b else a.

(** ** The manifold interface, as far as the two solvers use it *)

Record Manifold (Point Tangent : Type) : Type := {
  dim : Z;
  rand : nat -> Point;
  randvec : nat -> Point -> Tangent;
  inner : Point -> Tangent -> Tangent -> Q;
  norm : Point -> Tangent -> Q;
  transp : Point -> Point -> Tangent -> Tangent;
  retr : Point -> Tangent -> Point;
  log : Point -> Point -> Tangent
}.
Arguments dim {Point Tangent} _.
Arguments rand {Point Tangent} _ _.
Arguments randvec {Point Tangent} _ _ _.
Arguments inner {Point Tangent} _ _ _ _.
Arguments norm {Point Tangent} _ _ _.
Arguments transp {Point Tangent} _ _ _ _.
Arguments retr {Point Tangent} _ _ _.
Arguments log {Point Tangent} _ _ _.

(** Arithmetic on tangent vectors (numpy arrays in the source). *)
Class TangentOps (Tangent : Type) : Type := {
  tneg : Tangent -> Tangent;
  tadd : Tangent -> Tangent -> Tangent;
  tsub : Tangent -> Tangent -> Tangent;
  tscale : Q -> Tangent -> Tangent
}.

(** [for i, _ in enumerate(x)] over a list whose length the body leaves
    alone: the body runs for [i = start, start+1, ...], [n] times. *)
Fixpoint for_enumerate {S : Type} (body : nat -> S -> result S)
    (n start : nat) (s : S) : result S :=
  match n with
  | O => Ok s
  | Datatypes.S n' =>
      let* s' := body start s in for_enumerate body n' (Datatypes.S start) s'
  end.

(** The flat line: points and tangent vectors are rationals. *)
Definition Line : Manifold Q Q := {|
  dim := 1;
  rand := fun k => inject_Z (Z.of_nat k);
  randvec := fun _ _ => 1%Q;
  inner := fun _ u w => (u * w)%Q;
  norm := fun _ u => Qabs u;
  transp := fun _ _ u => u;
  retr := fun p u => (p + u)%Q;
  log := fun p q => (q - p)%Q
|}.

#[export] Instance LineOps : TangentOps Q := {|
  tneg := Qopp;
  tadd := Qplus;
  tsub := Qminus;
  tscale := Qmult
|}.

(** [int(np.log10(self._maxiter)) + 1], computed when [verbosity >= 2]:
    the logarithm of zero is minus infinity and that of a negative number
    is not a number, and [int] refuses both.  The width itself only reaches
    the column printer. *)
Definition iter_format_length (verbosity maxiter : Z) : result unit :=
  if 2 <=? verbosity then
    if maxiter =? 0
    then Raise (OverflowError "cannot convert float infinity to integer")
    else if maxiter <? 0
    then Raise (ValueError "cannot convert float NaN to integer")
    else Ok tt
  else Ok tt.

(** [if stop_reason:] *)
Definition truthy (r : option string) : bool :=
  match r with
  | Some s => negb (String.eqb s "")
  | None => false
  end.

(** ** Particle swarm *)

Module ParticleSwarm.

(** The solver object: [self._maxcostevals] and the like.  [None] is
    Python's [None]. *)
Record ParticleSwarm : Type := {
  _maxcostevals : option Z;
  _maxiter : option Z;
  _populationsize : option Z;
  _nostalgia : Q;
  _social : Q;
  _logverbosity : Z
}.

(** [ParticleSwarm.__init__]; of the base class only [logverbosity] is read
    by [solve]. *)
Definition init (maxcostevals maxiter populationsize : option Z)
    (nostalgia social : Q) (logverbosity : Z) : ParticleSwarm :=
  {| _maxcostevals := maxcostevals;
     _maxiter := maxiter;
     _populationsize := populationsize;
     _nostalgia := nostalgia;
     _social := social;
     _logverbosity := logverbosity |}.

(** One call of [_check_stopping_criterion], with the number of objective
    invocations made when it was called. *)
Record check_event : Type := {
  at_iter : Z;
  at_costevals : Z;
  at_ncalls : Z
}.

(** What [solve] does to the world around it: random draws, clock reads,
    calls of the objective, and lines printed. *)
Record effects : Type := {
  draws : nat;
  clock : nat;
  ncalls : Z;
  checks : list check_event;
  out : list string
}.

Definition effects0 : effects :=
  {| draws := 0; clock := 0; ncalls := 0; checks := []; out := [] |}.

Definition draw (n : nat) (e : effects) : effects :=
  {| draws := (draws e + n)%nat; clock := clock e; ncalls := ncalls e;
     checks := checks e; out := out e |}.

Definition count_calls (n : Z) (e : effects) : effects :=
  {| draws := draws e; clock := clock e; ncalls := ncalls e + n;
     checks := checks e; out := out e |}.

Definition log_check (it ce : Z) (e : effects) : effects :=
  {| draws := draws e; clock := Datatypes.S (clock e); ncalls := ncalls e;
     checks := checks e ++
       [{| at_iter := it; at_costevals := ce; at_ncalls := ncalls e |}];
     out := out e |}.

Definition print (line : string) (e : effects) : effects :=
  {| draws := draws e; clock := clock e; ncalls := ncalls e;
     checks := checks e; out := out e ++ [line] |}.

#[local] Set Implicit Arguments.

(** [problem.manifold], [problem.verbosity], [problem.cost]. *)
Record Problem (Point Tangent : Type) : Type := {
  manifold : Manifold Point Tangent;
  verbosity : Z;
  cost : Point -> Q
}.

(** The argument [x] of [solve]: absent, a value without [__iter__], or a
    list of points.  Iterables that are not lists (a tuple, a generator)
    are left out: line 78 takes the length of [x] and line 170 stores into
    it by index, which a list allows. *)
Inductive population (Point : Type) : Type :=
| XNone
| XNotIterable
| XList (l : list Point).

(** The local variables of [solve] that describe the swarm.  [costs] is
    the numpy array of line 95, taken to be an array of floats, in which
    line 175 stores [fxi] as it is. *)
Record swarm (Point Tangent : Type) : Type := {
  x : list Point;
  y : list Point;
  xprev : list Point;
  v : list Tangent;
  costs : list Q;
  fy : list Q;
  fbest : Q;
  xbest : Point
}.

(** All of the loop's state.  [stop_reason] is [None] while the local
    variable is unbound. *)
Record locals (Point Tangent : Type) : Type := {
  self : ParticleSwarm;
  sw : swarm Point Tangent;
  iter : Z;
  costevals : Z;
  stop_reason : option (option string);
  eff : effects
}.

(** The arguments of [_stop_optlog]. *)
Record optlog (Point : Type) : Type := {
  log_x : Point;
  log_objective : Q;
  log_stop_reason : option string;
  log_costevals : Z;
  log_iter : Z
}.

(** What surrounds a run: the problem, [rnd.rand()] by draw number, and
    [Solver._check_stopping_criterion] of the base class, which decides
    from the solver's thresholds, the clock, [iter] and [costevals]. *)
Class Setting (Point Tangent : Type) : Type := {
  problem : Problem Point Tangent;
  rnd_rand : nat -> Q;
  check_stopping_criterion : ParticleSwarm -> nat -> Z -> Z -> option string
}.

#[local] Unset Implicit Arguments.
Arguments XNone {Point}.
Arguments XNotIterable {Point}.
Arguments XList {Point} l.

Section Solve.

Context {Point Tangent : Type} {ops : TangentOps Tangent}
  {setting : Setting Point Tangent}.

Abbreviation swarm := (swarm Point Tangent).
Abbreviation locals := (locals Point Tangent).
Abbreviation man := (manifold problem).
Abbreviation objective := (cost problem).

Definition with_sw (s : swarm) (st : locals) : locals :=
  {| self := self st; sw := s; iter := iter st; costevals := costevals st;
     stop_reason := stop_reason st; eff := eff st |}.

Definition with_eff (e : effects) (st : locals) : locals :=
  {| self := self st; sw := sw st; iter := iter st; costevals := costevals st;
     stop_reason := stop_reason st; eff := e |}.

Definition with_iter (it : Z) (st : locals) : locals :=
  {| self := self st; sw := sw st; iter := it; costevals := costevals st;
     stop_reason := stop_reason st; eff := eff st |}.

Definition with_costevals (ce : Z) (st : locals) : locals :=
  {| self := self st; sw := sw st; iter := iter st; costevals := ce;
     stop_reason := stop_reason st; eff := eff st |}.

Definition with_v (v' : list Tangent) (s : swarm) : swarm :=
  {| x := x s; y := y s; xprev := xprev s; v := v'; costs := costs s;
     fy := fy s; fbest := fbest s; xbest := xbest s |}.

Definition with_xprev (l : list Point) (s : swarm) : swarm :=
  {| x := x s; y := y s; xprev := l; v := v s; costs := costs s;
     fy := fy s; fbest := fbest s; xbest := xbest s |}.

(** Lines 63-69: defaults that depend on the dimension. *)
Definition resolve_defaults (slf : ParticleSwarm) : ParticleSwarm :=
  let d := dim man in
  {| _maxcostevals :=
       match _maxcostevals slf with
       | None => Some (Z.max 5000 (2 * d))
       | some => some
       end;
     _maxiter :=
       match _maxiter slf with
       | None => Some (Z.max 500 (4 * d))
       | some => some
       end;
     _populationsize :=
       match _populationsize slf with
       | None => Some (Z.min 40 (10 * d))
       | some => some
       end;
     _nostalgia := _nostalgia slf;
     _social := _social slf;
     _logverbosity := _logverbosity slf |}.

Definition with_populationsize (n : Z) (slf : ParticleSwarm) : ParticleSwarm :=
  {| _maxcostevals := _maxcostevals slf;
     _maxiter := _maxiter slf;
     _populationsize := Some n;
     _nostalgia := _nostalgia slf;
     _social := _social slf;
     _logverbosity := _logverbosity slf |}.

(** A field that [resolve_defaults] has filled in. *)
Definition resolved (o : option Z) : Z := default 0 o.

Definition forced_message : string :=
  "The population size was forced to the size of the given initial population".

(** Lines 73-83: the initial population. *)
Definition initial_population (slf : ParticleSwarm) (x0 : population Point)
    (e : effects) : result (ParticleSwarm * list Point * effects) :=
  match x0 with
  | XNone =>
      let n := Z.to_nat (resolved (_populationsize slf)) in
      Ok (slf, map (fun i => rand man (draws e + i)) (seq 0 n), draw n e)
  | XNotIterable =>
      Raise (ValueError "The initial population x must be iterable")
  | XList l =>
      if Z.eqb (Z.of_nat (length l)) (resolved (_populationsize slf))
      then Ok (slf, l, e)
      else Ok (with_populationsize (Z.of_nat (length l)) slf, l,
               print forced_message e)
  end.

(** [costs.argmin()]: the first index of a least element. *)
Fixpoint argmin_from (best : Q) (ibest i : nat) (l : list Q) : nat :=
  match l with
  | [] => ibest
  | c :: l' =>
      if Qltb c best then argmin_from c i (Datatypes.S i) l'
      else argmin_from best ibest (Datatypes.S i) l'
  end.

Definition argmin (l : list Q) : result nat :=
  match l with
  | [] => Raise (ValueError "attempt to get argmin of an empty sequence")
  | c :: l' => Ok (argmin_from c 0 1 l')
  end.

(** [[objective(xi) for xi in x]], counting the calls. *)
Definition evaluate_all (l : list Point) (e : effects) : list Q * effects :=
  (map objective l, count_calls (Z.of_nat (length l)) e).

(** Lines 85-122: the state at the first entry of the loop. *)
Definition initial_state (slf : ParticleSwarm) (x0 : list Point)
    (e : effects) : result locals :=
  let y0 := x0 in
  let xprev0 := x0 in
  let v0 := imap (fun i xi => randvec man (draws e + i) xi) x0 in
  let e := draw (length x0) e in
  let '(costs0, e) := evaluate_all x0 e in
  let fy0 := costs0 in
  let costevals0 := resolved (_populationsize slf) in
  let* imin := argmin costs0 in
  let* fbest0 := getitem costs0 imin in
  let* xbest0 := getitem x0 imin in
  let* _ := iter_format_length (verbosity problem) (resolved (_maxiter slf)) in
  Ok {| self := slf;
        sw := {| x := x0; y := y0; xprev := xprev0; v := v0; costs := costs0;
                 fy := fy0; fbest := fbest0; xbest := xbest0 |};
        iter := 0;
        costevals := costevals0;
        stop_reason := None;
        eff := e |}.

(** Lines 131-136: the stopping criterion is asked once per particle until
    it answers something other than [None]. *)
Fixpoint stop_scan (n : nat) (st : locals) : locals :=
  match n with
  | O => st
  | Datatypes.S n' =>
      let r := check_stopping_criterion (self st) (clock (eff st))
                 (iter st) (costevals st) in
      let st' :=
        {| self := self st; sw := sw st; iter := iter st;
           costevals := costevals st; stop_reason := Some r;
           eff := log_check (iter st) (costevals st) (eff st) |} in
      match r with
      | Some _ => st'
      | None => stop_scan n' st'
      end
  end.

(** Line 145. *)
Definition inertia_weight (it maxiter : Z) : result Q :=
  let* r := truediv (inject_Z it) (inject_Z maxiter) in
  Ok (0.4 + 0.5 * (1 - r))%Q.

(** Lines 150-162: the velocity of particle [i] from its position [xi],
    best position [yi], previous position [xiprev] and velocity [vi], with
    the two random numbers drawn for it. *)
Definition new_velocity (slf : ParticleSwarm) (w r1 r2 : Q)
    (xi yi xiprev best : Point) (vi : Tangent) : Tangent :=
  let inertia := tscale w (transp man xiprev xi vi) in
  let nostalgia := tscale (r1 * _nostalgia slf)%Q (log man xi yi) in
  let social := tscale (r2 * _social slf)%Q (log man xi best) in
  tadd (tadd inertia nostalgia) social.

(** Lines 148-162, for particle [i]. *)
Definition velocity (w : Q) (i : nat) (st : locals) : result locals :=
  let s := sw st in
  let e := eff st in
  let* xi := getitem (x s) i in
  let* yi := getitem (y s) i in
  let* xiprev := getitem (xprev s) i in
  let* vi := getitem (v s) i in
  let* v' := setitem (v s) i
       (new_velocity (self st) w (rnd_rand (draws e))
          (rnd_rand (Datatypes.S (draws e))) xi yi xiprev (xbest s) vi) in
  Ok (with_eff (draw 2 e) (with_sw (with_v v' s) st)).

(** Lines 168-183: position, personal best and global best of particle [i].
    [xi] is the element the loop was handed, so the position of particle
    [i] before line 170 replaces it. *)
Definition update (i : nat) (st : locals) : result locals :=
  let s := sw st in
  let* xi := getitem (x s) i in
  let* vi := getitem (v s) i in
  let* x' := setitem (x s) i (retr man xi vi) in
  let fxi := objective xi in
  let e := count_calls 1 (eff st) in
  let* costs' := setitem (costs s) i fxi in
  let* fyi := getitem (fy s) i in
  if Qltb fxi fyi then
    let* fy' := setitem (fy s) i fxi in
    let* y' := setitem (y s) i xi in
    let* fyi' := getitem fy' i in
    if Qltb fyi' (fbest s) then
      Ok (with_eff e (with_sw
            {| x := x'; y := y'; xprev := xprev s; v := v s; costs := costs';
               fy := fy'; fbest := fyi'; xbest := xi |} st))
    else
      Ok (with_eff e (with_sw
            {| x := x'; y := y'; xprev := xprev s; v := v s; costs := costs';
               fy := fy'; fbest := fbest s; xbest := xbest s |} st))
  else
    Ok (with_eff e (with_sw
          {| x := x'; y := y s; xprev := xprev s; v := v s; costs := costs';
             fy := fy s; fbest := fbest s; xbest := xbest s |} st)).

Inductive outcome : Type :=
| Continue (st : locals)
| Break (st : locals).

(** Lines 126-184: one pass through the body of [while True]. *)
Definition iteration (st : locals) : result outcome :=
  let st := with_iter (iter st + 1) st in
  let st := stop_scan (length (x (sw st))) st in
  match stop_reason st with
  | None => Raise (UnboundLocalError "stop_reason")
  | Some r =>
      if truthy r then
        let e :=
          if 1 <=? verbosity problem
          then print "" (print (default "" r) (eff st))
          else eff st in
        Ok (Break (with_eff e st))
      else
        let* w := inertia_weight (iter st) (resolved (_maxiter (self st))) in
        let n := length (x (sw st)) in
        let* st := for_enumerate (velocity w) n 0 st in
        let st := with_sw (with_xprev (x (sw st)) (sw st)) st in
        let* st := for_enumerate update n 0 st in
        Ok (Continue (with_costevals
              (costevals st + resolved (_populationsize (self st))) st))
  end.

(** [while True]: [None] when the fuel runs out before a [break]. *)
Fixpoint loop (fuel : nat) (st : locals) : result (option locals) :=
  match fuel with
  | O => Ok None
  | Datatypes.S fuel' =>
      let* o := iteration st in
      match o with
      | Break st' => Ok (Some st')
      | Continue st' => loop fuel' st'
      end
  end.

(** Lines 186-197. *)
Definition returned (st : locals) : Point * option (optlog Point) :=
  if _logverbosity (self st) <=? 0 then (xbest (sw st), None)
  else (xbest (sw st),
        Some {| log_x := xbest (sw st);
                log_objective := fbest (sw st);
                log_stop_reason := default None (stop_reason st);
                log_costevals := costevals st;
                log_iter := iter st |}).

(** The state at the first entry of the loop. *)
Definition start (slf : ParticleSwarm) (x0 : population Point)
    : result locals :=
  let slf := resolve_defaults slf in
  let* (slf, l, e) := initial_population slf x0 effects0 in
  initial_state slf l e.

(** [ParticleSwarm.solve]: the value returned and the final state. *)
Definition solve (fuel : nat) (slf : ParticleSwarm) (x0 : population Point)
    : result (option ((Point * option (optlog Point)) * locals)) :=
  let* st := start slf x0 in
  let* r := loop fuel st in
  Ok (option_map (fun st' => (returned st', st')) r).

(** The state after [n] passes that did not break, if there are that many. *)
Fixpoint after (n : nat) (st : locals) : option locals :=
  match n with
  | O => Some st
  | Datatypes.S n' =>
      match iteration st with
      | Ok (Continue st') => after n' st'
      | _ => None
      end
  end.

Definition state_of (o : outcome) : locals :=
  match o with
  | Continue st => st
  | Break st => st
  end.

#[local] Set Implicit Arguments.

(** What one pass of the update loop did to particle [i], whose position
    was [xi], velocity [vi] and best cost [fyi] when the pass began. *)
Record updated (i : nat) (st st' : locals) (xi : Point) (vi : Tangent)
    (fyi : Q) : Prop := {
  upd_xi : x (sw st) !! i = Some xi;
  upd_vi : v (sw st) !! i = Some vi;
  upd_fyi : fy (sw st) !! i = Some fyi;
  upd_in_costs : (i < length (costs (sw st)))%nat;
  upd_self : self st' = self st;
  upd_iter : iter st' = iter st;
  upd_costevals : costevals st' = costevals st;
  upd_stop_reason : stop_reason st' = stop_reason st;
  upd_eff : eff st' = count_calls 1 (eff st);
  upd_x : x (sw st') = <[i := retr man xi vi]> (x (sw st));
  upd_xprev : xprev (sw st') = xprev (sw st);
  upd_v : v (sw st') = v (sw st);
  upd_costs : costs (sw st') = <[i := objective xi]> (costs (sw st));
  upd_best :
    ((objective xi < fyi)%Q /\
     fy (sw st') = <[i := objective xi]> (fy (sw st)) /\
     y (sw st') = <[i := xi]> (y (sw st)) /\
     (i < length (y (sw st)))%nat /\
     (((objective xi < fbest (sw st))%Q /\
       fbest (sw st') = objective xi /\ xbest (sw st') = xi) \/
      ((fbest (sw st) <= objective xi)%Q /\
       fbest (sw st') = fbest (sw st) /\ xbest (sw st') = xbest (sw st))))
    \/
    ((fyi <= objective xi)%Q /\
     fy (sw st') = fy (sw st) /\ y (sw st') = y (sw st) /\
     fbest (sw st') = fbest (sw st) /\ xbest (sw st') = xbest (sw st))
}.

(** No personal best of [s'] is above the one [s] has for that particle. *)
Definition fy_below (s s' : swarm) : Prop :=
  length (fy s') = length (fy s) /\
  forall i a b, fy s !! i = Some a -> fy s' !! i = Some b -> (b <= a)%Q.

(** What the update loop has done to [st] after [k] particles. *)
Record swept (k : nat) (st st' : locals) : Prop := {
  swp_self : self st' = self st;
  swp_iter : iter st' = iter st;
  swp_costevals : costevals st' = costevals st;
  swp_stop_reason : stop_reason st' = stop_reason st;
  swp_v : v (sw st') = v (sw st);
  swp_xprev : xprev (sw st') = xprev (sw st);
  swp_eff : eff st' = count_calls (Z.of_nat k) (eff st);
  swp_fbest : (fbest (sw st') <= fbest (sw st))%Q;
  swp_fy : fy_below (sw st) (sw st');
  swp_length : length (x (sw st')) = length (x (sw st))
}.

(** What the velocity loop, run with the weight [w], has done to [st]
    after [k] particles: particle [j] got its velocity from the numbers
    drawn in places [2j] and [2j+1] after those drawn before the loop. *)
Record blown (w : Q) (k : nat) (st st' : locals) : Prop := {
  blw_self : self st' = self st;
  blw_iter : iter st' = iter st;
  blw_costevals : costevals st' = costevals st;
  blw_stop_reason : stop_reason st' = stop_reason st;
  blw_x : x (sw st') = x (sw st);
  blw_y : y (sw st') = y (sw st);
  blw_xprev : xprev (sw st') = xprev (sw st);
  blw_costs : costs (sw st') = costs (sw st);
  blw_fy : fy (sw st') = fy (sw st);
  blw_fbest : fbest (sw st') = fbest (sw st);
  blw_xbest : xbest (sw st') = xbest (sw st);
  blw_length : length (v (sw st')) = length (v (sw st));
  blw_eff : eff st' = draw (2 * k) (eff st);
  blw_done : forall j, (j < k)%nat ->
    exists xj yj xpj vj,
      x (sw st) !! j = Some xj /\ y (sw st) !! j = Some yj /\
      xprev (sw st) !! j = Some xpj /\ v (sw st) !! j = Some vj /\
      v (sw st') !! j =
        Some (new_velocity (self st) w
                (rnd_rand (draws (eff st) + 2 * j))
                (rnd_rand (draws (eff st) + 2 * j + 1))
                xj yj xpj (xbest (sw st)) vj);
  blw_todo : forall j, (k <= j)%nat -> v (sw st') !! j = v (sw st) !! j
}.

#[local] Unset Implicit Arguments.

(** All six lists of the swarm have [n] entries. *)
Definition shaped (n : nat) (s : swarm) : Prop :=
  length (x s) = n /\ length (y s) = n /\ length (xprev s) = n /\
  length (v s) = n /\ length (costs s) = n /\ length (fy s) = n.

(** [fbest] is the least of the personal bests, and [xbest] is the best
    position of a particle that attains it. *)
Definition best_consistent (s : swarm) : Prop :=
  length (y s) = length (fy s) /\
  (forall i c, fy s !! i = Some c -> (fbest s <= c)%Q) /\
  exists j, fy s !! j = Some (fbest s) /\ y s !! j = Some (xbest s).

(** A recorded check saw [costevals = populationsize * iter] and as many
    objective calls. *)
Definition check_counted (p : Z) (ev : check_event) : Prop :=
  at_costevals ev = p * at_iter ev /\ at_ncalls ev = at_costevals ev.

(** The counters at the top of the loop body. *)
Definition counted (st : locals) : Prop :=
  let p := resolved (_populationsize (self st)) in
  0 < p /\
  Z.of_nat (length (x (sw st))) = p /\
  costevals st = p * (iter st + 1) /\
  ncalls (eff st) = costevals st /\
  Forall (check_counted p) (checks (eff st)).

End Solve.
End ParticleSwarm.

(** ** Conjugate gradient *)

Module ConjugateGradient.

(** Modelled from the spec: [tools.make_enum], which builds [BetaTypes], is
    not among the sources.  Its four members are distinct values, named as
    the source lists them; [Other] stands for every value of [beta_type]
    that equals none of them, with the text [str] gives for it. *)
Inductive beta_type : Type :=
| FletcherReeves
| PolakRibiere
| HestenesStiefel
| HagerZhang
| Other (text : string).

(** [BetaTypes._fields]. *)
Definition _fields : list string :=
  ["FletcherReeves"; "PolakRibiere"; "HestenesStiefel"; "HagerZhang"].

(** [", ".join(l)]. *)
Fixpoint join (sep : string) (l : list string) : string :=
  match l with
  | [] => ""
  | [a] => a
  | a :: l' => a ++ sep ++ join sep l'
  end.

(** Lines 220-226: the text of the error. *)
Definition unknown_beta_type (text : string) : string :=
  let types := join ", " (map (fun t => "BetaTypes." ++ t) _fields) in
  "Unknown beta_type " ++ text ++ ". Should be one of " ++ types ++ ".".

(** [self._orth_value]: a number or [np.inf]. *)
Inductive bound : Type :=
| Finite (q : Q)
| Infinity.

(** [a >= b] for a number [a]. *)
Definition reaches (a : Q) (b : bound) : bool :=
  match b with
  | Finite q => Qle_bool q a
  | Infinity => false
  end.

#[local] Set Implicit Arguments.

(** The solver object.  [LS] is the type of line-search objects;
    [_maxiter] and [_logverbosity] are attributes of the base class. *)
Record ConjugateGradient (LS : Type) : Type := {
  _beta_type : beta_type;
  _orth_value : bound;
  _linesearch : LS;
  linesearch : option LS;
  _maxiter : Z;
  _logverbosity : Z
}.

Record Problem (Point Tangent : Type) : Type := {
  manifold : Manifold Point Tangent;
  verbosity : Z;
  cost : Point -> Q;
  grad : Point -> Tangent;
  precon : Point -> Tangent -> Tangent
}.

(** One call of [linesearch.search], by its arguments after [objective]
    and [man]. *)
Record search_event (Point Tangent : Type) : Type := {
  from_x : Point;
  along : Tangent;
  with_cost : Q;
  with_df0 : Q
}.

Record effects (Point Tangent : Type) : Type := {
  draws : nat;
  clock : nat;
  searches : list (search_event Point Tangent);
  appended : list (Z * Point * Q * Q);
  out : list string
}.

(** The local variables of [solve].  [stepsize] is [None] while it is
    [np.nan], [beta] while it is unbound; [ls] is the state of the object
    that [linesearch] and [self.linesearch] both name. *)
Record locals (Point Tangent LS : Type) : Type := {
  self : ConjugateGradient LS;
  ls : LS;
  x : Point;
  cost_x : Q;
  grad_x : Tangent;
  gradnorm : Q;
  Pgrad : Tangent;
  gradPgrad : Q;
  desc_dir : Tangent;
  beta : option Q;
  iter : Z;
  stepsize : option Q;
  stop_reason : option string;
  eff : effects Point Tangent
}.

(** The arguments of [_stop_optlog]. *)
Record optlog (Point : Type) : Type := {
  log_x : Point;
  log_objective : Q;
  log_stop_reason : option string;
  log_stepsize : option Q;
  log_gradnorm : Q;
  log_iter : Z
}.

(** What surrounds a run: the problem; [LineSearchAdaptive()]; the method
    [search] of line-search objects, which returns the step size and the
    new point and leaves the object in a new state; and
    [Solver._check_stopping_criterion] of the base class, which decides
    from the solver's thresholds, the clock, [gradnorm], [iter] and
    [stepsize]. *)
Class Setting (Point Tangent LS : Type) : Type := {
  problem : Problem Point Tangent;
  LineSearchAdaptive : LS;
  search : LS -> (Point -> Q) -> Manifold Point Tangent ->
           Point -> Tangent -> Q -> Q -> Q * Point * LS;
  check_stopping_criterion :
    ConjugateGradient LS -> nat -> Q -> Z -> option Q -> option string
}.

#[local] Unset Implicit Arguments.

Section Solve.

Context {Point Tangent LS : Type} {ops : TangentOps Tangent}
  {setting : Setting Point Tangent LS}.

Abbreviation locals := (locals Point Tangent LS).
Abbreviation effects := (effects Point Tangent).
Abbreviation man := (manifold problem).
Abbreviation objective := (cost problem).
Abbreviation gradient := (grad problem).

(** [ConjugateGradient.__init__], lines 37-54; [maxiter] and
    [logverbosity] go to the base class. *)
Definition init (beta_type : beta_type) (orth_value : bound)
    (linesearch : option LS) (maxiter logverbosity : Z)
    : result (ConjugateGradient LS) :=
  Ok {| _beta_type := beta_type;
        _orth_value := orth_value;
        _linesearch := default LineSearchAdaptive linesearch;
        linesearch := None;
        _maxiter := maxiter;
        _logverbosity := logverbosity |}.

Definition effects0 : effects :=
  {| draws := 0; clock := 0; searches := []; appended := []; out := [] |}.

Definition print (line : string) (e : effects) : effects :=
  {| draws := draws e; clock := clock e; searches := searches e;
     appended := appended e; out := out e ++ [line] |}.

Definition print_if (b : bool) (line : string) (e : effects) : effects :=
  if b then print line e else e.

Definition tick (e : effects) : effects :=
  {| draws := draws e; clock := Datatypes.S (clock e);
     searches := searches e; appended := appended e; out := out e |}.

Definition log_search (ev : search_event Point Tangent) (e : effects)
    : effects :=
  {| draws := draws e; clock := clock e; searches := searches e ++ [ev];
     appended := appended e; out := out e |}.

Definition append_optlog (row : Z * Point * Q * Q) (e : effects) : effects :=
  {| draws := draws e; clock := clock e; searches := searches e;
     appended := appended e ++ [row]; out := out e |}.

(** Lines 79-125: the state at the first entry of the loop. *)
Definition start (slf : ConjugateGradient LS) (x0 : option Point)
    (reuselinesearch : bool) : result locals :=
  let ls0 :=
    match linesearch slf with
    | Some l => if negb reuselinesearch then _linesearch slf else l
    | None => _linesearch slf
    end in
  let e := effects0 in
  let '(x0, e) :=
    match x0 with
    | None =>
        (rand man (draws e),
         {| draws := Datatypes.S (draws e); clock := clock e;
            searches := searches e; appended := appended e; out := out e |})
    | Some p => (p, e)
    end in
  let e := print_if (1 <=? verbosity problem) "Optimizing..." e in
  let* _ := iter_format_length (verbosity problem) (_maxiter slf) in
  let cost0 := objective x0 in
  let grad0 := gradient x0 in
  let gradnorm0 := norm man x0 grad0 in
  let Pgrad0 := precon problem x0 grad0 in
  let gradPgrad0 := inner man x0 grad0 Pgrad0 in
  Ok {| self :=
          {| _beta_type := _beta_type slf; _orth_value := _orth_value slf;
             _linesearch := _linesearch slf; linesearch := Some ls0;
             _maxiter := _maxiter slf; _logverbosity := _logverbosity slf |};
        ls := ls0;
        x := x0;
        cost_x := cost0;
        grad_x := grad0;
        gradnorm := gradnorm0;
        Pgrad := Pgrad0;
        gradPgrad := gradPgrad0;
        desc_dir := tneg Pgrad0;
        beta := None;
        iter := 0;
        stepsize := None;
        stop_reason := None;
        eff := e |}.

Definition ascent_message : string :=
  "Conjugate gradient info: got an ascent direction, reset to the (preconditioned) steepest descent direction.".

(** Lines 145-160: the direction and the directional derivative handed to
    the line search.  The message leaves out the value of [df0]. *)
Definition descent_guard (st : locals) (e : effects) : Tangent * Q * effects :=
  let df0 := inner man (x st) (grad_x st) (desc_dir st) in
  if Qle_bool 0 df0 then
    (tneg (Pgrad st), (- gradPgrad st)%Q,
     print_if (3 <=? verbosity problem) ascent_message e)
  else (desc_dir st, df0, e).

(** Lines 186-226: [beta] by the configured rule.  [desc_dir] is the
    transported direction of line 184. *)
Definition beta_rule (st : locals) (newx : Point)
    (newgrad Pnewgrad oldgrad desc_dir : Tangent) (newgradPnewgrad : Q)
    : result Q :=
  match _beta_type (self st) with
  | FletcherReeves => truediv newgradPnewgrad (gradPgrad st)
  | PolakRibiere =>
      let diff := tsub newgrad oldgrad in
      let ip_diff := inner man newx Pnewgrad diff in
      let* q := truediv ip_diff (gradPgrad st) in
      Ok (pymax 0 q)
  | HestenesStiefel =>
      let diff := tsub newgrad oldgrad in
      let ip_diff := inner man newx Pnewgrad diff in
      match truediv ip_diff (inner man newx diff desc_dir) with
      | Ok q => Ok (pymax 0 q)
      | Raise ZeroDivisionError => Ok 1%Q
      | Raise e => Raise e
      end
  | HagerZhang =>
      let diff := tsub newgrad oldgrad in
      let Poldgrad := transp man (x st) newx (Pgrad st) in
      let Pdiff := tsub Pnewgrad Poldgrad in
      let deno := inner man newx diff desc_dir in
      let numo := inner man newx diff Pnewgrad in
      let* t := truediv
           (2 * inner man newx diff Pdiff * inner man newx desc_dir newgrad)%Q
           deno in
      let numo := (numo - t)%Q in
      let* beta := truediv numo deno in
      let desc_dir_norm := norm man newx desc_dir in
      let* eta_HZ :=
        truediv (-1) (desc_dir_norm * pymin 0.01 (gradnorm st))%Q in
      Ok (pymax beta eta_HZ)
  | Other text => Raise (ValueError (unknown_beta_type text))
  end.

(** Lines 175-228: [beta] and the next search direction.  [desc_dir] is
    the direction the line search was run along. *)
Definition next_direction (st : locals) (desc_dir : Tangent) (newx : Point)
    (newgrad Pnewgrad : Tangent) (newgradPnewgrad : Q)
    : result (Q * Tangent) :=
  let oldgrad := transp man (x st) newx (grad_x st) in
  let* orth_grads := truediv (inner man newx oldgrad Pnewgrad) newgradPnewgrad in
  if reaches (Qabs orth_grads) (_orth_value (self st)) then
    Ok (0%Q, tneg Pnewgrad)
  else
    let desc_dir := transp man (x st) newx desc_dir in
    let* beta := beta_rule st newx newgrad Pnewgrad oldgrad desc_dir
                   newgradPnewgrad in
    Ok (beta, tadd (tneg Pnewgrad) (tscale beta desc_dir)).

Inductive outcome : Type :=
| Continue (st : locals)
| Break (st : locals).

(** Lines 133-135: the stopping criterion, with the row appended to the log
    before it when [logverbosity >= 2]. *)
Definition check (st : locals) : option string * effects :=
  let e := eff st in
  let e :=
    if 2 <=? _logverbosity (self st)
    then append_optlog (iter st, x st, cost_x st, gradnorm st) e
    else e in
  (check_stopping_criterion (self st) (clock e) (gradnorm st) (iter st + 1)
     (stepsize st),
   tick e).

(** Lines 128-238: one pass through the body of [while True]. *)
Definition iteration (st : locals) : result outcome :=
  let '(reason, e) := check st in
  if truthy reason then
    let e := print_if (1 <=? verbosity problem) (default "" reason) e in
    let e := print_if (1 <=? verbosity problem) "" e in
    Ok (Break
      {| self := self st; ls := ls st; x := x st; cost_x := cost_x st;
         grad_x := grad_x st; gradnorm := gradnorm st; Pgrad := Pgrad st;
         gradPgrad := gradPgrad st; desc_dir := desc_dir st; beta := beta st;
         iter := iter st; stepsize := stepsize st; stop_reason := reason;
         eff := e |})
  else
    let '(d, df0, e) := descent_guard st e in
    let e := log_search {| from_x := x st; along := d;
                           with_cost := cost_x st; with_df0 := df0 |} e in
    let '(stepsize', newx, ls') :=
      search (ls st) objective man (x st) d (cost_x st) df0 in
    let newcost := objective newx in
    let newgrad := gradient newx in
    let newgradnorm := norm man newx newgrad in
    let Pnewgrad := precon problem newx newgrad in
    let newgradPnewgrad := inner man newx newgrad Pnewgrad in
    let* (beta', d') :=
      next_direction st d newx newgrad Pnewgrad newgradPnewgrad in
    Ok (Continue
      {| self :=
           {| _beta_type := _beta_type (self st);
              _orth_value := _orth_value (self st);
              _linesearch := _linesearch (self st);
              linesearch := Some ls';
              _maxiter := _maxiter (self st);
              _logverbosity := _logverbosity (self st) |};
         ls := ls'; x := newx; cost_x := newcost; grad_x := newgrad;
         gradnorm := newgradnorm; Pgrad := Pnewgrad;
         gradPgrad := newgradPnewgrad; desc_dir := d'; beta := Some beta';
         iter := iter st + 1; stepsize := Some stepsize';
         stop_reason := reason; eff := e |}).

(** [while True]: [None] when the fuel runs out before a [break]. *)
Fixpoint loop (fuel : nat) (st : locals) : result (option locals) :=
  match fuel with
  | O => Ok None
  | Datatypes.S fuel' =>
      let* o := iteration st in
      match o with
      | Break st' => Ok (Some st')
      | Continue st' => loop fuel' st'
      end
  end.

(** Lines 240-252. *)
Definition returned (st : locals) : Point * option (optlog Point) :=
  if _logverbosity (self st) <=? 0 then (x st, None)
  else (x st,
        Some {| log_x := x st;
                log_objective := cost_x st;
                log_stop_reason := stop_reason st;
                log_stepsize := stepsize st;
                log_gradnorm := gradnorm st;
                log_iter := iter st |}).

(** [ConjugateGradient.solve]: the value returned and the final state. *)
Definition solve (fuel : nat) (slf : ConjugateGradient LS) (x0 : option Point)
    (reuselinesearch : bool)
    : result (option ((Point * option (optlog Point)) * locals)) :=
  let* st := start slf x0 reuselinesearch in
  let* r := loop fuel st in
  Ok (option_map (fun st' => (returned st', st')) r).

Definition state_of (o : outcome) : locals :=
  match o with
  | Continue st => st
  | Break st => st
  end.

(** The quantities of a pass that gets past the stopping criterion, named
    as in the source: the direction and the derivative given to the line
    search, the point it returns, and what is computed there. *)
Definition searched_dir (st : locals) : Tangent :=
  fst (fst (descent_guard st (eff st))).

Definition searched_df0 (st : locals) : Q :=
  snd (fst (descent_guard st (eff st))).

Definition newx (st : locals) : Point :=
  snd (fst (search (ls st) objective man (x st) (searched_dir st) (cost_x st)
              (searched_df0 st))).

Definition newgrad (st : locals) : Tangent := gradient (newx st).

Definition Pnewgrad (st : locals) : Tangent :=
  precon problem (newx st) (newgrad st).

Definition newgradPnewgrad (st : locals) : Q :=
  inner man (newx st) (newgrad st) (Pnewgrad st).

Definition oldgrad (st : locals) : Tangent :=
  transp man (x st) (newx st) (grad_x st).

(** Line 176. *)
Definition orth_grads (st : locals) : result Q :=
  truediv (inner man (newx st) (oldgrad st) (Pnewgrad st)) (newgradPnewgrad st).

(** Line 184: the direction of the line search, transported. *)
Definition transported_dir (st : locals) : Tangent :=
  transp man (x st) (newx st) (searched_dir st).

(** [diff] of lines 189, 193 and 203. *)
Definition diff (st : locals) : Tangent := tsub (newgrad st) (oldgrad st).

#[local] Set Implicit Arguments.

(** What a pass that went on to the next one did, with the [beta] and the
    direction it arrived at. *)
Record passed (st st' : locals) (b : Q) (d : Tangent) : Prop := {
  pass_x : x st' = newx st;
  pass_cost : cost_x st' = objective (newx st);
  pass_grad : grad_x st' = newgrad st;
  pass_gradnorm : gradnorm st' = norm man (newx st) (newgrad st);
  pass_Pgrad : Pgrad st' = Pnewgrad st;
  pass_gradPgrad : gradPgrad st' = newgradPnewgrad st;
  pass_beta : beta st' = Some b;
  pass_desc_dir : desc_dir st' = d;
  pass_iter : iter st' = iter st + 1;
  pass_searches :
    searches (eff st') =
      (searches (eff st) ++
       [{| from_x := x st; along := searched_dir st;
           with_cost := cost_x st; with_df0 := searched_df0 st |}])%list
}.

#[local] Unset Implicit Arguments.

(** The pass that starts in [st] calls the line search at [x] along [d]
    with the cost of [x] and the derivative [df], and is decided by what
    the search returns: with the new point, lines 167-228 either raise, and
    so does the pass, or arrive at a [beta] and a direction, and the pass
    goes on to the new point with them, one call of the line search
    later. *)
Definition searches_along (st : locals) (d : Tangent) (df : Q) : Prop :=
  let found := search (ls st) objective man (x st) d (cost_x st) df in
  let newx := snd (fst found) in
  let newgrad := gradient newx in
  let Pnewgrad := precon problem newx newgrad in
  let newgradPnewgrad := inner man newx newgrad Pnewgrad in
  match next_direction st d newx newgrad Pnewgrad newgradPnewgrad with
  | Raise e => iteration st = Raise e
  | Ok (b, d') =>
      exists st',
        iteration st = Ok (Continue st') /\
        searches (eff st') =
          (searches (eff st) ++
           [{| from_x := x st; along := d;
               with_cost := cost_x st; with_df0 := df |}])%list /\
        x st' = newx /\
        cost_x st' = objective newx /\
        beta st' = Some b /\
        desc_dir st' = d'
  end.

(** The state [st] with another search direction. *)
Definition with_direction (d : Tangent) (st : locals) : locals :=
  {| self := self st; ls := ls st; x := x st; cost_x := cost_x st;
     grad_x := grad_x st; gradnorm := gradnorm st; Pgrad := Pgrad st;
     gradPgrad := gradPgrad st; desc_dir := d; beta := beta st;
     iter := iter st; stepsize := stepsize st;
     stop_reason := stop_reason st; eff := eff st |}.

End Solve.
End ConjugateGradient.

(** ** The numbers a manifold returns *)

Module Numbers.

(** A numpy float64 scalar, as far as a division can tell: a finite value,
    taken as a rational and with one zero, or one of [inf], [-inf] and
    [nan]. *)
Inductive float64 : Type :=
| F (q : Q)
| PInf
| NInf
| NaN.

(** [a / b] on float64 scalars.  Nothing is raised: a zero denominator
    gives [nan] under a zero numerator and an infinity with the sign of the
    numerator otherwise, with a RuntimeWarning. *)
Definition np_truediv (a b : float64) : float64 :=
  match a, b with
  | NaN, _ | _, NaN => NaN
  | F p, F q =>
      if Qeq_bool q 0 then
        if Qeq_bool p 0 then NaN else if Qltb p 0 then NInf else PInf
      else F (p / q)
  | F _, PInf | F _, NInf => F 0
  | PInf, F q => if Qltb q 0 then NInf else PInf
  | NInf, F q => if Qltb q 0 then PInf else NInf
  | PInf, PInf | PInf, NInf | NInf, PInf | NInf, NInf => NaN
  end.

(** [a > b] on float64 scalars: false whenever one of them is [nan]. *)
Definition np_gt (a b : float64) : bool :=
  match a, b with
  | NaN, _ | _, NaN => false
  | F p, F q => Qltb q p
  | F _, NInf => true
  | F _, PInf => false
  | PInf, PInf => false
  | PInf, _ => true
  | NInf, _ => false
  end.

(** What the rules for [beta] ask of the numbers they are given: the
    literals, true division, which may raise, and the comparison that
    [max] makes. *)
Class Number (R : Type) : Type := {
  literal : Q -> R;
  divide : R -> R -> result R;
  greater : R -> R -> bool
}.

(** Python numbers: division by zero raises [ZeroDivisionError]. *)
#[export] Instance PythonNumber : Number Q := {|
  literal := fun q => q;
  divide := truediv;
  greater := fun a b => Qltb b a
|}.

(** numpy float64 scalars: division never raises. *)
#[export] Instance NumpyScalar : Number float64 := {|
  literal := F;
  divide := fun a b => Ok (np_truediv a b);
  greater := np_gt
|}.

(** [max(a, b)]: the first argument unless the second is greater. *)
Definition max {R : Type} `{Number R} (a b : R) : R :=
  if greater b a then b else a.

(** Lines 195-201 of [conjugate_gradient.py]: [beta] of the
    Hestenes-Stiefel rule from [ip_diff] and the denominator
    [man.inner(newx, diff, desc_dir)], on numbers of either kind. *)
Definition hestenes_stiefel {R : Type} `{Number R} (ip_diff deno : R)
    : result R :=
  match divide ip_diff deno with
  | Ok q => Ok (max (literal 0) q)
  | Raise ZeroDivisionError => Ok (literal 1)
  | Raise e => Raise e
  end.

End Numbers.

(** ** Concrete settings *)

Module Flat.

(** Particle swarm on the line: the cost is the square of the position,
    every random number drawn is 0.125, and the base class stops the run
    when [iter] reaches [maxiter]. *)
Definition square : ParticleSwarm.Problem Q Q :=
  {| ParticleSwarm.manifold := Line;
     ParticleSwarm.verbosity := 0;
     ParticleSwarm.cost := fun p => (p * p)%Q |}.

Definition at_maxiter (slf : ParticleSwarm.ParticleSwarm) (clock : nat)
    (it ce : Z) : option string :=
  if ParticleSwarm.resolved (ParticleSwarm._maxiter slf) <=? it
  then Some "Terminated - max iterations reached"
  else None.

Definition swarm_setting : ParticleSwarm.Setting Q Q :=
  {| ParticleSwarm.problem := square;
     ParticleSwarm.rnd_rand := fun _ => 0.125%Q;
     ParticleSwarm.check_stopping_criterion := at_maxiter |}.

(** [ParticleSwarm(maxiter=5, populationsize=1)]. *)
Definition swarm_solver : ParticleSwarm.ParticleSwarm :=
  ParticleSwarm.init None (Some 5) (Some 1) 1.4 1.4 0.

(** The state in which [solve(problem, x=[-3])] enters its loop. *)
Definition swarm_first : ParticleSwarm.locals Q Q :=
  {| ParticleSwarm.self :=
       {| ParticleSwarm._maxcostevals := Some 5000;
          ParticleSwarm._maxiter := Some 5;
          ParticleSwarm._populationsize := Some 1;
          ParticleSwarm._nostalgia := 1.4;
          ParticleSwarm._social := 1.4;
          ParticleSwarm._logverbosity := 0 |};
     ParticleSwarm.sw :=
       {| ParticleSwarm.x := [(-3)%Q];
          ParticleSwarm.y := [(-3)%Q];
          ParticleSwarm.xprev := [(-3)%Q];
          ParticleSwarm.v := [1%Q];
          ParticleSwarm.costs := [9%Q];
          ParticleSwarm.fy := [9%Q];
          ParticleSwarm.fbest := 9;
          ParticleSwarm.xbest := (-3)%Q |};
     ParticleSwarm.iter := 0;
     ParticleSwarm.costevals := 1;
     ParticleSwarm.stop_reason := None;
     ParticleSwarm.eff :=
       {| ParticleSwarm.draws := 1; ParticleSwarm.clock := 0;
          ParticleSwarm.ncalls := 1; ParticleSwarm.checks := [];
          ParticleSwarm.out := [] |} |}.

(** The states after the first and after the second pass. *)
Definition swarm_second : ParticleSwarm.locals Q Q :=
  Eval vm_compute in
    default swarm_first
      (ParticleSwarm.after (setting := swarm_setting) 1 swarm_first).

Definition swarm_third : ParticleSwarm.locals Q Q :=
  Eval vm_compute in
    default swarm_first
      (ParticleSwarm.after (setting := swarm_setting) 2 swarm_first).

(** Conjugate gradient on the line, with the identity as preconditioner, a
    line search that always takes a quarter of the direction and counts its
    calls, and a base class that stops the run when [iter] reaches
    [maxiter]. *)
Definition square_cg : ConjugateGradient.Problem Q Q :=
  {| ConjugateGradient.manifold := Line;
     ConjugateGradient.verbosity := 0;
     ConjugateGradient.cost := fun p => (p * p)%Q;
     ConjugateGradient.grad := fun p => (2 * p)%Q;
     ConjugateGradient.precon := fun _ u => u |}.

(** The same with the cost [p], whose gradient is 1 everywhere. *)
Definition slope_cg : ConjugateGradient.Problem Q Q :=
  {| ConjugateGradient.manifold := Line;
     ConjugateGradient.verbosity := 0;
     ConjugateGradient.cost := fun p => p;
     ConjugateGradient.grad := fun _ => 1%Q;
     ConjugateGradient.precon := fun _ u => u |}.

Definition quarter_step (calls : nat) (objective : Q -> Q)
    (man : Manifold Q Q) (p d c df0 : Q) : Q * Q * nat :=
  (0.25%Q, retr man p (0.25 * d)%Q, Datatypes.S calls).

Definition cg_at_maxiter (slf : ConjugateGradient.ConjugateGradient nat)
    (clock : nat) (gradnorm : Q) (it : Z) (stepsize : option Q)
    : option string :=
  if ConjugateGradient._maxiter slf <=? it
  then Some "Terminated - max iterations reached"
  else None.

Definition cg_setting (pb : ConjugateGradient.Problem Q Q)
    : ConjugateGradient.Setting Q Q nat :=
  {| ConjugateGradient.problem := pb;
     ConjugateGradient.LineSearchAdaptive := 0%nat;
     ConjugateGradient.search := quarter_step;
     ConjugateGradient.check_stopping_criterion := cg_at_maxiter |}.

(** The solver object that
    [ConjugateGradient(beta_type, orth_value, maxiter=1000)] makes. *)
Definition cg_solver (b : ConjugateGradient.beta_type)
    (o : ConjugateGradient.bound) : ConjugateGradient.ConjugateGradient nat :=
  {| ConjugateGradient._beta_type := b;
     ConjugateGradient._orth_value := o;
     ConjugateGradient._linesearch := 0%nat;
     ConjugateGradient.linesearch := None;
     ConjugateGradient._maxiter := 1000;
     ConjugateGradient._logverbosity := 0 |}.

(** A state of the loop at the point 3 of the problem [pb], with the search
    direction [d]. *)
Definition cg_state (pb : ConjugateGradient.Problem Q Q)
    (b : ConjugateGradient.beta_type) (o : ConjugateGradient.bound) (d : Q)
    : ConjugateGradient.locals Q Q nat :=
  let p := 3%Q in
  let g := ConjugateGradient.grad pb p in
  {| ConjugateGradient.self :=
       {| ConjugateGradient._beta_type := b;
          ConjugateGradient._orth_value := o;
          ConjugateGradient._linesearch := 0%nat;
          ConjugateGradient.linesearch := Some 0%nat;
          ConjugateGradient._maxiter := 1000;
          ConjugateGradient._logverbosity := 0 |};
     ConjugateGradient.ls := 0%nat;
     ConjugateGradient.x := p;
     ConjugateGradient.cost_x := ConjugateGradient.cost pb p;
     ConjugateGradient.grad_x := g;
     ConjugateGradient.gradnorm := Qabs g;
     ConjugateGradient.Pgrad := g;
     ConjugateGradient.gradPgrad := (g * g)%Q;
     ConjugateGradient.desc_dir := d;
     ConjugateGradient.beta := None;
     ConjugateGradient.iter := 0;
     ConjugateGradient.stepsize := None;
     ConjugateGradient.stop_reason := None;
     ConjugateGradient.eff :=
       {| ConjugateGradient.draws := 0%nat;
          ConjugateGradient.clock := 0%nat;
          ConjugateGradient.searches := [];
          ConjugateGradient.appended := [];
          ConjugateGradient.out := [] |} |}.

(** The state in which [solve(problem, x=3)] enters its loop. *)
Definition cg_first (pb : ConjugateGradient.Problem Q Q)
    (b : ConjugateGradient.beta_type) (o : ConjugateGradient.bound)
    : ConjugateGradient.locals Q Q nat :=
  cg_state pb b o (- ConjugateGradient.grad pb 3)%Q.

End Flat.

(** ** Further invariants of the two loops *)

Module ParticleSwarmInvariants.
Import ParticleSwarm.

(** What [costs.argmin()] raises on an empty array. *)
Definition argmin_of_nothing : exn :=
  ValueError "attempt to get argmin of an empty sequence".

Section Invariants.

Context {Point Tangent : Type} {setting : Setting Point Tangent}.

Abbreviation swarm := (swarm Point Tangent).
Abbreviation locals := (locals Point Tangent).
Abbreviation objective := (cost problem).

(** Each personal best cost is the cost at the personal best position, and
    the global best cost is the cost at the global best position. *)
Definition best_evaluated (s : swarm) : Prop :=
  fy s = map objective (y s) /\ fbest s = objective (xbest s).

(** No personal best cost is above the cost of the objective at the
    position that [xprev] keeps for its particle. *)
Definition bests_lag (s : swarm) : Prop :=
  forall i a q,
    fy s !! i = Some a -> xprev s !! i = Some q -> (a <= objective q)%Q.

(** What the update loop has made of the positions and the personal best
    costs of the first [k] particles, when it started from the state
    [st]. *)
Definition moved (k : nat) (st st' : locals) : Prop :=
  v (sw st') = v (sw st) /\
  length (x (sw st')) = length (x (sw st)) /\
  (forall j, (k <= j)%nat -> x (sw st') !! j = x (sw st) !! j) /\
  (forall j, (k <= j)%nat -> fy (sw st') !! j = fy (sw st) !! j) /\
  (forall j xj vj, (j < k)%nat ->
     x (sw st) !! j = Some xj -> v (sw st) !! j = Some vj ->
     x (sw st') !! j = Some (retr (manifold problem) xj vj) /\
     exists a, fy (sw st') !! j = Some a /\ (a <= objective xj)%Q).

(** The update loop has, after [k] particles, left every best alone. *)
Definition unimproved (k : nat) (st st' : locals) : Prop :=
  fy (sw st') = fy (sw st) /\ y (sw st') = y (sw st) /\
  fbest (sw st') = fbest (sw st) /\ xbest (sw st') = xbest (sw st) /\
  costs (sw st') = costs (sw st) /\
  forall j, (k <= j)%nat -> x (sw st') !! j = x (sw st) !! j.

End Invariants.
End ParticleSwarmInvariants.

Module ConjugateGradientInvariants.
Import ConjugateGradient.

Section Invariants.

Context {Point Tangent LS : Type} {ops : TangentOps Tangent}
  {setting : Setting Point Tangent LS}.

Abbreviation locals := (locals Point Tangent LS).
Abbreviation man := (manifold problem).

(** The state after [n] passes that did not break, if there are that many. *)
Fixpoint after (n : nat) (st : locals) : option locals :=
  match n with
  | O => Some st
  | Datatypes.S n' =>
      match iteration st with
      | Ok (Continue st') => after n' st'
      | _ => None
      end
  end.

(** The cost, gradient, gradient norm, preconditioned gradient and their
    inner product that the state carries are those of its point. *)
Definition coherent (st : locals) : Prop :=
  cost_x st = cost problem (x st) /\
  grad_x st = grad problem (x st) /\
  gradnorm st = norm man (x st) (grad_x st) /\
  Pgrad st = precon problem (x st) (grad_x st) /\
  gradPgrad st = inner man (x st) (grad_x st) (Pgrad st).

(** [self.linesearch] is the object the loop works with, and the solver
    has the parameters of [slf]. *)
Definition configured (slf : ConjugateGradient LS) (st : locals) : Prop :=
  linesearch (self st) = Some (ls st) /\
  _linesearch (self st) = _linesearch slf /\
  _beta_type (self st) = _beta_type slf /\
  _orth_value (self st) = _orth_value slf /\
  _maxiter (self st) = _maxiter slf /\
  _logverbosity (self st) = _logverbosity slf.

(** The bookkeeping after [n] passes that went on. *)
Definition counted (n : nat) (st0 st : locals) : Prop :=
  iter st = iter st0 + Z.of_nat n /\
  length (searches (eff st)) = (length (searches (eff st0)) + n)%nat /\
  clock (eff st) = (clock (eff st0) + n)%nat /\
  length (appended (eff st)) =
    (length (appended (eff st0))
     + (if (2 <=? _logverbosity (self st0))%Z then n else 0))%nat /\
  draws (eff st) = draws (eff st0).

(** The state a pass breaks in. *)
Definition broken (st : locals) : locals :=
  let reason := fst (check st) in
  let e := snd (check st) in
  let e := print_if (1 <=? verbosity problem) (default "" reason) e in
  let e := print_if (1 <=? verbosity problem) "" e in
  {| self := self st; ls := ls st; x := x st; cost_x := cost_x st;
     grad_x := grad_x st; gradnorm := gradnorm st; Pgrad := Pgrad st;
     gradPgrad := gradPgrad st; desc_dir := desc_dir st; beta := beta st;
     iter := iter st; stepsize := stepsize st; stop_reason := reason;
     eff := e |}.

(** What the line search returns in a pass. *)
Definition searched (st : locals) : Q * Point * LS :=
  search (ls st) (cost problem) man (x st) (searched_dir st) (cost_x st)
    (searched_df0 st).

(** The state a pass goes on with, when it arrives at [b] for [beta] and
    at [d] for the direction. *)
Definition next_state (st : locals) (b : Q) (d : Tangent) : locals :=
  let e := snd (descent_guard st (snd (check st))) in
  let e := log_search {| from_x := x st; along := searched_dir st;
                         with_cost := cost_x st;
                         with_df0 := searched_df0 st |} e in
  {| self :=
       {| _beta_type := _beta_type (self st);
          _orth_value := _orth_value (self st);
          _linesearch := _linesearch (self st);
          linesearch := Some (snd (searched st));
          _maxiter := _maxiter (self st);
          _logverbosity := _logverbosity (self st) |};
     ls := snd (searched st); x := newx st;
     cost_x := cost problem (newx st); grad_x := newgrad st;
     gradnorm := norm man (newx st) (newgrad st); Pgrad := Pnewgrad st;
     gradPgrad := newgradPnewgrad st; desc_dir := d; beta := Some b;
     iter := iter st + 1; stepsize := Some (fst (fst (searched st)));
     stop_reason := fst (check st); eff := e |}.

(** [beta] by the configured rule in the pass that starts in [st]. *)
Definition beta_of (st : locals) : result Q :=
  beta_rule st (newx st) (newgrad st) (Pnewgrad st) (oldgrad st)
    (transported_dir st) (newgradPnewgrad st).

(** Whether the Powell test of the pass calls for a restart, when its
    quotient exists. *)
Definition restarts (st : locals) : bool :=
  reaches
    (Qabs (inner man (newx st) (oldgrad st) (Pnewgrad st)
           / newgradPnewgrad st))
    (_orth_value (self st)).

(** The state [st] with another search direction. *)
Definition with_desc_dir (d : Tangent) (st : locals) : locals :=
  {| self := self st; ls := ls st; x := x st; cost_x := cost_x st;
     grad_x := grad_x st; gradnorm := gradnorm st; Pgrad := Pgrad st;
     gradPgrad := gradPgrad st; desc_dir := d; beta := beta st;
     iter := iter st; stepsize := stepsize st;
     stop_reason := stop_reason st; eff := eff st |}.

End Invariants.
End ConjugateGradientInvariants.

(** ** More concrete settings *)

Module FlatMore.
Import Flat.

(** A manifold of dimension zero with the operations of the line. *)
Definition Dot : Manifold Q Q := {|
  dim := 0;
  rand := rand Line;
  randvec := randvec Line;
  inner := inner Line;
  norm := norm Line;
  transp := transp Line;
  retr := retr Line;
  log := log Line
|}.

Definition dot_setting : ParticleSwarm.Setting Q Q :=
  {| ParticleSwarm.problem :=
       {| ParticleSwarm.manifold := Dot;
          ParticleSwarm.verbosity := 0;
          ParticleSwarm.cost := fun p => (p * p)%Q |};
     ParticleSwarm.rnd_rand := fun _ => 0.125%Q;
     ParticleSwarm.check_stopping_criterion := at_maxiter |}.

(** [ParticleSwarm()]. *)
Definition default_solver : ParticleSwarm.ParticleSwarm :=
  ParticleSwarm.init None None None 1.4 1.4 0.

(** The square on the line with a stopping criterion that never answers. *)
Definition quiet_setting : ParticleSwarm.Setting Q Q :=
  {| ParticleSwarm.problem := square;
     ParticleSwarm.rnd_rand := fun _ => 0.125%Q;
     ParticleSwarm.check_stopping_criterion := fun _ _ _ _ => None |}.

(** [ParticleSwarm(maxiter=0, populationsize=1)]. *)
Definition zero_solver : ParticleSwarm.ParticleSwarm :=
  ParticleSwarm.init None (Some 0) (Some 1) 1.4 1.4 0.

(** The state in which it enters the loop from [[-3]]. *)
Definition zero_first : ParticleSwarm.locals Q Q :=
  Eval vm_compute in
    match ParticleSwarm.start (setting := quiet_setting) zero_solver
            (ParticleSwarm.XList [(-3)%Q]) with
    | Ok st => st
    | Raise _ => swarm_first
    end.

(** Two particles under the criterion that never answers, and the state
    after two passes. *)
Definition pair_first : ParticleSwarm.locals Q Q :=
  Eval vm_compute in
    match ParticleSwarm.start (setting := quiet_setting) swarm_solver
            (ParticleSwarm.XList [(-3)%Q; 2%Q]) with
    | Ok st => st
    | Raise _ => swarm_first
    end.

Definition pair_third : ParticleSwarm.locals Q Q :=
  Eval vm_compute in
    default pair_first
      (ParticleSwarm.after (setting := quiet_setting) 2 pair_first).

(** [ParticleSwarm(maxiter=2, populationsize=1, logverbosity=1)], the state
    in which it enters the loop from [[-3]], and what [solve] returns. *)
Definition brief_solver : ParticleSwarm.ParticleSwarm :=
  ParticleSwarm.init None (Some 2) (Some 1) 1.4 1.4 1.

Definition brief_first : ParticleSwarm.locals Q Q :=
  Eval vm_compute in
    match ParticleSwarm.start (setting := swarm_setting) brief_solver
            (ParticleSwarm.XList [(-3)%Q]) with
    | Ok st => st
    | Raise _ => swarm_first
    end.

Definition brief_returned
    : option ((Q * option (ParticleSwarm.optlog Q)) * ParticleSwarm.locals Q Q) :=
  Eval vm_compute in
    match ParticleSwarm.solve (setting := swarm_setting) 3 brief_solver
            (ParticleSwarm.XList [(-3)%Q]) with
    | Ok r => r
    | Raise _ => None
    end.

(** [ParticleSwarm(maxiter=5, populationsize=1)] from [[-3, 2]] under the
    criterion that stops at [maxiter]: the state in which [solve] enters
    its loop, the state after three passes, the position that state keeps
    in [xprev] for the second particle, and what [solve] returns. *)
Definition duo_first : ParticleSwarm.locals Q Q :=
  Eval vm_compute in
    match ParticleSwarm.start (setting := swarm_setting) swarm_solver
            (ParticleSwarm.XList [(-3)%Q; 2%Q]) with
    | Ok st => st
    | Raise _ => swarm_first
    end.

Definition duo_fourth : ParticleSwarm.locals Q Q :=
  Eval vm_compute in
    default duo_first
      (ParticleSwarm.after (setting := swarm_setting) 3 duo_first).

Definition duo_found : Q :=
  Eval vm_compute in
    default 0%Q
      (ParticleSwarm.xprev (ParticleSwarm.sw duo_fourth) !! 1%nat).

Definition duo_returned
    : option ((Q * option (ParticleSwarm.optlog Q)) * ParticleSwarm.locals Q Q) :=
  Eval vm_compute in
    match ParticleSwarm.solve (setting := swarm_setting) 6 swarm_solver
            (ParticleSwarm.XList [(-3)%Q; 2%Q]) with
    | Ok r => r
    | Raise _ => None
    end.

(** [ConjugateGradient(FletcherReeves, maxiter=m, logverbosity=1)]. *)
Definition cg_brief_solver (m : Z) : ConjugateGradient.ConjugateGradient nat :=
  {| ConjugateGradient._beta_type := ConjugateGradient.FletcherReeves;
     ConjugateGradient._orth_value := ConjugateGradient.Infinity;
     ConjugateGradient._linesearch := 0%nat;
     ConjugateGradient.linesearch := None;
     ConjugateGradient._maxiter := m;
     ConjugateGradient._logverbosity := 1 |}.

(** The first state of [solve(problem, x=3)] with [maxiter=m] on the
    square, the state after one pass, and the state the second pass breaks
    in when [maxiter] is 2. *)
Definition cg_brief_first (m : Z) : ConjugateGradient.locals Q Q nat :=
  Eval cbv in
    match ConjugateGradient.start (ops := LineOps)
            (setting := cg_setting square_cg) (cg_brief_solver m)
            (Some 3%Q) false with
    | Ok st => st
    | Raise _ =>
        cg_first square_cg ConjugateGradient.FletcherReeves
          ConjugateGradient.Infinity
    end.

Definition cg_brief_second : ConjugateGradient.locals Q Q nat :=
  Eval vm_compute in
    default (cg_brief_first 2)
      (ConjugateGradientInvariants.after (ops := LineOps)
         (setting := cg_setting square_cg) 1 (cg_brief_first 2)).

Definition cg_brief_broken : ConjugateGradient.locals Q Q nat :=
  Eval vm_compute in
    match ConjugateGradient.iteration (ops := LineOps)
            (setting := cg_setting square_cg) cg_brief_second with
    | Ok o => ConjugateGradient.state_of o
    | Raise _ => cg_brief_second
    end.

Definition cg_brief_returned
    : option ((Q * option (ConjugateGradient.optlog Q))
              * ConjugateGradient.locals Q Q nat) :=
  Eval vm_compute in
    match ConjugateGradient.solve (ops := LineOps)
            (setting := cg_setting square_cg) 3 (cg_brief_solver 2)
            (Some 3%Q) false with
    | Ok r => r
    | Raise _ => None
    end.

End FlatMore.

(** * Properties *)

Lemma getitem_Ok {A : Type} (l : list A) (i : nat) (a : A) :
  getitem l i = Ok a <-> l !! i = Some a.
Proof.
  unfold getitem. destruct (l !! i); split; intros E; congruence.
Qed.

Lemma setitem_Ok {A : Type} (l l' : list A) (i : nat) (a : A) :
  setitem l i a = Ok l' <-> (i < length l)%nat /\ l' = <[i := a]> l.
Proof.
  unfold setitem. destruct (decide (i < length l)%nat); split.
  - intros E. split; congruence.
  - intros [_ ->]. reflexivity.
  - discriminate.
  - intros [Hlt _]. contradiction.
Qed.

Lemma Qltb_lt (a b : Q) : Qltb a b = true <-> (a < b)%Q.
Proof.
  unfold Qltb. rewrite negb_true_iff. split.
  - intros E. apply Qnot_le_lt. intros Hle.
    apply Qle_bool_iff in Hle. congruence.
  - intros Hlt. destruct (Qle_bool b a) eqn:E; [|reflexivity].
    apply Qle_bool_iff in E. exfalso. exact (Qlt_not_le _ _ Hlt E).
Qed.

Lemma Qltb_ge (a b : Q) : Qltb a b = false <-> (b <= a)%Q.
Proof.
  unfold Qltb. rewrite negb_false_iff. apply Qle_bool_iff.
Qed.

Lemma rbind_Ok {A B : Type} (r : result A) (k : A -> result B) (b : B) :
  rbind r k = Ok b <-> exists a, r = Ok a /\ k a = Ok b.
Proof.
  destruct r as [a|e]; simpl; split.
  - intros E. exists a. auto.
  - intros (a' & Ea & E). congruence.
  - discriminate.
  - intros (a' & Ea & _). discriminate.
Qed.

(** A loop invariant for [for_enumerate]. *)
Lemma for_enumerate_inv {S : Type} (body : nat -> S -> result S)
    (P : nat -> S -> Prop) (n start : nat) (s s' : S) :
  P start s ->
  (forall i t t', (start <= i < start + n)%nat ->
     P i t -> body i t = Ok t' -> P (Datatypes.S i) t') ->
  for_enumerate body n start s = Ok s' ->
  P (start + n)%nat s'.
Proof.
  revert start s. induction n as [|n IH]; intros start s H0 Hstep Hrun.
  - simpl in Hrun. injection Hrun as <-. rewrite Nat.add_0_r. exact H0.
  - simpl in Hrun. apply rbind_Ok in Hrun as (t & Hb & Hrun).
    replace (start + Datatypes.S n)%nat with (Datatypes.S start + n)%nat by lia.
    apply (IH (Datatypes.S start) t).
    + apply (Hstep start s t); [lia | exact H0 | exact Hb].
    + intros i u u' Hi. apply Hstep. lia.
    + exact Hrun.
Qed.

Module ParticleSwarmProofs.
Import ParticleSwarm.

Section Facts.

Context {Point Tangent : Type} {ops : TangentOps Tangent}
  {setting : Setting Point Tangent}.

Abbreviation swarm := (swarm Point Tangent).
Abbreviation locals := (locals Point Tangent).
Abbreviation man := (manifold problem).
Abbreviation objective := (cost problem).

Lemma update_Ok (i : nat) (st st' : locals) :
  update i st = Ok st' -> exists xi vi fyi, updated i st st' xi vi fyi.
Proof.
  unfold update. intros E.
  apply rbind_Ok in E as (xi & Hxi & E). apply getitem_Ok in Hxi.
  apply rbind_Ok in E as (vi & Hvi & E). apply getitem_Ok in Hvi.
  apply rbind_Ok in E as (x' & Hx' & E). apply setitem_Ok in Hx' as [_ ->].
  apply rbind_Ok in E as (costs' & Hc & E). apply setitem_Ok in Hc as [Hic ->].
  apply rbind_Ok in E as (fyi & Hfyi & E). apply getitem_Ok in Hfyi.
  exists xi, vi, fyi.
  destruct (Qltb (objective xi) fyi) eqn:Hlt.
  - apply Qltb_lt in Hlt.
    apply rbind_Ok in E as (fy' & Hfy' & E).
    apply setitem_Ok in Hfy' as [Hi ->].
    apply rbind_Ok in E as (y' & Hy' & E).
    apply setitem_Ok in Hy' as [Hiy ->].
    apply rbind_Ok in E as (fyi' & Hfyi' & E). apply getitem_Ok in Hfyi'.
    rewrite list_lookup_insert_eq in Hfyi' by exact Hi.
    injection Hfyi' as <-.
    destruct (Qltb (objective xi) (fbest (sw st))) eqn:Hg;
      injection E as <-; split; try reflexivity; try assumption; left.
    + apply Qltb_lt in Hg. repeat split; auto.
    + apply Qltb_ge in Hg. repeat split; auto.
  - apply Qltb_ge in Hlt. injection E as <-.
    split; try reflexivity; try assumption. right. repeat split; auto.
Qed.

Lemma velocity_Ok (w : Q) (i : nat) (st st' : locals) :
  velocity w i st = Ok st' ->
  exists xi yi xiprev vi,
    x (sw st) !! i = Some xi /\ y (sw st) !! i = Some yi /\
    xprev (sw st) !! i = Some xiprev /\ v (sw st) !! i = Some vi /\
    st' = with_eff (draw 2 (eff st))
            (with_sw (with_v
               (<[i := new_velocity (self st) w (rnd_rand (draws (eff st)))
                         (rnd_rand (Datatypes.S (draws (eff st))))
                         xi yi xiprev (xbest (sw st)) vi]> (v (sw st)))
               (sw st)) st).
Proof.
  unfold velocity. intros E.
  apply rbind_Ok in E as (xi & Hxi & E). apply getitem_Ok in Hxi.
  apply rbind_Ok in E as (yi & Hyi & E). apply getitem_Ok in Hyi.
  apply rbind_Ok in E as (xiprev & Hp & E). apply getitem_Ok in Hp.
  apply rbind_Ok in E as (vi & Hvi & E). apply getitem_Ok in Hvi.
  apply rbind_Ok in E as (v' & Hv' & E). apply setitem_Ok in Hv' as [_ ->].
  injection E as <-. exists xi, yi, xiprev, vi. auto.
Qed.

(** The stopping scan only touches [stop_reason] and the effects. *)
Lemma stop_scan_frame (n : nat) (st : locals) :
  let st' := stop_scan n st in
  self st' = self st /\ sw st' = sw st /\ iter st' = iter st /\
  costevals st' = costevals st /\
  draws (eff st') = draws (eff st) /\ ncalls (eff st') = ncalls (eff st) /\
  out (eff st') = out (eff st) /\
  exists k,
    checks (eff st') = (checks (eff st) ++
      replicate k {| at_iter := iter st; at_costevals := costevals st;
                     at_ncalls := ncalls (eff st) |})%list /\
    clock (eff st') = (clock (eff st) + k)%nat /\
    (n <> 0%nat -> k <> 0%nat).
Proof.
  revert st. induction n as [|n IH]; intros st; simpl.
  - repeat split; auto. exists 0%nat. simpl. rewrite app_nil_r.
    repeat split; auto with arith.
  - destruct (check_stopping_criterion (self st) (clock (eff st)) (iter st)
                (costevals st)) as [r|].
    + simpl. repeat split; auto. exists 1%nat. simpl.
      repeat split; auto with arith. lia.
    + match goal with |- context [stop_scan n ?t] => specialize (IH t) end.
      simpl in IH. destruct IH as (-> & -> & -> & -> & -> & -> & -> & k & -> & -> & _).
      repeat split; auto. exists (Datatypes.S k). simpl.
      rewrite <- app_assoc. simpl. repeat split; auto; lia.
Qed.

(** How a pass through the loop body that returns is made up. *)
Lemma iteration_Ok (st : locals) (o : outcome) :
  iteration st = Ok o ->
  let st1 := stop_scan (length (x (sw st))) (with_iter (iter st + 1) st) in
  exists r, stop_reason st1 = Some r /\
    ((truthy r = true /\
      o = Break (with_eff
            (if 1 <=? verbosity problem
             then print "" (print (default "" r) (eff st1))
             else eff st1) st1)) \/
     (truthy r = false /\
      exists w st2 st3,
        inertia_weight (iter st + 1) (resolved (_maxiter (self st))) = Ok w /\
        for_enumerate (velocity w) (length (x (sw st))) 0 st1 = Ok st2 /\
        for_enumerate update (length (x (sw st))) 0
          (with_sw (with_xprev (x (sw st2)) (sw st2)) st2) = Ok st3 /\
        o = Continue (with_costevals
              (costevals st3 + resolved (_populationsize (self st3))) st3))).
Proof.
  intros E st1. unfold iteration in E.
  pose proof (stop_scan_frame (length (x (sw st))) (with_iter (iter st + 1) st))
    as (Hself & Hsw & Hiter & _).
  simpl in Hself, Hsw, Hiter. fold st1 in Hself, Hsw, Hiter.
  change (sw (with_iter (iter st + 1) st)) with (sw st) in E.
  fold st1 in E.
  destruct (stop_reason st1) as [r|]; [|discriminate].
  exists r. split; [reflexivity|].
  destruct (truthy r).
  - left. split; [reflexivity|]. injection E as <-. reflexivity.
  - right. split; [reflexivity|].
    rewrite Hiter, Hself, Hsw in E.
    apply rbind_Ok in E as (w & Hw & E).
    apply rbind_Ok in E as (st2 & H2 & E).
    apply rbind_Ok in E as (st3 & H3 & E).
    injection E as <-. exists w, st2, st3. auto.
Qed.

(** *** One particle *)

Lemma update_fbest_le (i : nat) (st st' : locals) :
  update i st = Ok st' -> (fbest (sw st') <= fbest (sw st))%Q.
Proof.
  intros E. apply update_Ok in E as (xi & vi & fyi & U).
  destruct (upd_best U) as [(_ & _ & _ & _ & [(Hlt & -> & _)|(_ & -> & _)])
                           |(_ & _ & _ & -> & _)].
  - apply Qlt_le_weak, Hlt.
  - apply Qle_refl.
  - apply Qle_refl.
Qed.

Lemma update_shaped (n i : nat) (st st' : locals) :
  update i st = Ok st' -> shaped n (sw st) -> shaped n (sw st').
Proof.
  intros E (Hx & Hy & Hp & Hv & Hc & Hf).
  apply update_Ok in E as (xi & vi & fyi & U).
  unfold shaped.
  rewrite (upd_x U), (upd_xprev U), (upd_v U), (upd_costs U).
  rewrite !length_insert.
  destruct (upd_best U) as [(_ & -> & -> & _)|(_ & -> & -> & _)];
    rewrite ?length_insert; repeat split; assumption.
Qed.

Lemma update_fy_below (i : nat) (st st' : locals) :
  update i st = Ok st' -> fy_below (sw st) (sw st').
Proof.
  intros E. apply update_Ok in E as (xi & vi & fyi & U).
  unfold fy_below.
  destruct (upd_best U) as [(Hlt & -> & _)|(_ & -> & _)].
  - split; [apply length_insert|].
    intros j a b Ha Hb. destruct (decide (i = j)) as [<-|Hne].
    + rewrite list_lookup_insert_eq in Hb by (eapply lookup_lt_Some; eauto).
      injection Hb as <-. rewrite (upd_fyi U) in Ha. injection Ha as <-.
      apply Qlt_le_weak, Hlt.
    + rewrite list_lookup_insert_ne in Hb by exact Hne.
      rewrite Ha in Hb. injection Hb as <-. apply Qle_refl.
  - split; [reflexivity|].
    intros j a b Ha Hb. rewrite Ha in Hb. injection Hb as <-. apply Qle_refl.
Qed.

Lemma update_best_consistent (i : nat) (st st' : locals) :
  update i st = Ok st' ->
  best_consistent (sw st) -> best_consistent (sw st').
Proof.
  intros E (Hlen & Hmin & j & Hj & Hyj).
  apply update_Ok in E as (xi & vi & fyi & U).
  pose proof (lookup_lt_Some _ _ _ (upd_fyi U)) as Hi.
  destruct (upd_best U) as [(Hlt & Efy & Ey & Hiy & Hg)|(_ & Efy & Ey & Eb & Ex)].
  - destruct Hg as [(Hg & Eb & Ex)|(Hg & Eb & Ex)].
    + (* a new global best *)
      unfold best_consistent. rewrite Efy, Ey, Eb, Ex, !length_insert.
      split; [exact Hlen|]. split.
      * intros k c Hk. destruct (decide (i = k)) as [<-|Hne].
        -- rewrite list_lookup_insert_eq in Hk by exact Hi.
           injection Hk as <-. apply Qle_refl.
        -- rewrite list_lookup_insert_ne in Hk by exact Hne.
           apply Qle_trans with (fbest (sw st));
             [apply Qlt_le_weak, Hg | eapply Hmin, Hk].
      * exists i. rewrite !list_lookup_insert_eq by assumption. auto.
    + (* a personal best only: the global best sits at another particle *)
      assert (Hne : i <> j).
      { intros <-. rewrite (upd_fyi U) in Hj. injection Hj as Hj.
        rewrite Hj in Hlt. exact (Qlt_not_le _ _ Hlt Hg). }
      unfold best_consistent. rewrite Efy, Ey, Eb, Ex, !length_insert.
      split; [exact Hlen|]. split.
      * intros k c Hk. destruct (decide (i = k)) as [<-|Hne'].
        -- rewrite list_lookup_insert_eq in Hk by exact Hi.
           injection Hk as <-. exact Hg.
        -- rewrite list_lookup_insert_ne in Hk by exact Hne'.
           eapply Hmin, Hk.
      * exists j. rewrite !list_lookup_insert_ne by exact Hne. auto.
  - unfold best_consistent. rewrite Efy, Ey, Eb, Ex.
    split; [exact Hlen|]. split; [exact Hmin|]. exists j. auto.
Qed.

(** *** The two loops over the particles *)

Lemma fy_below_refl (s : swarm) : fy_below s s.
Proof.
  split; [reflexivity|]. intros i a b Ha Hb.
  rewrite Ha in Hb. injection Hb as <-. apply Qle_refl.
Qed.

Lemma fy_below_trans (s1 s2 s3 : swarm) :
  fy_below s1 s2 -> fy_below s2 s3 -> fy_below s1 s3.
Proof.
  intros [L12 H12] [L23 H23]. split; [congruence|].
  intros i a c Ha Hc.
  destruct (fy s2 !! i) as [b|] eqn:Hb.
  - apply Qle_trans with b; eauto.
  - apply lookup_ge_None in Hb. apply lookup_lt_Some in Ha. lia.
Qed.

Lemma count_calls_0 (e : effects) : count_calls 0 e = e.
Proof. destruct e. unfold count_calls. simpl. f_equal. lia. Qed.

Lemma count_calls_add (a b : Z) (e : effects) :
  count_calls b (count_calls a e) = count_calls (a + b) e.
Proof. unfold count_calls. simpl. f_equal. lia. Qed.

Lemma update_loop_swept (n : nat) (st st' : locals) :
  for_enumerate update n 0 st = Ok st' -> swept n st st'.
Proof.
  intros E.
  apply (for_enumerate_inv update (fun i t => swept i st t)) in E.
  - exact E.
  - split; try reflexivity.
    + simpl. symmetry. apply count_calls_0.
    + apply Qle_refl.
    + apply fy_below_refl.
  - intros i t t' _ S Hb.
    pose proof (update_fbest_le _ _ _ Hb) as Hf.
    pose proof (update_fy_below _ _ _ Hb) as Hy.
    apply update_Ok in Hb as (xi & vi & fyi & U).
    split.
    + rewrite (upd_self U). apply S.
    + rewrite (upd_iter U). apply S.
    + rewrite (upd_costevals U). apply S.
    + rewrite (upd_stop_reason U). apply S.
    + rewrite (upd_v U). apply S.
    + rewrite (upd_xprev U). apply S.
    + rewrite (upd_eff U), (swp_eff S), count_calls_add.
      f_equal. lia.
    + eapply Qle_trans; [exact Hf | apply S].
    + eapply fy_below_trans; [apply S | exact Hy].
    + rewrite (upd_x U), length_insert. apply S.
Qed.

Lemma update_loop_best_consistent (n start : nat) (st st' : locals) :
  for_enumerate update n start st = Ok st' ->
  best_consistent (sw st) -> best_consistent (sw st').
Proof.
  intros E H0.
  apply (for_enumerate_inv update (fun _ t => best_consistent (sw t))) in E;
    [exact E | exact H0 |].
  intros i t t' _ Ht Hb. eapply update_best_consistent; eauto.
Qed.

Lemma update_loop_shaped (m n start : nat) (st st' : locals) :
  for_enumerate update n start st = Ok st' ->
  shaped m (sw st) -> shaped m (sw st').
Proof.
  intros E H0.
  apply (for_enumerate_inv update (fun _ t => shaped m (sw t))) in E;
    [exact E | exact H0 |].
  intros i t t' _ Ht Hb. eapply update_shaped; eauto.
Qed.

Lemma draw_0 (e : effects) : draw 0 e = e.
Proof. destruct e. unfold draw. simpl. f_equal. lia. Qed.

Lemma draw_add (a b : nat) (e : effects) :
  draw b (draw a e) = draw (a + b) e.
Proof. unfold draw. simpl. f_equal. lia. Qed.

Lemma velocity_loop_blown (w : Q) (n : nat) (st st' : locals) :
  for_enumerate (velocity w) n 0 st = Ok st' -> blown w n st st'.
Proof.
  intros E.
  apply (for_enumerate_inv (velocity w) (fun i t => blown w i st t)) in E.
  - exact E.
  - split; try reflexivity.
    + simpl. symmetry. apply draw_0.
    + intros j Hj. lia.
  - intros i t t' _ B Hb.
    apply velocity_Ok in Hb as (xi & yi & xpi & vi & Hxi & Hyi & Hpi & Hvi & ->).
    pose proof (lookup_lt_Some _ _ _ Hvi) as Hlt.
    split; simpl; try apply B.
    + rewrite length_insert. apply B.
    + rewrite (blw_eff B), draw_add. f_equal. lia.
    + intros j Hj. destruct (decide (j = i)) as [->|Hne].
      * rewrite (blw_x B) in Hxi. rewrite (blw_y B) in Hyi.
        rewrite (blw_xprev B) in Hpi.
        rewrite (blw_todo B) in Hvi by lia.
        exists xi, yi, xpi, vi. repeat split; try assumption.
        rewrite list_lookup_insert_eq by exact Hlt.
        rewrite (blw_self B), (blw_xbest B), (blw_eff B). simpl.
        do 3 f_equal; f_equal; lia.
      * destruct (blw_done B (j := j)) as (xj & yj & xpj & vj & H1 & H2 & H3 & H4 & H5);
          [lia|].
        exists xj, yj, xpj, vj. repeat split; try assumption.
        rewrite list_lookup_insert_ne by auto. exact H5.
    + intros j Hj. rewrite list_lookup_insert_ne by lia.
      apply (blw_todo B). lia.
Qed.

(** *** The first state *)

Lemma argmin_from_spec (l pre : list Q) (best : Q) (ibest : nat) :
  pre !! ibest = Some best ->
  (forall k c, pre !! k = Some c -> (best <= c)%Q) ->
  exists c, (pre ++ l)%list !! argmin_from best ibest (length pre) l = Some c /\
    forall k c', (pre ++ l)%list !! k = Some c' -> (c <= c')%Q.
Proof.
  revert pre best ibest.
  induction l as [|a l IH]; intros pre best ibest Hbest Hmin; simpl.
  - exists best. rewrite app_nil_r. auto.
  - replace (pre ++ a :: l)%list with ((pre ++ [a]) ++ l)%list
      by (rewrite <- app_assoc; reflexivity).
    replace (Datatypes.S (length pre)) with (length (pre ++ [a])%list)
      by (rewrite length_app; simpl; lia).
    destruct (Qltb a best) eqn:Hlt.
    + apply Qltb_lt in Hlt. apply IH.
      * rewrite lookup_app_r by lia. rewrite Nat.sub_diag. reflexivity.
      * intros k c Hk. apply lookup_app_Some in Hk as [Hk|[_ Hk]].
        -- apply Qle_trans with best; [apply Qlt_le_weak, Hlt | eauto].
        -- apply list_lookup_singleton_Some in Hk as [_ <-]. apply Qle_refl.
    + apply Qltb_ge in Hlt. apply IH.
      * apply lookup_app_l_Some. exact Hbest.
      * intros k c Hk. apply lookup_app_Some in Hk as [Hk|[_ Hk]].
        -- eauto.
        -- apply list_lookup_singleton_Some in Hk as [_ <-]. exact Hlt.
Qed.

Lemma argmin_Ok (l : list Q) (i : nat) :
  argmin l = Ok i ->
  exists c, l !! i = Some c /\ forall k c', l !! k = Some c' -> (c <= c')%Q.
Proof.
  destruct l as [|a l]; simpl; [discriminate|].
  intros E. injection E as <-.
  apply (argmin_from_spec l [a] a 0%nat).
  - reflexivity.
  - intros k c Hk. apply list_lookup_singleton_Some in Hk as [_ <-].
    apply Qle_refl.
Qed.

(** How a first state that exists was made. *)
Lemma initial_state_Ok (slf : ParticleSwarm) (l : list Point) (e : effects)
    (st : locals) :
  initial_state slf l e = Ok st ->
  exists imin,
    l <> [] /\
    (map objective l) !! imin = Some (fbest (sw st)) /\
    l !! imin = Some (xbest (sw st)) /\
    (forall k c, (map objective l) !! k = Some c -> (fbest (sw st) <= c)%Q) /\
    self st = slf /\ iter st = 0 /\
    costevals st = resolved (_populationsize slf) /\
    stop_reason st = None /\
    eff st = count_calls (Z.of_nat (length l)) (draw (length l) e) /\
    x (sw st) = l /\ y (sw st) = l /\ xprev (sw st) = l /\
    v (sw st) = imap (fun i xi => randvec man (draws e + i) xi) l /\
    costs (sw st) = map objective l /\ fy (sw st) = map objective l.
Proof.
  unfold initial_state, evaluate_all. intros E.
  apply rbind_Ok in E as (imin & Hmin & E).
  apply rbind_Ok in E as (fb & Hfb & E). apply getitem_Ok in Hfb.
  apply rbind_Ok in E as (xb & Hxb & E). apply getitem_Ok in Hxb.
  apply rbind_Ok in E as ([] & _ & E).
  injection E as <-. simpl.
  apply argmin_Ok in Hmin as (c & Hc & Hle).
  rewrite Hc in Hfb. injection Hfb as <-.
  exists imin. split.
  { intros ->. discriminate. }
  repeat split; auto.
Qed.

Lemma start_Ok (slf : ParticleSwarm) (x0 : population Point) (st : locals) :
  start slf x0 = Ok st ->
  exists slf' l e,
    initial_population (resolve_defaults slf) x0 effects0 = Ok (slf', l, e) /\
    initial_state slf' l e = Ok st /\
    Z.of_nat (length l) = resolved (_populationsize slf') /\
    ncalls e = 0 /\ checks e = [].
Proof.
  unfold start. intros E.
  apply rbind_Ok in E as ([[slf' l] e] & Hpop & E).
  exists slf', l, e. split; [exact Hpop|]. split; [exact E|].
  apply initial_state_Ok in E as (_ & Hne & _).
  set (p := resolved (_populationsize (resolve_defaults slf))) in *.
  destruct x0 as [| |l0]; unfold initial_population in Hpop; fold p in Hpop.
  - injection Hpop as <- <- <-.
    rewrite length_map, length_seq in *. repeat split; auto.
    destruct (Z_le_gt_dec p 0) as [Hle|Hgt]; [|lia].
    exfalso. apply Hne. replace (Z.to_nat p) with 0%nat by lia. reflexivity.
  - discriminate.
  - destruct (Z.eqb_spec (Z.of_nat (length l0)) p) as [Heq|_];
      injection Hpop as <- <- <-; simpl; auto.
Qed.

(** *** One pass through the loop body *)

Lemma best_consistent_ext (s s' : swarm) :
  y s' = y s -> fy s' = fy s -> fbest s' = fbest s -> xbest s' = xbest s ->
  best_consistent s -> best_consistent s'.
Proof.
  unfold best_consistent. intros -> -> -> ->. auto.
Qed.

Lemma fy_below_ext (s s' : swarm) : fy s' = fy s -> fy_below s s'.
Proof.
  intros E. split; [congruence|]. intros i a b Ha Hb.
  rewrite E, Ha in Hb. injection Hb as <-. apply Qle_refl.
Qed.

Lemma iteration_swarm (st : locals) (o : outcome) :
  iteration st = Ok o ->
  self (state_of o) = self st /\
  (fbest (sw (state_of o)) <= fbest (sw st))%Q /\
  fy_below (sw st) (sw (state_of o)) /\
  (best_consistent (sw st) -> best_consistent (sw (state_of o))).
Proof.
  intros E. apply iteration_Ok in E. cbv zeta in E.
  pose proof (stop_scan_frame (length (x (sw st))) (with_iter (iter st + 1) st))
    as (Hself & Hsw & _).
  cbv zeta in Hself, Hsw. simpl in Hself, Hsw.
  destruct E as (r & _ & [(_ & ->)|(_ & w & st2 & st3 & _ & H2 & H3 & ->)]);
    simpl.
  - rewrite Hself, Hsw. split; [|split; [|split]]; auto.
    + apply Qle_refl.
    + apply fy_below_refl.
  - apply velocity_loop_blown in H2.
    pose proof (update_loop_best_consistent _ _ _ _ H3) as Hbc.
    apply update_loop_swept in H3. simpl in *.
    split; [|split; [|split]].
    + rewrite (swp_self H3). simpl. rewrite (blw_self H2). exact Hself.
    + eapply Qle_trans; [apply (swp_fbest H3)|]. simpl.
      rewrite (blw_fbest H2), Hsw. apply Qle_refl.
    + eapply fy_below_trans; [|apply (swp_fy H3)]. simpl.
      apply fy_below_ext. simpl. rewrite (blw_fy H2), Hsw. reflexivity.
    + intros Hb. apply Hbc. revert Hb. apply best_consistent_ext; simpl.
      * rewrite (blw_y H2), Hsw. reflexivity.
      * rewrite (blw_fy H2), Hsw. reflexivity.
      * rewrite (blw_fbest H2), Hsw. reflexivity.
      * rewrite (blw_xbest H2), Hsw. reflexivity.
Qed.

(** The checks made in a pass, and the counters after it. *)
Lemma iteration_counted (st : locals) (o : outcome) :
  counted st -> iteration st = Ok o ->
  let p := resolved (_populationsize (self st)) in
  (exists k, k <> 0%nat /\
     checks (eff (state_of o)) =
       (checks (eff st) ++
        replicate k {| at_iter := iter st + 1;
                       at_costevals := p * (iter st + 1);
                       at_ncalls := p * (iter st + 1) |})%list) /\
  Forall (check_counted p) (checks (eff (state_of o))) /\
  forall st', o = Continue st' -> counted st' /\ iter st' = iter st + 1.
Proof.
  intros (Hp & Hlen & Hce & Hnc & Hall) E p. fold p in Hp, Hlen, Hce, Hall.
  apply iteration_Ok in E. cbv zeta in E.
  pose proof (stop_scan_frame (length (x (sw st))) (with_iter (iter st + 1) st))
    as (Hself & Hsw & Hiter & Hcost & Hdraws & Hncalls & Hout & k & Hchecks
        & Hclock & Hk).
  cbv zeta in Hself, Hsw, Hiter, Hcost, Hncalls, Hchecks. simpl in *.
  rewrite Hnc, Hce in Hchecks.
  assert (Hk' : k <> 0%nat) by (apply Hk; lia).
  assert (Hnew : Forall (check_counted p)
            (checks (eff st) ++
             replicate k {| at_iter := iter st + 1;
                            at_costevals := p * (iter st + 1);
                            at_ncalls := p * (iter st + 1) |})%list).
  { apply Forall_app. split; [exact Hall|].
    apply Forall_replicate. split; reflexivity. }
  destruct E as (r & _ & [(_ & ->)|(_ & w & st2 & st3 & _ & H2 & H3 & ->)]);
    simpl.
  - assert (Hc : checks (if 1 <=? verbosity problem
                         then print "" (print (default "" r)
                                (eff (stop_scan (length (x (sw st)))
                                        (with_iter (iter st + 1) st))))
                         else eff (stop_scan (length (x (sw st)))
                                     (with_iter (iter st + 1) st)))
                 = checks (eff (stop_scan (length (x (sw st)))
                                  (with_iter (iter st + 1) st)))).
    { destruct (1 <=? verbosity problem); reflexivity. }
    rewrite Hc, Hchecks. split; [exists k; auto|]. split; [exact Hnew|].
    discriminate.
  - apply velocity_loop_blown in H2. apply update_loop_swept in H3.
    simpl in *.
    assert (Hc : checks (eff st3) =
                 (checks (eff st) ++
                  replicate k {| at_iter := iter st + 1;
                                 at_costevals := p * (iter st + 1);
                                 at_ncalls := p * (iter st + 1) |})%list).
    { rewrite (swp_eff H3). simpl. rewrite (blw_eff H2). simpl. exact Hchecks. }
    rewrite Hc. split; [exists k; auto|]. split; [exact Hnew|].
    intros st' Est'. injection Est' as <-. unfold counted. simpl.
    rewrite (swp_self H3). simpl. rewrite (blw_self H2), Hself. fold p.
    rewrite (swp_costevals H3), (swp_iter H3), (swp_length H3). simpl.
    rewrite (blw_costevals H2), (blw_iter H2), (blw_x H2), Hcost, Hiter, Hsw.
    rewrite Hc, (swp_eff H3). simpl. rewrite (blw_eff H2). simpl.
    rewrite Hncalls.
    repeat split; auto; lia.
Qed.

(** *** Runs *)

Lemma after_add (n m : nat) (st st' st'' : locals) :
  after n st = Some st' -> after m st' = Some st'' ->
  after (n + m) st = Some st''.
Proof.
  revert st. induction n as [|n IH]; intros st; simpl.
  - intros E. injection E as <-. auto.
  - destruct (iteration st) as [[t|t]|]; try discriminate. apply IH.
Qed.

Lemma after_inv (P : locals -> Prop) :
  (forall st st', P st -> iteration st = Ok (Continue st') -> P st') ->
  forall n st st', P st -> after n st = Some st' -> P st'.
Proof.
  intros Hstep. induction n as [|n IH]; intros st st' H0; simpl.
  - intros E. injection E as <-. exact H0.
  - destruct (iteration st) as [[t|t]|] eqn:Hit; try discriminate.
    apply IH. eapply Hstep; eauto.
Qed.

Lemma after_rel (R : locals -> locals -> Prop) :
  (forall st, R st st) ->
  (forall a b c, R a b -> R b c -> R a c) ->
  (forall st st', iteration st = Ok (Continue st') -> R st st') ->
  forall n st st', after n st = Some st' -> R st st'.
Proof.
  intros Hrefl Htrans Hstep. induction n as [|n IH]; intros st st'; simpl.
  - intros E. injection E as <-. apply Hrefl.
  - destruct (iteration st) as [[t|t]|] eqn:Hit; try discriminate.
    intros E. eapply Htrans; [apply Hstep, Hit | apply IH, E].
Qed.

(** A loop that breaks made some passes and then one that broke. *)
Lemma loop_Some (fuel : nat) (st st' : locals) :
  loop fuel st = Ok (Some st') ->
  exists n stn, after n st = Some stn /\ iteration stn = Ok (Break st').
Proof.
  revert st. induction fuel as [|fuel IH]; intros st; simpl.
  - discriminate.
  - intros E. apply rbind_Ok in E as ([t|t] & Hit & E).
    + apply IH in E as (n & stn & Hn & Hb).
      exists (Datatypes.S n), stn. simpl. rewrite Hit. auto.
    + injection E as <-. exists 0%nat, st. auto.
Qed.

(** *** The global best *)

(** C6: the global best cost never goes up.  It starts as the least of the
    initial costs; no pass through the loop body raises it, whatever the
    state; so it is non-increasing along every run, and the state in which
    [solve] returns [xbest] has an [fbest] no higher than the initial one. *)
Theorem fbest_nonincreasing (slf : ParticleSwarm) (x0 : population Point)
    (st0 : locals) :
  start slf x0 = Ok st0 ->
  ((exists i, map objective (x (sw st0)) !! i = Some (fbest (sw st0))) /\
   (forall k c, map objective (x (sw st0)) !! k = Some c ->
      (fbest (sw st0) <= c)%Q)) /\
  (forall st o, iteration st = Ok o ->
     (fbest (sw (state_of o)) <= fbest (sw st))%Q) /\
  (forall n m stn stm,
     after n st0 = Some stn -> after m stn = Some stm ->
     (fbest (sw stm) <= fbest (sw stn))%Q) /\
  (forall fuel r st',
     solve fuel slf x0 = Ok (Some (r, st')) ->
     fst r = xbest (sw st') /\ (fbest (sw st') <= fbest (sw st0))%Q).
Proof.
  intros Hstart.
  assert (Hpass : forall st o, iteration st = Ok o ->
            (fbest (sw (state_of o)) <= fbest (sw st))%Q).
  { intros st o E. apply iteration_swarm in E. tauto. }
  assert (Hrun : forall m st st', after m st = Some st' ->
            (fbest (sw st') <= fbest (sw st))%Q).
  { apply (after_rel (fun a b => (fbest (sw b) <= fbest (sw a))%Q)).
    - intros st. apply Qle_refl.
    - intros a b c Hab Hbc. eapply Qle_trans; eauto.
    - intros st st' E. apply (Hpass _ _ E). }
  split; [|split; [exact Hpass|split]].
  - apply start_Ok in Hstart as (slf' & l & e & _ & Hinit & _).
    apply initial_state_Ok in Hinit
      as (imin & _ & Hfb & _ & Hmin & _ & _ & _ & _ & _ & -> & _).
    split; [exists imin; exact Hfb | exact Hmin].
  - intros n m stn stm _ Hm. apply (Hrun _ _ _ Hm).
  - intros fuel r st' E. unfold solve in E. rewrite Hstart in E. simpl in E.
    apply rbind_Ok in E as ([st''|] & Hloop & E); [|discriminate].
    simpl in E. injection E as <- <-.
    apply loop_Some in Hloop as (n & stn & Hn & Hb).
    split.
    + unfold returned. destruct (_logverbosity (self st'') <=? 0); reflexivity.
    + eapply Qle_trans; [apply (Hpass _ _ Hb) | apply (Hrun _ _ _ Hn)].
Qed.

(** C9: [fbest] is the least personal best and [xbest] the best position of
    a particle that attains it: in the first state, after the update of any
    one particle, after any number of passes, and in the state in which
    [solve] returns.  No personal best ever goes up. *)
Theorem fbest_is_least_personal_best (slf : ParticleSwarm)
    (x0 : population Point) (st0 : locals) :
  start slf x0 = Ok st0 ->
  best_consistent (sw st0) /\
  (forall i st st', best_consistent (sw st) -> update i st = Ok st' ->
     best_consistent (sw st') /\ fy_below (sw st) (sw st')) /\
  (forall n stn, after n st0 = Some stn -> best_consistent (sw stn)) /\
  (forall n m stn stm, after n st0 = Some stn -> after m stn = Some stm ->
     fy_below (sw stn) (sw stm)) /\
  (forall fuel r st', solve fuel slf x0 = Ok (Some (r, st')) ->
     best_consistent (sw st') /\ fy_below (sw st0) (sw st')).
Proof.
  intros Hstart.
  assert (H0 : best_consistent (sw st0)).
  { apply start_Ok in Hstart as (slf' & l & e & _ & Hinit & _).
    apply initial_state_Ok in Hinit
      as (imin & _ & Hfb & Hxb & Hmin & _ & _ & _ & _ & _ & _ & Hy & _ & _ & _ & Hfy).
    unfold best_consistent. rewrite Hy, Hfy, length_map.
    split; [reflexivity|]. split; [exact Hmin|]. exists imin. auto. }
  assert (Hinv : forall n stn, after n st0 = Some stn -> best_consistent (sw stn)).
  { intros n stn. apply (after_inv (fun st => best_consistent (sw st))); [|exact H0].
    intros st st' Hb E. apply iteration_swarm in E. simpl in E. tauto. }
  assert (Hrun : forall m st st', after m st = Some st' -> fy_below (sw st) (sw st')).
  { apply (after_rel (fun a b => fy_below (sw a) (sw b))).
    - intros st. apply fy_below_refl.
    - intros a b c. apply fy_below_trans.
    - intros st st' E. apply iteration_swarm in E. simpl in E. tauto. }
  split; [exact H0|]. split; [|split; [exact Hinv|split]].
  - intros i st st' Hb E. split.
    + eapply update_best_consistent; eauto.
    + eapply update_fy_below; eauto.
  - intros n m stn stm _ Hm. apply (Hrun _ _ _ Hm).
  - intros fuel r st' E. unfold solve in E. rewrite Hstart in E. simpl in E.
    apply rbind_Ok in E as ([st''|] & Hloop & E); [|discriminate].
    simpl in E. injection E as <- <-.
    apply loop_Some in Hloop as (n & stn & Hn & Hb).
    pose proof (Hinv _ _ Hn) as Hbn. pose proof (Hrun _ _ _ Hn) as Hfn.
    apply iteration_swarm in Hb. simpl in Hb.
    destruct Hb as (_ & _ & Hf & Hc).
    split; [auto | eapply fy_below_trans; eauto].
Qed.

(** *** The counter of cost evaluations *)

(** C10: when the loop is entered [costevals] is the population size, and
    so is the number of calls of the objective made so far.  After [n]
    passes that did not break, [costevals] is the population size times
    [n + 1] and still the number of calls made; every check of the stopping
    criterion made in the next pass is made with [iter = n + 1] and that
    value of [costevals], after that many calls, and there is at least one
    such check.  In every state a run reaches, all the checks recorded so
    far saw [costevals = populationsize * iter] and as many calls. *)
Theorem costevals_counts_objective_calls (slf : ParticleSwarm)
    (x0 : population Point) (st0 : locals) :
  start slf x0 = Ok st0 ->
  let p := resolved (_populationsize (self st0)) in
  (costevals st0 = p /\ ncalls (eff st0) = p /\ checks (eff st0) = [] /\
   Z.of_nat (length (x (sw st0))) = p) /\
  (forall n stn, after n st0 = Some stn ->
     self stn = self st0 /\
     iter stn = Z.of_nat n /\
     costevals stn = p * (Z.of_nat n + 1) /\
     ncalls (eff stn) = costevals stn /\
     forall o, iteration stn = Ok o ->
       (exists k, k <> 0%nat /\
          checks (eff (state_of o)) =
            (checks (eff stn) ++
             replicate k {| at_iter := Z.of_nat n + 1;
                            at_costevals := p * (Z.of_nat n + 1);
                            at_ncalls := p * (Z.of_nat n + 1) |})%list) /\
       Forall (check_counted p) (checks (eff (state_of o)))).
Proof.
  intros Hstart p.
  assert (H0 : counted st0 /\ iter st0 = 0 /\ checks (eff st0) = []).
  { apply start_Ok in Hstart as (slf' & l & e & _ & Hinit & Hlen & Hn0 & Hc0).
    apply initial_state_Ok in Hinit
      as (imin & Hne & _ & _ & _ & Hs & Hi & Hce & _ & He & Hx & _).
    unfold counted. rewrite Hs, Hx, Hce, He, Hi. simpl. rewrite Hn0, Hc0.
    split; [|auto]. repeat split; auto; try lia.
    destruct l; [contradiction|]. simpl in Hlen. lia. }
  destruct H0 as (Hc0 & Hi0 & Hk0).
  split.
  { destruct Hc0 as (_ & Hlen & Hce & Hnc & _). fold p in Hlen, Hce.
    rewrite Hi0 in Hce. repeat split; auto; lia. }
  assert (Hinv : forall n stn, after n st0 = Some stn ->
            counted stn /\ self stn = self st0 /\ iter stn = Z.of_nat n).
  { induction n as [|n IH]; intros stn Hn.
    - simpl in Hn. injection Hn as <-. auto.
    - replace (Datatypes.S n) with (n + 1)%nat in Hn by lia.
      assert (exists stm, after n st0 = Some stm /\ after 1 stm = Some stn)
        as (stm & Hm & H1).
      { clear IH. revert Hn. generalize st0. induction n as [|n IHn]; intros s Hn.
        - exists s. auto.
        - simpl in Hn. simpl. destruct (iteration s) as [[t|t]|]; try discriminate.
          apply IHn, Hn. }
      destruct (IH _ Hm) as (Hcm & Hsm & Him).
      simpl in H1. destruct (iteration stm) as [[t|t]|] eqn:Hit; try discriminate.
      injection H1 as ->.
      pose proof (iteration_counted _ _ Hcm Hit) as (_ & _ & Hnext).
      destruct (Hnext _ eq_refl) as (Hcn & Hin).
      apply iteration_swarm in Hit as (Hself & _). simpl in Hself.
      split; [exact Hcn|]. split; [congruence|]. lia. }
  intros n stn Hn. destruct (Hinv _ _ Hn) as (Hc & Hs & Hi).
  pose proof Hc as (_ & _ & Hce & Hnc & _).
  rewrite Hs in Hce. fold p in Hce. rewrite Hi in Hce.
  split; [exact Hs|]. split; [exact Hi|]. split; [exact Hce|].
  split; [exact Hnc|].
  intros o Hit. pose proof (iteration_counted _ _ Hc Hit) as (Hk & Hall & _).
  rewrite Hs in Hk, Hall. fold p in Hk, Hall. rewrite Hi in Hk. auto.
Qed.

(** *** The initial population *)

(** C7: a population given as a list whose length is not the configured
    population size is kept, the population size becomes its length and the
    replacement is reported on the output; a list that is not empty then
    leads to a first state with that population and that size, unless the
    column width of the progress table cannot be computed.  A population
    that cannot be iterated makes [solve] raise [ValueError] while the
    first state is being built, whatever the fuel: no pass is made. *)
Theorem mismatched_population_is_adopted (slf : ParticleSwarm) :
  (forall l e,
     Z.of_nat (length l) <> resolved (_populationsize slf) ->
     initial_population slf (XList l) e =
       Ok (with_populationsize (Z.of_nat (length l)) slf, l,
           print forced_message e)) /\
  (forall l,
     l <> [] ->
     Z.of_nat (length l) <> resolved (_populationsize (resolve_defaults slf)) ->
     iter_format_length (verbosity problem)
       (resolved (_maxiter (resolve_defaults slf))) = Ok tt ->
     exists st0,
       start slf (XList l) = Ok st0 /\
       x (sw st0) = l /\
       _populationsize (self st0) = Some (Z.of_nat (length l)) /\
       costevals st0 = Z.of_nat (length l) /\
       out (eff st0) = [forced_message]) /\
  start slf XNotIterable =
    Raise (ValueError "The initial population x must be iterable") /\
  (forall fuel,
     solve fuel slf XNotIterable =
       Raise (ValueError "The initial population x must be iterable")).
Proof.
  split; [|split; [|split]].
  - intros l e Hne. unfold initial_population.
    destruct (Z.eqb_spec (Z.of_nat (length l)) (resolved (_populationsize slf)));
      [contradiction | reflexivity].
  - intros l Hl Hne Hfmt. unfold start, initial_population.
    destruct (Z.eqb_spec (Z.of_nat (length l))
                (resolved (_populationsize (resolve_defaults slf))));
      [contradiction|].
    simpl. unfold initial_state, evaluate_all.
    destruct l as [|a l]; [contradiction|].
    cbn [map argmin rbind].
    destruct (argmin_Ok (objective a :: map objective l)
                (argmin_from (objective a) 0 1 (map objective l)) eq_refl)
      as (c & Hc & _).
    unfold getitem at 1. rewrite Hc. cbn [rbind].
    pose proof (lookup_lt_Some _ _ _ Hc) as Hlt.
    change (objective a :: map objective l) with (map objective (a :: l)) in Hlt.
    rewrite length_map in Hlt.
    destruct (lookup_lt_is_Some_2 (a :: l) _ Hlt) as (xb & Hxb).
    unfold getitem. rewrite Hxb. cbn [rbind].
    cbn [_maxiter with_populationsize]. rewrite Hfmt. cbn [rbind].
    eexists. split; [reflexivity|]. simpl. auto.
  - reflexivity.
  - intros fuel. reflexivity.
Qed.

(** *** The inertia weight *)

Lemma inject_Z_nonzero (m : Z) : Qeq_bool (inject_Z m) 0 = false <-> m <> 0.
Proof.
  split.
  - intros E ->. discriminate.
  - intros Hm. destruct (Qeq_bool (inject_Z m) 0) eqn:E; [|reflexivity].
    apply Qeq_bool_iff in E. unfold Qeq in E. simpl in E. lia.
Qed.

Lemma inertia_weight_Ok (it m : Z) (w : Q) :
  inertia_weight it m = Ok w <->
  m <> 0 /\ w = (0.4 + 0.5 * (1 - inject_Z it / inject_Z m))%Q.
Proof.
  unfold inertia_weight, truediv.
  destruct (Qeq_bool (inject_Z m) 0) eqn:E; simpl.
  - split; [discriminate|]. intros [Hm _].
    apply inject_Z_nonzero in Hm. congruence.
  - apply inject_Z_nonzero in E. split.
    + intros H. injection H as <-. auto.
    + intros [_ ->]. reflexivity.
Qed.

(** C8: in a pass that goes on to move the particles, the weight is
    [0.4 + 0.5 * (1 - iter / maxiter)] for the number [iter] of the pass,
    counted from one, and every particle's new velocity has its transported
    old velocity scaled by that weight.  As a function of [iter] the weight
    is 0.9 at zero and 0.4 at [maxiter], and it falls by [0.5 / maxiter]
    from one pass to the next. *)
Theorem inertia_weight_decays_linearly (st st' : locals) :
  iteration st = Ok (Continue st') ->
  let maxiter := resolved (_maxiter (self st)) in
  exists w : Q,
    iter st' = iter st + 1 /\
    w = (0.4 + 0.5 * (1 - inject_Z (iter st') / inject_Z maxiter))%Q /\
    (forall j, (j < length (x (sw st)))%nat ->
       exists xj yj xpj vj r1 r2,
         x (sw st) !! j = Some xj /\ y (sw st) !! j = Some yj /\
         xprev (sw st) !! j = Some xpj /\ v (sw st) !! j = Some vj /\
         v (sw st') !! j =
           Some (tadd
                   (tadd (tscale w (transp man xpj xj vj))
                      (tscale (r1 * _nostalgia (self st))%Q (log man xj yj)))
                   (tscale (r2 * _social (self st))%Q
                      (log man xj (xbest (sw st)))))) /\
    (exists w0 wn,
       inertia_weight 0 maxiter = Ok w0 /\ (w0 == 0.9)%Q /\
       inertia_weight maxiter maxiter = Ok wn /\ (wn == 0.4)%Q) /\
    (forall k, exists wk wk',
       inertia_weight k maxiter = Ok wk /\
       inertia_weight (k + 1) maxiter = Ok wk' /\
       (wk' - wk == - (0.5 / inject_Z maxiter))%Q).
Proof.
  intros E maxiter. apply iteration_Ok in E. cbv zeta in E.
  pose proof (stop_scan_frame (length (x (sw st))) (with_iter (iter st + 1) st))
    as (Hself & Hsw & Hiter & _).
  cbv zeta in Hself, Hsw, Hiter. simpl in Hself, Hsw, Hiter.
  destruct E as (r & _ & [(_ & E)|(_ & w & st2 & st3 & Hw & H2 & H3 & E)]);
    [discriminate|].
  injection E as ->. fold maxiter in Hw.
  apply inertia_weight_Ok in Hw as [Hm ->].
  apply velocity_loop_blown in H2. apply update_loop_swept in H3.
  assert (Hq : ~ (inject_Z maxiter == 0)%Q).
  { unfold Qeq. simpl. lia. }
  assert (Hit : iter st3 = iter st + 1).
  { rewrite (swp_iter H3). simpl. rewrite (blw_iter H2). exact Hiter. }
  eexists. split; [exact Hit|]. simpl. rewrite Hit.
  split; [reflexivity|]. split; [|split].
  - intros j Hj.
    destruct (blw_done H2 (j := j)) as (xj & yj & xpj & vj & H1x & H1y & H1p & H1v & Hv);
      [exact Hj|].
    rewrite Hsw in H1x, H1y, H1p, H1v.
    exists xj, yj, xpj, vj. do 2 eexists.
    repeat split; try eassumption.
    rewrite (swp_v H3). simpl. rewrite Hv, Hself, Hsw. reflexivity.
  - do 2 eexists. split; [apply inertia_weight_Ok; split; [exact Hm|reflexivity]|].
    split; [|split; [apply inertia_weight_Ok; split; [exact Hm|reflexivity]|]].
    + change (inject_Z 0) with 0%Q. field. exact Hq.
    + field. exact Hq.
  - intros k. do 2 eexists.
    split; [apply inertia_weight_Ok; split; [exact Hm|reflexivity]|].
    split; [apply inertia_weight_Ok; split; [exact Hm|reflexivity]|].
    rewrite inject_Z_plus. change (inject_Z 1) with 1%Q. field. exact Hq.
Qed.

(** *** Passes return *)

Lemma for_enumerate_total {S : Type} (body : nat -> S -> result S)
    (P : S -> Prop) (n start : nat) (s : S) :
  P s ->
  (forall i t, (start <= i < start + n)%nat -> P t ->
     exists t', body i t = Ok t' /\ P t') ->
  exists s', for_enumerate body n start s = Ok s' /\ P s'.
Proof.
  revert start s. induction n as [|n IH]; intros start s H0 Hstep; simpl.
  - exists s. auto.
  - destruct (Hstep start s) as (t & Hb & Ht); [lia | exact H0 |].
    rewrite Hb. simpl. apply IH; [exact Ht|].
    intros i u Hi. apply Hstep. lia.
Qed.

Lemma velocity_total (w : Q) (n i : nat) (st : locals) :
  shaped n (sw st) -> (i < n)%nat ->
  exists st', velocity w i st = Ok st' /\ shaped n (sw st').
Proof.
  intros (Hx & Hy & Hp & Hv & Hc & Hf) Hi. unfold velocity.
  destruct (lookup_lt_is_Some_2 (x (sw st)) i) as (xi & Hxi); [lia|].
  destruct (lookup_lt_is_Some_2 (y (sw st)) i) as (yi & Hyi); [lia|].
  destruct (lookup_lt_is_Some_2 (xprev (sw st)) i) as (xpi & Hpi); [lia|].
  destruct (lookup_lt_is_Some_2 (v (sw st)) i) as (vi & Hvi); [lia|].
  unfold getitem, setitem. rewrite Hxi, Hyi, Hpi, Hvi. simpl.
  destruct (decide (i < length (v (sw st)))%nat); [|lia]. simpl.
  eexists. split; [reflexivity|]. unfold shaped. simpl.
  rewrite length_insert. repeat split; assumption.
Qed.

Lemma update_total (n i : nat) (st : locals) :
  shaped n (sw st) -> (i < n)%nat ->
  exists st', update i st = Ok st' /\ shaped n (sw st').
Proof.
  intros Hs Hi. pose proof Hs as (Hx & Hy & Hp & Hv & Hc & Hf).
  assert (exists st', update i st = Ok st') as (st' & E).
  { unfold update.
    destruct (lookup_lt_is_Some_2 (x (sw st)) i) as (xi & Hxi); [lia|].
    destruct (lookup_lt_is_Some_2 (v (sw st)) i) as (vi & Hvi); [lia|].
    destruct (lookup_lt_is_Some_2 (fy (sw st)) i) as (fyi & Hfyi); [lia|].
    unfold getitem, setitem. rewrite Hxi, Hvi. simpl.
    destruct (decide (i < length (x (sw st)))%nat); [|lia]. simpl.
    destruct (decide (i < length (costs (sw st)))%nat); [|lia]. simpl.
    rewrite Hfyi. simpl.
    destruct (Qltb (objective xi) fyi); [|eauto].
    destruct (decide (i < length (fy (sw st)))%nat); [|lia]. simpl.
    destruct (decide (i < length (y (sw st)))%nat); [|lia]. simpl.
    rewrite list_lookup_insert_eq by lia. simpl.
    destruct (Qltb (objective xi) (fbest (sw st))); eauto. }
  exists st'. split; [exact E|]. eapply update_shaped; eauto.
Qed.

(** The scan answers when there is a particle, and breaks the loop when
    the criterion is met whatever the clock says. *)
Lemma stop_scan_reason (n : nat) (st : locals) :
  n <> 0%nat ->
  exists r, stop_reason (stop_scan n st) = Some r /\
    ((forall c, truthy (check_stopping_criterion (self st) c (iter st)
                          (costevals st)) = true) ->
     truthy r = true).
Proof.
  revert st. induction n as [|n IH]; intros st Hn; [contradiction|]. simpl.
  destruct (check_stopping_criterion (self st) (clock (eff st)) (iter st)
              (costevals st)) as [s|] eqn:E.
  - simpl. eexists. split; [reflexivity|]. intros Hall.
    rewrite <- E. apply Hall.
  - destruct n as [|n].
    + simpl. eexists. split; [reflexivity|]. intros Hall.
      rewrite <- E. apply Hall.
    + match goal with |- context [stop_scan _ ?t] =>
        destruct (IH t) as (r & Hr & Hall); [discriminate|] end.
      exists r. split; [exact Hr|]. exact Hall.
Qed.

(** From a state whose lists have the length of a population that is not
    empty, a pass returns unless [maxiter] is zero. *)
Lemma iteration_total (n : nat) (st : locals) :
  shaped n (sw st) -> n <> 0%nat ->
  resolved (_maxiter (self st)) <> 0 ->
  exists o, iteration st = Ok o /\ shaped n (sw (state_of o)) /\
    ((forall c, truthy (check_stopping_criterion (self st) c (iter st + 1)
                          (costevals st)) = true) ->
     exists st', o = Break st').
Proof.
  intros Hs Hn Hm. pose proof Hs as (Hx & _). subst n.
  set (n := length (x (sw st))) in *.
  unfold iteration.
  pose proof (stop_scan_frame n (with_iter (iter st + 1) st))
    as (Hself & Hsw & Hiter & _).
  cbv zeta in Hself, Hsw, Hiter. simpl in Hself, Hsw, Hiter.
  destruct (stop_scan_reason n (with_iter (iter st + 1) st))
    as (r & Hr & Hall); [exact Hn|].
  simpl in Hall.
  change (sw (with_iter (iter st + 1) st)) with (sw st). fold n.
  rewrite Hr. destruct (truthy r) eqn:Ht.
  - eexists. split; [reflexivity|]. simpl. rewrite Hsw. split; [exact Hs|].
    intros _. eauto.
  - rewrite Hiter, Hself, Hsw. fold n.
    destruct (inertia_weight (iter st + 1) (resolved (_maxiter (self st))))
      as [w|e] eqn:Hw.
    2:{ exfalso. unfold inertia_weight, truediv in Hw.
        destruct (Qeq_bool (inject_Z (resolved (_maxiter (self st)))) 0) eqn:E;
          [|discriminate].
        apply inject_Z_nonzero in Hm. congruence. }
    simpl.
    destruct (for_enumerate_total (velocity w) (fun t => shaped n (sw t)) n 0
                (stop_scan n (with_iter (iter st + 1) st)))
      as (st2 & H2 & Hs2).
    { rewrite Hsw. exact Hs. }
    { intros i t Hi Ht'. apply velocity_total; [exact Ht' | lia]. }
    rewrite H2. simpl.
    destruct (for_enumerate_total update (fun t => shaped n (sw t)) n 0
                (with_sw (with_xprev (x (sw st2)) (sw st2)) st2))
      as (st3 & H3 & Hs3).
    { destruct Hs2 as (? & ? & ? & ? & ? & ?). unfold shaped. simpl.
      repeat split; assumption. }
    { intros i t Hi Ht'. apply update_total; [exact Ht' | lia]. }
    rewrite H3. simpl. eexists. split; [reflexivity|]. simpl.
    split; [exact Hs3|]. intros Hc. apply Hall in Hc. congruence.
Qed.

(** [solve] returns: when the first state exists, [maxiter] is not zero
    and the stopping criterion is met in pass [k], whatever the clock and
    the counter say, every amount of fuel from [k] on is enough. *)
Lemma solve_returns (slf : ParticleSwarm) (x0 : population Point)
    (st0 : locals) (k : nat) :
  start slf x0 = Ok st0 ->
  resolved (_maxiter (self st0)) <> 0 ->
  k <> 0%nat ->
  (forall c ce,
     truthy (check_stopping_criterion (self st0) c (Z.of_nat k) ce) = true) ->
  forall fuel, (k <= fuel)%nat ->
    exists r st', solve fuel slf x0 = Ok (Some (r, st')).
Proof.
  intros Hstart Hm Hk Hstop fuel Hfuel.
  assert (Hs0 : exists n, n <> 0%nat /\ shaped n (sw st0) /\ iter st0 = 0).
  { pose proof Hstart as H. apply start_Ok in H as (slf' & l & e & _ & Hinit & _).
    apply initial_state_Ok in Hinit
      as (imin & Hne & _ & _ & _ & _ & Hi & _ & _ & _ & Hx & Hy & Hp & Hv & Hc & Hf).
    exists (length l). split; [destruct l; [contradiction|discriminate]|].
    split; [|exact Hi].
    unfold shaped. rewrite Hx, Hy, Hp, Hv, Hc, Hf.
    rewrite length_imap, !length_map. repeat split; reflexivity. }
  destruct Hs0 as (n & Hn & Hs0 & Hi0).
  assert (Hloop : forall j st, (j < k)%nat -> iter st = Z.of_nat j ->
            self st = self st0 -> shaped n (sw st) ->
            forall f, (k - j <= f)%nat ->
              exists st', loop f st = Ok (Some st')).
  { intros j st Hj. remember (k - j)%nat as d eqn:Hd.
    revert j st Hj Hd. induction d as [|d IH]; intros j st Hj Hd Hi Hself Hs f Hf.
    - lia.
    - destruct f as [|f]; [lia|]. simpl.
      assert (Hm' : resolved (_maxiter (self st)) <> 0) by congruence.
      destruct (iteration_total n st Hs Hn Hm') as (o & E & Hso & Hbreak).
      rewrite E. simpl.
      destruct (decide (Datatypes.S j = k)) as [Hlast|Hmore].
      + destruct Hbreak as (st' & ->).
        { intros c. rewrite Hself, Hi.
          replace (Z.of_nat j + 1) with (Z.of_nat k) by lia. apply Hstop. }
        eauto.
      + destruct o as [st'|st']; [|eauto].
        pose proof E as E'. apply iteration_swarm in E' as (Hself' & _).
        simpl in Hself', Hso.
        assert (Hc : iter st' = iter st + 1).
        { apply iteration_Ok in E. cbv zeta in E.
          pose proof (stop_scan_frame (length (x (sw st)))
                        (with_iter (iter st + 1) st)) as (_ & _ & Hiter & _).
          cbv zeta in Hiter. simpl in Hiter.
          destruct E as (r & _ & [(_ & E)|(_ & w & st2 & st3 & _ & H2 & H3 & E)]);
            [discriminate|].
          injection E as ->. simpl.
          apply velocity_loop_blown in H2. apply update_loop_swept in H3.
          rewrite (swp_iter H3). simpl. rewrite (blw_iter H2). exact Hiter. }
        apply (IH (Datatypes.S j) st'); try lia; try congruence. }
  destruct (Hloop 0%nat st0) with (f := fuel) as (st' & Hl);
    try lia; auto.
  unfold solve. rewrite Hstart. simpl. rewrite Hl. simpl. eauto.
Qed.

End Facts.

(** *** On the line *)

Section OnTheLine.

Import Flat.

Abbreviation start := (start (setting := swarm_setting)).
Abbreviation after := (after (setting := swarm_setting)).
Abbreviation iteration := (iteration (ops := LineOps) (setting := swarm_setting)).
Abbreviation objective := (cost square).

(** C1: the cost is evaluated at the position the particle leaves, not at
    the one it moves to.  One particle starts at -3 on the line with cost
    the square of the position.  The first pass moves it to -2.2, records
    the cost 9 of -3 again and keeps the personal best at 9 and -3, although
    the cost at -2.2 is lower.  The second pass moves it to -1.92 and only
    then makes 4.84, the cost of -2.2, the personal and global best, with
    -2.2 as best position: at that update the personal best cost is above
    the cost of the particle's position. *)
Theorem cost_is_evaluated_at_the_position_left :
  start swarm_solver (XList [(-3)%Q]) = Ok swarm_first /\
  after 1 swarm_first = Some swarm_second /\
  after 2 swarm_first = Some swarm_third /\
  exists p1 p2 : Q,
    x (sw swarm_second) = [p1] /\ x (sw swarm_third) = [p2] /\
    (p1 == -2.2)%Q /\ (p2 == -1.92)%Q /\
    costs (sw swarm_second) = [objective (-3)%Q] /\
    fy (sw swarm_second) = [objective (-3)%Q] /\
    y (sw swarm_second) = [(-3)%Q] /\
    (objective p1 < objective (-3)%Q)%Q /\
    costs (sw swarm_third) = [objective p1] /\
    fy (sw swarm_third) = [objective p1] /\
    y (sw swarm_third) = [p1] /\
    fbest (sw swarm_third) = objective p1 /\
    xbest (sw swarm_third) = p1 /\
    (objective p2 < objective p1)%Q.
Proof.
  split; [vm_compute; reflexivity|].
  split; [vm_compute; reflexivity|].
  split; [vm_compute; reflexivity|].
  do 2 eexists.
  split; [vm_compute; reflexivity|].
  split; [vm_compute; reflexivity|].
  repeat split; vm_compute; reflexivity.
Qed.

Lemma fbest_nonincreasing_on_the_line :
  start swarm_solver (XList [(-3)%Q]) = Ok swarm_first /\
  after 1 swarm_first = Some swarm_second /\
  after 1 swarm_second = Some swarm_third /\
  (fbest (sw swarm_third) <= fbest (sw swarm_second))%Q.
Proof.
  assert (H0 : start swarm_solver (XList [(-3)%Q]) = Ok swarm_first)
    by (vm_compute; reflexivity).
  assert (H1 : after 1 swarm_first = Some swarm_second)
    by (vm_compute; reflexivity).
  assert (H2 : after 1 swarm_second = Some swarm_third)
    by (vm_compute; reflexivity).
  split; [exact H0|]. split; [exact H1|]. split; [exact H2|].
  destruct (fbest_nonincreasing (ops := LineOps) swarm_solver _ _ H0)
    as (_ & _ & Hrun & _).
  exact (Hrun 1%nat 1%nat _ _ H1 H2).
Defined.

Lemma fbest_is_least_personal_best_on_the_line :
  start swarm_solver (XList [(-3)%Q]) = Ok swarm_first /\
  after 2 swarm_first = Some swarm_third /\
  best_consistent (sw swarm_third).
Proof.
  assert (H0 : start swarm_solver (XList [(-3)%Q]) = Ok swarm_first)
    by (vm_compute; reflexivity).
  assert (H2 : after 2 swarm_first = Some swarm_third)
    by (vm_compute; reflexivity).
  split; [exact H0|]. split; [exact H2|].
  destruct (fbest_is_least_personal_best (ops := LineOps) swarm_solver _ _ H0)
    as (_ & _ & Hinv & _).
  exact (Hinv 2%nat _ H2).
Defined.

Lemma costevals_counts_objective_calls_on_the_line :
  start swarm_solver (XList [(-3)%Q]) = Ok swarm_first /\
  after 2 swarm_first = Some swarm_third /\
  costevals swarm_third = 1 * (2 + 1) /\
  ncalls (eff swarm_third) = costevals swarm_third.
Proof.
  assert (H0 : start swarm_solver (XList [(-3)%Q]) = Ok swarm_first)
    by (vm_compute; reflexivity).
  assert (H2 : after 2 swarm_first = Some swarm_third)
    by (vm_compute; reflexivity).
  split; [exact H0|]. split; [exact H2|].
  destruct (costevals_counts_objective_calls (ops := LineOps) swarm_solver _ _ H0)
    as (_ & Hrun).
  destruct (Hrun 2%nat _ H2) as (_ & _ & Hce & Hnc & _).
  split; [exact Hce | exact Hnc].
Defined.

Lemma mismatched_population_on_the_line :
  ([(-3)%Q; 2%Q] <> []) /\
  Z.of_nat (length [(-3)%Q; 2%Q]) <>
    resolved (_populationsize (resolve_defaults (setting := swarm_setting)
                                 swarm_solver)) /\
  iter_format_length (verbosity square)
    (resolved (_maxiter (resolve_defaults (setting := swarm_setting)
                           swarm_solver))) = Ok tt /\
  exists st0,
    start swarm_solver (XList [(-3)%Q; 2%Q]) = Ok st0 /\
    x (sw st0) = [(-3)%Q; 2%Q] /\
    _populationsize (self st0) = Some 2 /\
    costevals st0 = 2 /\
    out (eff st0) = [forced_message].
Proof.
  assert (H1 : [(-3)%Q; 2%Q] <> []) by discriminate.
  assert (H2 : Z.of_nat (length [(-3)%Q; 2%Q]) <>
               resolved (_populationsize
                 (resolve_defaults (setting := swarm_setting) swarm_solver)))
    by (vm_compute; discriminate).
  assert (H3 : iter_format_length (verbosity square)
                 (resolved (_maxiter
                    (resolve_defaults (setting := swarm_setting) swarm_solver)))
               = Ok tt) by reflexivity.
  split; [exact H1|]. split; [exact H2|]. split; [exact H3|].
  destruct (mismatched_population_is_adopted (setting := swarm_setting)
              swarm_solver) as (_ & Hgo & _).
  exact (Hgo _ H1 H2 H3).
Defined.

Lemma inertia_weight_on_the_line :
  iteration swarm_first = Ok (Continue swarm_second) /\
  exists w : Q,
    iter swarm_second = iter swarm_first + 1 /\
    w = (0.4 + 0.5 * (1 - inject_Z (iter swarm_second) / inject_Z 5))%Q.
Proof.
  assert (H : iteration swarm_first = Ok (Continue swarm_second))
    by (vm_compute; reflexivity).
  split; [exact H|].
  destruct (inertia_weight_decays_linearly (ops := LineOps) _ _ H)
    as (w & Hit & Hw & _).
  exists w. split; [exact Hit | exact Hw].
Defined.

End OnTheLine.
End ParticleSwarmProofs.

Module ConjugateGradientProofs.
Import ConjugateGradient.

Section Facts.

Context {Point Tangent LS : Type} {ops : TangentOps Tangent}
  {setting : Setting Point Tangent LS}.

Abbreviation locals := (locals Point Tangent LS).
Abbreviation effects := (effects Point Tangent).
Abbreviation man := (manifold problem).
Abbreviation objective := (cost problem).
Abbreviation gradient := (grad problem).

Lemma truediv_Ok (a b q : Q) :
  truediv a b = Ok q <-> ~ (b == 0)%Q /\ q = (a / b)%Q.
Proof.
  unfold truediv. destruct (Qeq_bool b 0) eqn:E.
  - apply Qeq_bool_iff in E. split; [discriminate|]. intros [Hb _]. contradiction.
  - split.
    + intros H. injection H as <-. split; [|reflexivity].
      intros Hb. apply Qeq_bool_iff in Hb. congruence.
    + intros [_ ->]. reflexivity.
Qed.

Lemma truediv_Raise (a b : Q) (e : exn) :
  truediv a b = Raise e <-> (b == 0)%Q /\ e = ZeroDivisionError.
Proof.
  unfold truediv. destruct (Qeq_bool b 0) eqn:E.
  - apply Qeq_bool_iff in E. split.
    + intros H. injection H as <-. auto.
    + intros [_ ->]. reflexivity.
  - split; [discriminate|]. intros [Hb _].
    apply Qeq_bool_iff in Hb. congruence.
Qed.

Lemma pymax_0 (q : Q) :
  (0 <= pymax 0 q)%Q /\ (q <= pymax 0 q)%Q /\ (pymax 0 q = 0%Q \/ pymax 0 q = q).
Proof.
  unfold pymax. destruct (Qltb 0 q) eqn:E.
  - apply Qltb_lt in E. split; [apply Qlt_le_weak, E|].
    split; [apply Qle_refl | auto].
  - apply Qltb_ge in E. split; [apply Qle_refl|]. split; [exact E | auto].
Qed.

Lemma check_searches (st : locals) :
  searches (snd (check st)) = searches (eff st).
Proof.
  unfold check. simpl. destruct (2 <=? _logverbosity (self st)); reflexivity.
Qed.

Lemma descent_guard_effects (st : locals) (e : effects) :
  fst (descent_guard st e) = (searched_dir st, searched_df0 st) /\
  searches (snd (descent_guard st e)) = searches e.
Proof.
  unfold searched_dir, searched_df0, descent_guard.
  destruct (Qle_bool 0 (inner man (x st) (grad_x st) (desc_dir st))); simpl.
  - split; [reflexivity|]. destruct (3 <=? verbosity problem); reflexivity.
  - auto.
Qed.

(** A pass in which the stopping criterion answers breaks, and leaves the
    point, the direction and the line search alone. *)
Lemma iteration_break (st : locals) :
  truthy (fst (check st)) = true ->
  exists st', iteration st = Ok (Break st') /\
    x st' = x st /\ desc_dir st' = desc_dir st /\ beta st' = beta st /\
    searches (eff st') = searches (eff st).
Proof.
  intros Ht. unfold iteration. pose proof (check_searches st) as Hs.
  destruct (check st) as [reason e]. simpl in Ht, Hs. rewrite Ht.
  eexists. split; [reflexivity|]. simpl. repeat split; auto.
  unfold print_if. destruct (1 <=? verbosity problem); simpl; exact Hs.
Qed.

(** A pass in which it does not goes on or raises as [next_direction]
    does. *)
Lemma iteration_continue (st : locals) (b : Q) (d : Tangent) :
  truthy (fst (check st)) = false ->
  next_direction st (searched_dir st) (newx st) (newgrad st) (Pnewgrad st)
    (newgradPnewgrad st) = Ok (b, d) ->
  exists st', iteration st = Ok (Continue st') /\ passed st st' b d.
Proof.
  intros Ht Hn. unfold iteration. pose proof (check_searches st) as Hs.
  destruct (check st) as [reason e]. simpl in Ht, Hs. rewrite Ht.
  destruct (descent_guard_effects st e) as [Hg Hgs].
  destruct (descent_guard st e) as [[d0 df0] e']. simpl in Hg, Hgs.
  injection Hg as -> ->.
  unfold newgradPnewgrad, Pnewgrad, newgrad in Hn.
  pose proof (eq_refl (newx st)) as Hnx. unfold newx at 2 in Hnx.
  destruct (search (ls st) objective man (x st) (searched_dir st) (cost_x st)
              (searched_df0 st)) as [[step nx] ls'].
  simpl in Hnx. subst nx. rewrite Hn. simpl.
  eexists. split; [reflexivity|].
  split; simpl; try reflexivity. rewrite Hgs, Hs. reflexivity.
Qed.

Lemma iteration_raise (st : locals) (e : exn) :
  truthy (fst (check st)) = false ->
  next_direction st (searched_dir st) (newx st) (newgrad st) (Pnewgrad st)
    (newgradPnewgrad st) = Raise e ->
  iteration st = Raise e.
Proof.
  intros Ht Hn. unfold iteration.
  destruct (check st) as [reason e0]. simpl in Ht. rewrite Ht.
  destruct (descent_guard_effects st e0) as [Hg _].
  destruct (descent_guard st e0) as [[d0 df0] e']. simpl in Hg.
  injection Hg as -> ->.
  unfold newgradPnewgrad, Pnewgrad, newgrad in Hn.
  pose proof (eq_refl (newx st)) as Hnx. unfold newx at 2 in Hnx.
  destruct (search (ls st) objective man (x st) (searched_dir st) (cost_x st)
              (searched_df0 st)) as [[step nx] ls'].
  simpl in Hnx. subst nx. rewrite Hn. reflexivity.
Qed.

(** *** The descent guard *)

Lemma pass_searches_along (st : locals) :
  truthy (fst (check st)) = false ->
  searches_along st (searched_dir st) (searched_df0 st).
Proof.
  intros Ht. unfold searches_along. cbv zeta.
  fold (newx st). fold (newgrad st). fold (Pnewgrad st).
  fold (newgradPnewgrad st).
  destruct (next_direction st (searched_dir st) (newx st) (newgrad st)
              (Pnewgrad st) (newgradPnewgrad st)) as [[b d]|e] eqn:Hn.
  - destruct (iteration_continue _ _ _ Ht Hn) as (st' & E & P).
    exists st'. split; [exact E|]. split; [apply (pass_searches P)|].
    split; [apply (pass_x P)|]. split; [apply (pass_cost P)|].
    split; [apply (pass_beta P) | apply (pass_desc_dir P)].
  - apply (iteration_raise _ _ Ht Hn).
Qed.

(** C5: a pass that gets past the stopping criterion computes
    [df0 = inner(x, grad, desc_dir)] and then calls the line search, which
    decides the pass.  When [df0] is not negative the search is called
    along [-Pgrad] with the derivative [-gradPgrad], and the direction kept
    from the passes before plays no part: the pass is the same from every
    such direction.  When [df0] is negative the search is called along
    [desc_dir] with [df0]. *)
Theorem ascent_direction_is_reset (st : locals) :
  truthy (fst (check st)) = false ->
  let df0 := inner man (x st) (grad_x st) (desc_dir st) in
  ((0 <= df0)%Q ->
     searches_along st (tneg (Pgrad st)) (- gradPgrad st)%Q /\
     forall d : Tangent,
       (0 <= inner man (x st) (grad_x st) d)%Q ->
       iteration (with_direction d st) = iteration st) /\
  ((df0 < 0)%Q -> searches_along st (desc_dir st) df0).
Proof.
  intros Ht df0. pose proof (pass_searches_along st Ht) as H.
  unfold searched_dir, searched_df0, descent_guard in H. fold df0 in H.
  split.
  - intros Hge. apply Qle_bool_iff in Hge. rewrite Hge in H.
    split; [exact H|].
    intros d Hd. apply Qle_bool_iff in Hd.
    assert (Hc : check (with_direction d st) = check st) by reflexivity.
    unfold iteration. rewrite Hc.
    destruct (check st) as [reason e]. cbn [fst] in Ht. rewrite Ht.
    unfold descent_guard.
    cbn [x grad_x desc_dir Pgrad gradPgrad with_direction].
    fold df0. rewrite Hge, Hd. reflexivity.
  - intros Hlt. destruct (Qle_bool 0 df0) eqn:E; [|exact H].
    apply Qle_bool_iff in E. exfalso. exact (Qlt_not_le _ _ Hlt E).
Qed.

(** *** The next direction *)

Lemma orth_grads_Ok (st : locals) :
  ~ (newgradPnewgrad st == 0)%Q ->
  orth_grads st =
    Ok (inner man (newx st) (oldgrad st) (Pnewgrad st) / newgradPnewgrad st)%Q.
Proof.
  intros Hnz. unfold orth_grads. apply truediv_Ok. auto.
Qed.

Lemma next_direction_unfold (st : locals) :
  ~ (newgradPnewgrad st == 0)%Q ->
  next_direction st (searched_dir st) (newx st) (newgrad st) (Pnewgrad st)
    (newgradPnewgrad st) =
  if reaches
       (Qabs (inner man (newx st) (oldgrad st) (Pnewgrad st)
              / newgradPnewgrad st))
       (_orth_value (self st))
  then Ok (0%Q, tneg (Pnewgrad st))
  else
    let* b := beta_rule st (newx st) (newgrad st) (Pnewgrad st) (oldgrad st)
                (transported_dir st) (newgradPnewgrad st) in
    Ok (b, tadd (tneg (Pnewgrad st)) (tscale b (transported_dir st))).
Proof.
  intros Hnz. unfold next_direction.
  pose proof (orth_grads_Ok st Hnz) as Ho. unfold orth_grads, oldgrad in Ho.
  rewrite Ho. reflexivity.
Qed.

(** C4: when the quotient of the Powell test is defined and its absolute
    value reaches [orth_value], the pass goes on with [beta = 0] and the
    direction [-Pnewgrad], in which the direction searched along does not
    occur. *)
Theorem powell_restart (st : locals) (q : Q) :
  truthy (fst (check st)) = false ->
  ~ (newgradPnewgrad st == 0)%Q ->
  _orth_value (self st) = Finite q ->
  (q <= Qabs (inner man (newx st) (oldgrad st) (Pnewgrad st)
              / newgradPnewgrad st))%Q ->
  exists st',
    iteration st = Ok (Continue st') /\
    x st' = newx st /\
    Pgrad st' = Pnewgrad st /\
    beta st' = Some 0%Q /\
    desc_dir st' = tneg (Pnewgrad st).
Proof.
  intros Ht Hnz Hov Hq.
  pose proof (next_direction_unfold st Hnz) as Hn.
  rewrite Hov in Hn. unfold reaches in Hn.
  apply Qle_bool_iff in Hq. rewrite Hq in Hn.
  destruct (iteration_continue _ _ _ Ht Hn) as (st' & E & P).
  exists st'. split; [exact E|].
  split; [apply (pass_x P)|]. split; [apply (pass_Pgrad P)|].
  split; [apply (pass_beta P) | apply (pass_desc_dir P)].
Qed.

(** The Hestenes-Stiefel rule on a manifold whose inner products are
    Python numbers: in a pass that the Powell test does not restart,
    [beta] is 1 when the denominator [inner(newx, diff, desc_dir)], taken
    with the transported direction, is zero, and
    [max(0, ip_diff / denominator)] otherwise; the pass goes on in both
    cases. *)
Theorem hestenes_stiefel_beta (st : locals) :
  truthy (fst (check st)) = false ->
  _beta_type (self st) = HestenesStiefel ->
  ~ (newgradPnewgrad st == 0)%Q ->
  reaches
    (Qabs (inner man (newx st) (oldgrad st) (Pnewgrad st) / newgradPnewgrad st))
    (_orth_value (self st)) = false ->
  let deno := inner man (newx st) (diff st) (transported_dir st) in
  let ip_diff := inner man (newx st) (Pnewgrad st) (diff st) in
  exists st' b,
    iteration st = Ok (Continue st') /\
    beta st' = Some b /\
    ((deno == 0)%Q -> b = 1%Q) /\
    (~ (deno == 0)%Q ->
       b = pymax 0 (ip_diff / deno) /\
       (0 <= b)%Q /\ (ip_diff / deno <= b)%Q /\
       (b = 0%Q \/ b = (ip_diff / deno)%Q)) /\
    desc_dir st' = tadd (tneg (Pnewgrad st)) (tscale b (transported_dir st)).
Proof.
  intros Ht Hbt Hnz Hre deno ip_diff.
  pose proof (next_direction_unfold st Hnz) as Hn.
  rewrite Hre in Hn. unfold beta_rule in Hn. rewrite Hbt in Hn.
  fold (diff st) in Hn. fold deno in Hn. fold ip_diff in Hn.
  destruct (truediv ip_diff deno) as [b0|e] eqn:Hd.
  - apply truediv_Ok in Hd as [Hdn ->]. simpl in Hn.
    destruct (iteration_continue _ _ _ Ht Hn) as (st' & E & P).
    exists st', (pymax 0 (ip_diff / deno)).
    split; [exact E|]. split; [apply (pass_beta P)|].
    split; [intros Hz; contradiction|].
    split; [|apply (pass_desc_dir P)].
    intros _. split; [reflexivity|]. apply pymax_0.
  - apply truediv_Raise in Hd as [Hz ->]. simpl in Hn.
    destruct (iteration_continue _ _ _ Ht Hn) as (st' & E & P).
    exists st', 1%Q.
    split; [exact E|]. split; [apply (pass_beta P)|].
    split; [reflexivity|].
    split; [intros Hnz'; contradiction | apply (pass_desc_dir P)].
Qed.

(** The Hestenes-Stiefel branch of [beta_rule] is lines 195-201 on Python
    numbers. *)
Lemma beta_rule_hestenes_stiefel (st : locals) (newx : Point)
    (newgrad Pnewgrad oldgrad desc_dir : Tangent) (newgradPnewgrad : Q) :
  _beta_type (self st) = HestenesStiefel ->
  beta_rule st newx newgrad Pnewgrad oldgrad desc_dir newgradPnewgrad =
    Numbers.hestenes_stiefel (H := Numbers.PythonNumber)
      (inner man newx Pnewgrad (tsub newgrad oldgrad))
      (inner man newx (tsub newgrad oldgrad) desc_dir).
Proof.
  intros Hbt. unfold beta_rule. rewrite Hbt. reflexivity.
Qed.

(** *** An unknown rule *)

(** C2, as the code has it: the constructor stores any [beta_type], and
    [solve] builds its first state with it whenever the column width of
    the progress table can be computed.  With a value that is none of the
    four rules, a pass in which the stopping criterion answers breaks
    without an error.  A pass in which it does not answer and
    [newgradPnewgrad] is not zero, so that the quotient of the Powell test
    is defined, goes on without an error when the Powell test calls for a
    restart, and otherwise reaches the choice of the rule and raises
    [ValueError] with a message that lists the four rules. *)
Theorem unknown_beta_type_raises_in_the_loop (text : string) :
  (forall ov lso mi lv,
     exists slv, init (Other text) ov lso mi lv = Ok slv /\
       _beta_type slv = Other text) /\
  (forall slv x0 reuse,
     _beta_type slv = Other text ->
     iter_format_length (verbosity problem) (_maxiter slv) = Ok tt ->
     exists st0, start slv x0 reuse = Ok st0 /\
       _beta_type (self st0) = Other text /\ iter st0 = 0) /\
  (forall st,
     _beta_type (self st) = Other text ->
     (truthy (fst (check st)) = true ->
        exists st', iteration st = Ok (Break st')) /\
     (truthy (fst (check st)) = false ->
      ~ (newgradPnewgrad st == 0)%Q ->
      reaches
        (Qabs (inner man (newx st) (oldgrad st) (Pnewgrad st)
               / newgradPnewgrad st))
        (_orth_value (self st)) = true ->
      exists st', iteration st = Ok (Continue st')) /\
     (truthy (fst (check st)) = false ->
      ~ (newgradPnewgrad st == 0)%Q ->
      reaches
        (Qabs (inner man (newx st) (oldgrad st) (Pnewgrad st)
               / newgradPnewgrad st))
        (_orth_value (self st)) = false ->
      iteration st = Raise (ValueError (unknown_beta_type text)))) /\
  unknown_beta_type text =
    "Unknown beta_type " ++ text ++
    ". Should be one of BetaTypes.FletcherReeves, BetaTypes.PolakRibiere, BetaTypes.HestenesStiefel, BetaTypes.HagerZhang.".
Proof.
  split; [|split; [|split]].
  - intros ov lso mi lv. eexists. split; reflexivity.
  - intros slv x0 reuse Hbt Hfmt. unfold start.
    destruct x0 as [p0|]; rewrite Hfmt; simpl;
      (eexists; split; [reflexivity|]; simpl; auto).
  - intros st Hbt. split; [|split].
    + intros Ht. apply iteration_break in Ht as (st' & E & _). eauto.
    + intros Ht Hnz Hre.
      pose proof (next_direction_unfold st Hnz) as Hn. rewrite Hre in Hn.
      destruct (iteration_continue _ _ _ Ht Hn) as (st' & E & _). eauto.
    + intros Ht Hnz Hre.
      pose proof (next_direction_unfold st Hnz) as Hn. rewrite Hre in Hn.
      unfold beta_rule in Hn. rewrite Hbt in Hn. simpl in Hn.
      apply (iteration_raise _ _ Ht Hn).
  - reflexivity.
Qed.

End Facts.

(** *** On the line *)

Section OnTheLine.

Import Flat.

Abbreviation on_square := (cg_setting square_cg).
Abbreviation on_slope := (cg_setting slope_cg).

(** C2, as the claim has it, fails for [beta_type="Bogus"]: the constructor
    returns a solver, [solve] builds its first state, the stopping
    criterion is asked and lets the first pass run, and that pass raises
    the error. *)
Lemma unknown_beta_type_is_accepted :
  init (setting := on_square) (Other "Bogus") Infinity None 1000 0 =
    Ok (cg_solver (Other "Bogus") Infinity) /\
  start (ops := LineOps) (setting := on_square)
    (cg_solver (Other "Bogus") Infinity) (Some 3%Q) false =
    Ok (cg_first square_cg (Other "Bogus") Infinity) /\
  fst (check (setting := on_square)
         (cg_first square_cg (Other "Bogus") Infinity)) = None /\
  iteration (ops := LineOps) (setting := on_square)
    (cg_first square_cg (Other "Bogus") Infinity) =
    Raise (ValueError
      "Unknown beta_type Bogus. Should be one of BetaTypes.FletcherReeves, BetaTypes.PolakRibiere, BetaTypes.HestenesStiefel, BetaTypes.HagerZhang.").
Proof.
  repeat split; vm_compute; reflexivity.
Qed.

Lemma unknown_beta_type_on_the_line :
  _beta_type (self (cg_first square_cg (Other "Bogus") Infinity)) =
    Other "Bogus" /\
  iteration (ops := LineOps) (setting := on_square)
    (cg_first square_cg (Other "Bogus") Infinity) =
    Raise (ValueError (unknown_beta_type "Bogus")).
Proof.
  split; [reflexivity|].
  destruct (unknown_beta_type_raises_in_the_loop (ops := LineOps)
              (setting := on_square) "Bogus") as (_ & _ & Hpass & _).
  destruct (Hpass (cg_first square_cg (Other "Bogus") Infinity) eq_refl)
    as (_ & _ & Hraise).
  apply Hraise.
  - vm_compute. reflexivity.
  - vm_compute. discriminate.
  - vm_compute. reflexivity.
Defined.

Lemma ascent_direction_on_the_line :
  truthy (fst (check (setting := on_square)
                 (cg_state square_cg FletcherReeves Infinity 6))) = false /\
  (0 <= inner Line 3 (grad square_cg 3) 6)%Q /\
  exists st',
    iteration (ops := LineOps) (setting := on_square)
      (cg_state square_cg FletcherReeves Infinity 6) = Ok (Continue st') /\
    searches (eff st') =
      [{| from_x := 3%Q; along := (- (6))%Q;
          with_cost := (3 * 3)%Q; with_df0 := (- (6 * 6))%Q |}] /\
    (x st' == 1.5)%Q.
Proof.
  assert (Ht : truthy (fst (check (setting := on_square)
                 (cg_state square_cg FletcherReeves Infinity 6))) = false)
    by (vm_compute; reflexivity).
  assert (H : (0 <= inner Line 3 (grad square_cg 3) 6)%Q)
    by (vm_compute; discriminate).
  split; [exact Ht|]. split; [exact H|].
  pose proof (ascent_direction_is_reset (ops := LineOps) (setting := on_square)
                (cg_state square_cg FletcherReeves Infinity 6) Ht) as T.
  cbv zeta in T. destruct T as (Hreset & _).
  destruct (Hreset H) as ((st' & E & Hs & Hx & _) & _).
  exists st'. split; [exact E|].
  split; [rewrite Hs | rewrite Hx]; vm_compute; reflexivity.
Defined.

Lemma powell_restart_on_the_line :
  exists st',
    iteration (ops := LineOps) (setting := on_square)
      (cg_first square_cg FletcherReeves (Finite 0)) = Ok (Continue st') /\
    beta st' = Some 0%Q /\
    desc_dir st' =
      tneg (Pnewgrad (ops := LineOps) (setting := on_square)
              (cg_first square_cg FletcherReeves (Finite 0))).
Proof.
  destruct (powell_restart (ops := LineOps) (setting := on_square)
              (cg_first square_cg FletcherReeves (Finite 0)) 0)
    as (st' & E & _ & _ & Hb & Hd).
  - vm_compute. reflexivity.
  - vm_compute. discriminate.
  - reflexivity.
  - vm_compute. discriminate.
  - exists st'. auto.
Defined.

Lemma hestenes_stiefel_on_the_line :
  (inner Line
     (newx (ops := LineOps) (setting := on_slope)
        (cg_first slope_cg HestenesStiefel Infinity))
     (diff (ops := LineOps) (setting := on_slope)
        (cg_first slope_cg HestenesStiefel Infinity))
     (transported_dir (ops := LineOps) (setting := on_slope)
        (cg_first slope_cg HestenesStiefel Infinity)) == 0)%Q /\
  exists st',
    iteration (ops := LineOps) (setting := on_slope)
      (cg_first slope_cg HestenesStiefel Infinity) = Ok (Continue st') /\
    beta st' = Some 1%Q.
Proof.
  assert (Hz : (inner Line
     (newx (ops := LineOps) (setting := on_slope)
        (cg_first slope_cg HestenesStiefel Infinity))
     (diff (ops := LineOps) (setting := on_slope)
        (cg_first slope_cg HestenesStiefel Infinity))
     (transported_dir (ops := LineOps) (setting := on_slope)
        (cg_first slope_cg HestenesStiefel Infinity)) == 0)%Q)
    by (vm_compute; reflexivity).
  split; [exact Hz|].
  pose proof (hestenes_stiefel_beta (ops := LineOps) (setting := on_slope)
                (cg_first slope_cg HestenesStiefel Infinity)) as T.
  cbv zeta in T.
  destruct T as (st' & b & E & Hb & Hone & _).
  - vm_compute. reflexivity.
  - reflexivity.
  - vm_compute. discriminate.
  - vm_compute. reflexivity.
  - exists st'. split; [exact E|]. rewrite Hb. f_equal. exact (Hone Hz).
Defined.

Import Numbers.

(** C3: the fallback [beta = 1] of the Hestenes-Stiefel rule is reached
    through a [ZeroDivisionError] only.  In the first pass of
    [solve(problem, x=3)] for the cost [p], whose gradient is 1 everywhere,
    [ip_diff] and the denominator of the quotient are both zero.  With
    Python numbers the division raises and [beta] is 1.  With numpy float64
    scalars it gives [nan], nothing is raised, and [beta = max(0, nan)] is
    0.  With such scalars the rule never takes the branch of the
    exception, and a zero denominator never leads to 1. *)
Theorem hestenes_stiefel_fallback_is_missed :
  let st := cg_first slope_cg HestenesStiefel Infinity in
  let ip_diff :=
    inner Line (newx (ops := LineOps) (setting := on_slope) st)
      (Pnewgrad (ops := LineOps) (setting := on_slope) st)
      (diff (ops := LineOps) (setting := on_slope) st) in
  let deno :=
    inner Line (newx (ops := LineOps) (setting := on_slope) st)
      (diff (ops := LineOps) (setting := on_slope) st)
      (transported_dir (ops := LineOps) (setting := on_slope) st) in
  start (ops := LineOps) (setting := on_slope)
    (cg_solver HestenesStiefel Infinity) (Some 3%Q) false = Ok st /\
  truthy (fst (check (setting := on_slope) st)) = false /\
  (ip_diff == 0)%Q /\ (deno == 0)%Q /\
  beta_rule (setting := on_slope) st
    (newx (ops := LineOps) (setting := on_slope) st)
    (newgrad (ops := LineOps) (setting := on_slope) st)
    (Pnewgrad (ops := LineOps) (setting := on_slope) st)
    (oldgrad (ops := LineOps) (setting := on_slope) st)
    (transported_dir (ops := LineOps) (setting := on_slope) st)
    (newgradPnewgrad (ops := LineOps) (setting := on_slope) st)
    = hestenes_stiefel ip_diff deno /\
  hestenes_stiefel ip_diff deno = Ok 1%Q /\
  hestenes_stiefel (F ip_diff) (F deno) = Ok (F 0) /\
  (forall a b : float64,
     hestenes_stiefel a b = Ok (max (literal 0) (np_truediv a b))) /\
  (forall p q : Q, (q == 0)%Q ->
     hestenes_stiefel (F p) (F q) <> Ok (F 1)).
Proof.
  cbv zeta. repeat split; try (vm_compute; reflexivity).
  intros p q Hq. apply Qeq_bool_iff in Hq.
  unfold hestenes_stiefel, divide, NumpyScalar, np_truediv. rewrite Hq.
  unfold max, greater, literal.
  destruct (Qeq_bool p 0); [cbn [np_gt]; discriminate|].
  destruct (Qltb p 0); cbn [np_gt]; discriminate.
Qed.

End OnTheLine.
End ConjugateGradientProofs.

(** * Further properties of the particle swarm *)

Module ParticleSwarmExtras.
Import ParticleSwarm ParticleSwarmInvariants ParticleSwarmProofs.

Section Facts.

Context {Point Tangent : Type} {ops : TangentOps Tangent}
  {setting : Setting Point Tangent}.

Abbreviation swarm := (swarm Point Tangent).
Abbreviation locals := (locals Point Tangent).
Abbreviation man := (manifold problem).
Abbreviation objective := (cost problem).

(** *** Lists *)

Lemma map_insert {A B : Type} (f : A -> B) (l : list A) (i : nat) (a : A) :
  map f (<[i := a]> l) = <[i := f a]> (map f l).
Proof.
  revert i. induction l as [|b l IH]; intros [|i]; simpl; try reflexivity.
  f_equal. apply IH.
Qed.

Lemma map_lookup {A B : Type} (f : A -> B) (l : list A) (i : nat) :
  map f l !! i = f <$> l !! i.
Proof.
  revert i. induction l as [|b l IH]; intros [|i]; simpl; try reflexivity.
  apply IH.
Qed.

(** *** Shapes *)

Lemma iteration_shaped (n : nat) (st : locals) (o : outcome) :
  iteration st = Ok o -> shaped n (sw st) -> shaped n (sw (state_of o)).
Proof.
  intros E Hs. apply iteration_Ok in E. cbv zeta in E.
  pose proof (stop_scan_frame (length (x (sw st))) (with_iter (iter st + 1) st))
    as (_ & Hsw & _).
  cbv zeta in Hsw. simpl in Hsw.
  destruct E as (r & _ & [(_ & ->)|(_ & w & st2 & st3 & _ & H2 & H3 & ->)]);
    simpl.
  - rewrite Hsw. exact Hs.
  - apply velocity_loop_blown in H2.
    apply (update_loop_shaped n) in H3; [exact H3|].
    destruct Hs as (Hx & Hy & Hp & Hv & Hc & Hf). unfold shaped. simpl.
    rewrite (blw_x H2), (blw_y H2), (blw_costs H2), (blw_fy H2),
      (blw_length H2), Hsw.
    repeat split; assumption.
Qed.

Lemma start_shaped (slf : ParticleSwarm) (x0 : population Point)
    (st0 : locals) :
  start slf x0 = Ok st0 ->
  exists n, n <> 0%nat /\ shaped n (sw st0) /\
    Z.of_nat n = resolved (_populationsize (self st0)).
Proof.
  intros H. apply start_Ok in H as (slf' & l & e & _ & Hinit & Hlen & _).
  apply initial_state_Ok in Hinit
    as (imin & Hne & _ & _ & _ & Hs & _ & _ & _ & _ & Hx & Hy & Hp & Hv & Hc & Hf).
  exists (length l). split; [destruct l; [contradiction|discriminate]|].
  split; [|rewrite Hs; exact Hlen].
  unfold shaped. rewrite Hx, Hy, Hp, Hv, Hc, Hf.
  rewrite length_imap, !length_map. repeat split; reflexivity.
Qed.

Lemma after_shaped (n m : nat) (st st' : locals) :
  shaped n (sw st) -> after m st = Some st' -> shaped n (sw st').
Proof.
  intros Hs. apply (after_inv (fun t => shaped n (sw t))); [|exact Hs].
  intros t t' Ht E. apply (iteration_shaped n) in E; assumption.
Qed.

(** *** Runs, cut in two *)

Lemma after_plus (n m : nat) (st : locals) :
  after (n + m) st =
    match after n st with
    | Some st' => after m st'
    | None => None
    end.
Proof.
  revert st. induction n as [|n IH]; intros st; simpl; [reflexivity|].
  destruct (iteration st) as [[t|t]|]; auto.
Qed.

(** A state of the run lies before the pass that breaks. *)
Lemma after_before_break (n k : nat) (st0 stn stk st' : locals) :
  after k st0 = Some stk -> iteration stk = Ok (Break st') ->
  after n st0 = Some stn ->
  (n <= k)%nat /\ after (k - n) stn = Some stk.
Proof.
  intros Hk Hb Hn.
  destruct (le_lt_dec n k) as [Hle|Hlt].
  - split; [exact Hle|].
    replace k with (n + (k - n))%nat in Hk by lia.
    rewrite after_plus, Hn in Hk. exact Hk.
  - exfalso. replace n with (k + Datatypes.S (n - k - 1))%nat in Hn by lia.
    rewrite after_plus, Hk in Hn. simpl in Hn. rewrite Hb in Hn. discriminate.
Qed.

(** *** The costs of the best positions *)

Lemma update_best_evaluated (i : nat) (st st' : locals) :
  update i st = Ok st' ->
  best_evaluated (sw st) -> best_evaluated (sw st').
Proof.
  intros E [Hfy Hfb]. apply update_Ok in E as (xi & vi & fyi & U).
  unfold best_evaluated.
  destruct (upd_best U) as [(_ & -> & -> & _ & Hg)|(_ & -> & -> & -> & ->)].
  - rewrite map_insert, <- Hfy. split; [reflexivity|].
    destruct Hg as [(_ & -> & ->)|(_ & -> & ->)]; auto.
  - auto.
Qed.

Lemma iteration_best_evaluated (st : locals) (o : outcome) :
  iteration st = Ok o ->
  best_evaluated (sw st) -> best_evaluated (sw (state_of o)).
Proof.
  intros E Hb. apply iteration_Ok in E. cbv zeta in E.
  pose proof (stop_scan_frame (length (x (sw st))) (with_iter (iter st + 1) st))
    as (_ & Hsw & _).
  cbv zeta in Hsw. simpl in Hsw.
  destruct E as (r & _ & [(_ & ->)|(_ & w & st2 & st3 & _ & H2 & H3 & ->)]);
    simpl.
  - rewrite Hsw. exact Hb.
  - apply velocity_loop_blown in H2.
    apply (for_enumerate_inv update (fun _ t => best_evaluated (sw t))) in H3;
      [exact H3 | |].
    + unfold best_evaluated. simpl.
      rewrite (blw_fy H2), (blw_y H2), (blw_fbest H2), (blw_xbest H2), Hsw.
      exact Hb.
    + intros i t t' _ Ht Hu. eapply update_best_evaluated; eauto.
Qed.

Lemma start_best_evaluated (slf : ParticleSwarm) (x0 : population Point)
    (st0 : locals) :
  start slf x0 = Ok st0 -> best_evaluated (sw st0).
Proof.
  intros H. apply start_Ok in H as (slf' & l & e & _ & Hinit & _).
  apply initial_state_Ok in Hinit
    as (imin & _ & Hfb & Hxb & _ & _ & _ & _ & _ & _ & _ & Hy & _ & _ & _ & Hfy).
  unfold best_evaluated. rewrite Hy, Hfy. split; [reflexivity|].
  rewrite map_lookup, Hxb in Hfb. simpl in Hfb. congruence.
Qed.

Lemma after_best_evaluated (n : nat) (st st' : locals) :
  best_evaluated (sw st) -> after n st = Some st' -> best_evaluated (sw st').
Proof.
  intros Hb. apply (after_inv (fun t => best_evaluated (sw t))); [|exact Hb].
  intros t t' Ht E. apply iteration_best_evaluated in E; assumption.
Qed.

(** What [solve] returns, traced back to the run. *)
Lemma solve_Some (fuel : nat) (slf : ParticleSwarm) (x0 : population Point)
    (st0 : locals) (r : Point * option (optlog Point)) (st' : locals) :
  start slf x0 = Ok st0 ->
  solve fuel slf x0 = Ok (Some (r, st')) ->
  r = returned st' /\
  exists k stk, (k < fuel)%nat /\ after k st0 = Some stk /\
    iteration stk = Ok (Break st').
Proof.
  intros Hstart E. unfold solve in E. rewrite Hstart in E. simpl in E.
  apply rbind_Ok in E as ([st''|] & Hloop & E); [|discriminate].
  simpl in E. injection E as <- <-. split; [reflexivity|].
  clear Hstart. revert st0 Hloop.
  induction fuel as [|fuel IH]; intros st0 Hloop; simpl in Hloop.
  - discriminate.
  - apply rbind_Ok in Hloop as ([t|t] & Hit & Hloop).
    + apply IH in Hloop as (k & stk & Hk & Ha & Hb).
      exists (Datatypes.S k), stk. simpl. rewrite Hit.
      split; [lia | auto].
    + injection Hloop as <-. exists 0%nat, st0.
      split; [lia | auto].
Qed.

Lemma returned_fst (st : locals) : fst (returned st) = xbest (sw st).
Proof.
  unfold returned. destruct (_logverbosity (self st) <=? 0); reflexivity.
Qed.

(** A pass that breaks leaves the swarm as it found it. *)
Lemma break_keeps_swarm (st st' : locals) :
  iteration st = Ok (Break st') ->
  sw st' = sw st /\ self st' = self st /\ iter st' = iter st + 1 /\
  costevals st' = costevals st /\
  exists r, stop_reason st' = Some r /\ truthy r = true.
Proof.
  intros E. apply iteration_Ok in E. cbv zeta in E.
  pose proof (stop_scan_frame (length (x (sw st))) (with_iter (iter st + 1) st))
    as (Hself & Hsw & Hiter & Hce & _).
  cbv zeta in Hself, Hsw, Hiter, Hce. simpl in Hself, Hsw, Hiter, Hce.
  destruct E as (r & Hr & [(Ht & E)|(_ & w & st2 & st3 & _ & _ & _ & E)]);
    [|discriminate].
  injection E as ->. simpl. repeat split; auto. eauto.
Qed.

(** X1: every personal best cost is the cost of the objective at the
    personal best position of the same particle, and the global best cost
    is the cost at the global best position: in the first state, after any
    number of passes, and in the state in which [solve] returns, where the
    point returned has the cost [fbest]. *)
Theorem best_costs_belong_to_best_positions (slf : ParticleSwarm)
    (x0 : population Point) (st0 : locals) :
  start slf x0 = Ok st0 ->
  best_evaluated (sw st0) /\
  (forall n stn, after n st0 = Some stn -> best_evaluated (sw stn)) /\
  (forall fuel r st', solve fuel slf x0 = Ok (Some (r, st')) ->
     best_evaluated (sw st') /\ fbest (sw st') = objective (fst r)).
Proof.
  intros Hstart. pose proof (start_best_evaluated _ _ _ Hstart) as H0.
  split; [exact H0|]. split.
  - intros n stn Hn. eapply after_best_evaluated; eauto.
  - intros fuel r st' E.
    destruct (solve_Some _ _ _ _ _ _ Hstart E) as (-> & k & stk & _ & Hk & Hb).
    apply break_keeps_swarm in Hb as (Hsw & _).
    assert (Hbe : best_evaluated (sw st')).
    { rewrite Hsw. eapply after_best_evaluated; eauto. }
    split; [exact Hbe|]. rewrite returned_fst. apply Hbe.
Qed.

(** *** Positions and the personal best costs *)

Lemma update_loop_moved (n : nat) (st st' : locals) :
  for_enumerate update n 0 st = Ok st' -> moved n st st'.
Proof.
  intros E.
  apply (for_enumerate_inv update (fun k t => moved k st t)) in E;
    [exact E | |].
  - unfold moved. repeat split; auto; intros; lia.
  - intros i t t' _ (Hv & Hlx & Hx & Hf & Hdone) Hb.
    apply update_Ok in Hb as (xi & vi & fyi & U).
    pose proof (lookup_lt_Some _ _ _ (upd_xi U)) as Hix.
    pose proof (lookup_lt_Some _ _ _ (upd_fyi U)) as Hif.
    assert (Hfy' : forall j, j <> i -> fy (sw t') !! j = fy (sw t) !! j).
    { intros j Hj.
      destruct (upd_best U) as [(_ & -> & _)|(_ & -> & _)]; [|reflexivity].
      apply list_lookup_insert_ne. auto. }
    unfold moved. rewrite (upd_v U), (upd_x U), !length_insert.
    split; [exact Hv|]. split; [exact Hlx|].
    split; [|split].
    + intros j Hj. rewrite list_lookup_insert_ne by lia. apply Hx. lia.
    + intros j Hj. rewrite Hfy' by lia. apply Hf. lia.
    + intros j xj vj Hj Hxj Hvj. destruct (decide (j = i)) as [->|Hne].
      * rewrite <- Hx, (upd_xi U) in Hxj by lia. injection Hxj as <-.
        rewrite <- Hv, (upd_vi U) in Hvj. injection Hvj as <-.
        rewrite !list_lookup_insert_eq by assumption.
        split; [reflexivity|].
        destruct (upd_best U) as [(_ & -> & _)|(Hle & -> & _)].
        -- exists (objective xi). rewrite list_lookup_insert_eq by assumption.
           split; [reflexivity | apply Qle_refl].
        -- exists fyi. split; [apply (upd_fyi U) | exact Hle].
      * rewrite !list_lookup_insert_ne by auto. rewrite Hfy' by exact Hne.
        apply Hdone; [lia | exact Hxj | exact Hvj].
Qed.

(** How a pass that goes on is made up, for a state with [n] particles. *)
Lemma continue_Ok (st st' : locals) :
  iteration st = Ok (Continue st') ->
  exists w st2 st3,
    sw (stop_scan (length (x (sw st))) (with_iter (iter st + 1) st)) = sw st /\
    blown w (length (x (sw st)))
      (stop_scan (length (x (sw st))) (with_iter (iter st + 1) st)) st2 /\
    for_enumerate update (length (x (sw st))) 0
      (with_sw (with_xprev (x (sw st2)) (sw st2)) st2) = Ok st3 /\
    st' = with_costevals
            (costevals st3 + resolved (_populationsize (self st3))) st3.
Proof.
  intros E. apply iteration_Ok in E. cbv zeta in E.
  pose proof (stop_scan_frame (length (x (sw st))) (with_iter (iter st + 1) st))
    as (_ & Hsw & _).
  cbv zeta in Hsw. simpl in Hsw.
  destruct E as (r & _ & [(_ & E)|(_ & w & st2 & st3 & _ & H2 & H3 & E)]);
    [discriminate|].
  injection E as ->. apply velocity_loop_blown in H2.
  exists w, st2, st3. auto.
Qed.

Lemma pass_moved (n : nat) (st st' : locals) :
  shaped n (sw st) ->
  iteration st = Ok (Continue st') ->
  xprev (sw st') = x (sw st) /\
  (forall i xi vi, x (sw st) !! i = Some xi -> v (sw st') !! i = Some vi ->
     x (sw st') !! i = Some (retr man xi vi)) /\
  (forall i a xi, fy (sw st') !! i = Some a -> x (sw st) !! i = Some xi ->
     (a <= objective xi)%Q).
Proof.
  intros (Hx & Hy & Hp & Hv & Hc & Hf) E.
  apply continue_Ok in E as (w & st2 & st3 & Hsw & H2 & H3 & ->).
  pose proof (update_loop_swept _ _ _ H3) as S3.
  apply update_loop_moved in H3.
  destruct H3 as (Hv3 & Hlx & _ & _ & Hdone).
  simpl in *. rewrite (blw_x H2), Hsw in *.
  rewrite Hx in *.
  assert (Hl2 : length (v (sw st2)) = n).
  { rewrite (blw_length H2), Hsw. exact Hv. }
  split; [rewrite (swp_xprev S3); reflexivity|].
  split.
  - intros i xi vi Hxi Hvi. rewrite Hv3 in Hvi.
    pose proof (lookup_lt_Some _ _ _ Hxi) as Hi.
    destruct (Hdone i xi vi) as (Hxi' & _); auto. lia.
  - intros i a xi Ha Hxi.
    pose proof (lookup_lt_Some _ _ _ Hxi) as Hi.
    destruct (lookup_lt_is_Some_2 (v (sw st2)) i) as (vi & Hvi); [lia|].
    destruct (Hdone i xi vi) as (_ & a' & Ha' & Hle); auto; [lia|].
    rewrite Ha in Ha'. injection Ha' as <-. exact Hle.
Qed.

Lemma start_bests_lag (slf : ParticleSwarm) (x0 : population Point)
    (st0 : locals) :
  start slf x0 = Ok st0 -> bests_lag (sw st0).
Proof.
  intros H. apply start_Ok in H as (slf' & l & e & _ & Hinit & _).
  apply initial_state_Ok in Hinit
    as (imin & _ & _ & _ & _ & _ & _ & _ & _ & _ & _ & _ & Hp & _ & _ & Hfy).
  unfold bests_lag. rewrite Hp, Hfy. intros i a q Ha Hq.
  rewrite map_lookup, Hq in Ha. simpl in Ha. injection Ha as <-.
  apply Qle_refl.
Qed.

Lemma iteration_bests_lag (n : nat) (st st' : locals) :
  shaped n (sw st) -> iteration st = Ok (Continue st') -> bests_lag (sw st').
Proof.
  intros Hs E. destruct (pass_moved n st st' Hs E) as (Hp & _ & Hle).
  unfold bests_lag. rewrite Hp. exact Hle.
Qed.

Lemma after_bests_lag (n m : nat) (st st' : locals) :
  shaped n (sw st) -> bests_lag (sw st) -> after m st = Some st' ->
  bests_lag (sw st').
Proof.
  intros Hs Hl E.
  assert (H : shaped n (sw st') /\ bests_lag (sw st')); [|tauto].
  revert E.
  apply (after_inv (fun t => shaped n (sw t) /\ bests_lag (sw t))); [|auto].
  intros t t' [Ht _] E. split.
  - apply (iteration_shaped n) in E; assumption.
  - eapply iteration_bests_lag; eauto.
Qed.

(** X2: a pass that goes on keeps the positions it found in [xprev] and
    moves every particle from there along its new velocity; and in every
    state of a run no personal best cost is above the cost of the objective
    at the position [xprev] keeps for its particle, the last one at which
    the objective was evaluated for it. *)
Theorem positions_move_and_bests_lag (slf : ParticleSwarm)
    (x0 : population Point) (st0 : locals) :
  start slf x0 = Ok st0 ->
  forall n stn, after n st0 = Some stn ->
    (forall i a q,
       fy (sw stn) !! i = Some a -> xprev (sw stn) !! i = Some q ->
       (a <= objective q)%Q) /\
    forall st', iteration stn = Ok (Continue st') ->
      xprev (sw st') = x (sw stn) /\
      forall i xi vi,
        x (sw stn) !! i = Some xi -> v (sw st') !! i = Some vi ->
        x (sw st') !! i = Some (retr man xi vi).
Proof.
  intros Hstart n stn Hn.
  destruct (start_shaped _ _ _ Hstart) as (p & _ & Hs0 & _).
  pose proof (after_shaped _ _ _ _ Hs0 Hn) as Hs.
  split.
  - apply (after_bests_lag p n st0 stn Hs0 (start_bests_lag _ _ _ Hstart) Hn).
  - intros st' E. destruct (pass_moved p stn st' Hs E) as (H1 & H2 & _).
    split; [exact H1 | exact H2].
Qed.

(** *** The first pass *)

Lemma update_loop_unimproved (n : nat) (st st' : locals) :
  fy (sw st) = map objective (x (sw st)) ->
  costs (sw st) = map objective (x (sw st)) ->
  for_enumerate update n 0 st = Ok st' -> unimproved n st st'.
Proof.
  intros Hfy Hcs E.
  apply (for_enumerate_inv update (fun k t => unimproved k st t)) in E;
    [exact E | |].
  - unfold unimproved. repeat split; auto.
  - intros i t t' _ (Hf & Hy & Hb & Hxb & Hc & Hx) Hu.
    apply update_Ok in Hu as (xi & vi & fyi & U).
    pose proof (upd_xi U) as Hxi. rewrite Hx in Hxi by lia.
    pose proof (upd_fyi U) as Hfi. rewrite Hf, Hfy, map_lookup, Hxi in Hfi.
    simpl in Hfi. injection Hfi as <-.
    destruct (upd_best U) as [(Hlt & _)|(_ & Ef & Ey & Eb & Ex)].
    { exfalso. exact (Qlt_irrefl _ Hlt). }
    unfold unimproved. rewrite Ef, Ey, Eb, Ex, (upd_costs U), (upd_x U).
    repeat split; try assumption.
    + rewrite Hc. apply list_insert_id.
      rewrite Hcs, map_lookup, Hxi. reflexivity.
    + intros j Hj. rewrite list_lookup_insert_ne by lia. apply Hx. lia.
Qed.

(** X3: the first pass cannot improve anything.  It evaluates the
    objective at the initial positions once more, so after it the personal
    bests, the global best and the costs on record are those of the first
    state, whatever the manifold, the objective and the numbers drawn. *)
Theorem first_pass_improves_nothing (slf : ParticleSwarm)
    (x0 : population Point) (st0 st1 : locals) :
  start slf x0 = Ok st0 ->
  iteration st0 = Ok (Continue st1) ->
  fy (sw st1) = fy (sw st0) /\ y (sw st1) = y (sw st0) /\
  fbest (sw st1) = fbest (sw st0) /\ xbest (sw st1) = xbest (sw st0) /\
  costs (sw st1) = costs (sw st0).
Proof.
  intros Hstart E.
  apply start_Ok in Hstart as (slf' & l & e & _ & Hinit & _).
  apply initial_state_Ok in Hinit
    as (imin & _ & _ & _ & _ & _ & _ & _ & _ & _ & Hx & _ & _ & _ & Hc & Hfy).
  apply continue_Ok in E as (w & st2 & st3 & Hsw & H2 & H3 & ->).
  apply update_loop_unimproved in H3.
  - destruct H3 as (Hf & Hy & Hb & Hxb & Hcs & _). simpl in *.
    rewrite Hf, Hy, Hb, Hxb, Hcs.
    rewrite (blw_fy H2), (blw_y H2), (blw_fbest H2), (blw_xbest H2),
      (blw_costs H2), Hsw.
    repeat split; reflexivity.
  - simpl. rewrite (blw_fy H2), (blw_x H2), Hsw, Hfy, Hx. reflexivity.
  - simpl. rewrite (blw_costs H2), (blw_x H2), Hsw, Hc, Hx. reflexivity.
Qed.

(** *** The point returned *)

Lemma start_best_consistent (slf : ParticleSwarm) (x0 : population Point)
    (st0 : locals) :
  start slf x0 = Ok st0 -> best_consistent (sw st0).
Proof.
  intros H. apply start_Ok in H as (slf' & l & e & _ & Hinit & _).
  apply initial_state_Ok in Hinit
    as (imin & _ & Hfb & Hxb & Hmin & _ & _ & _ & _ & _ & _ & Hy & _ & _ & _ & Hfy).
  unfold best_consistent. rewrite Hy, Hfy, length_map.
  split; [reflexivity|]. split; [exact Hmin|]. exists imin. auto.
Qed.

Lemma after_best_consistent (n : nat) (st st' : locals) :
  best_consistent (sw st) -> after n st = Some st' -> best_consistent (sw st').
Proof.
  intros Hb. apply (after_inv (fun t => best_consistent (sw t))); [|exact Hb].
  intros t t' Ht E. apply iteration_swarm in E. simpl in E. tauto.
Qed.

Lemma after_fbest_le (n : nat) (st st' : locals) :
  after n st = Some st' -> (fbest (sw st') <= fbest (sw st))%Q.
Proof.
  apply (after_rel (fun a b => (fbest (sw b) <= fbest (sw a))%Q)).
  - intros t. apply Qle_refl.
  - intros a b c Hab Hbc. eapply Qle_trans; eauto.
  - intros t t' E. apply iteration_swarm in E. simpl in E. tauto.
Qed.

(** X4: the point [solve] returns is at least as good as every position
    at which the objective was evaluated: the initial positions and the
    positions any pass found, which the states of the run keep in
    [xprev]. *)
Theorem returned_point_is_best_evaluated (slf : ParticleSwarm)
    (x0 : population Point) (st0 : locals) :
  start slf x0 = Ok st0 ->
  forall fuel r st', solve fuel slf x0 = Ok (Some (r, st')) ->
    forall n stn i q,
      after n st0 = Some stn -> xprev (sw stn) !! i = Some q ->
      (objective (fst r) <= objective q)%Q.
Proof.
  intros Hstart fuel r st' E n stn i q Hn Hq.
  destruct (solve_Some _ _ _ _ _ _ Hstart E) as (-> & k & stk & _ & Hk & Hb).
  destruct (after_before_break _ _ _ _ _ _ Hk Hb Hn) as (_ & Hrest).
  apply break_keeps_swarm in Hb as (Hsw & _).
  destruct (start_shaped _ _ _ Hstart) as (p & _ & Hs0 & _).
  pose proof (after_shaped _ _ _ _ Hs0 Hn) as (_ & _ & Hlp & _ & Hlc & Hlf).
  pose proof (after_bests_lag _ _ _ _ Hs0 (start_bests_lag _ _ _ Hstart) Hn)
    as Hle.
  pose proof (after_best_consistent _ _ _ (start_best_consistent _ _ _ Hstart) Hn)
    as (_ & Hmin & _).
  pose proof (after_best_evaluated _ _ _ (start_best_evaluated _ _ _ Hstart) Hk)
    as (_ & Hfb).
  pose proof (lookup_lt_Some _ _ _ Hq) as Hi.
  destruct (lookup_lt_is_Some_2 (fy (sw stn)) i) as (a & Ha); [lia|].
  rewrite returned_fst, Hsw, <- Hfb.
  apply Qle_trans with (fbest (sw stn)); [eapply after_fbest_le; eauto|].
  apply Qle_trans with a; [eapply Hmin; eauto|].
  exact (Hle i a q Ha Hq).
Qed.

(** *** When the first state exists *)

Lemma initial_state_nil (slf : ParticleSwarm) (e : effects) :
  initial_state slf [] e = Raise argmin_of_nothing.
Proof. reflexivity. Qed.

Lemma initial_state_cons (slf : ParticleSwarm) (a : Point) (l : list Point)
    (e : effects) :
  match iter_format_length (verbosity problem) (resolved (_maxiter slf)) with
  | Ok _ => exists st, initial_state slf (a :: l) e = Ok st
  | Raise err => initial_state slf (a :: l) e = Raise err
  end.
Proof.
  destruct (argmin_Ok (objective a :: map objective l)
              (argmin_from (objective a) 0 1 (map objective l)) eq_refl)
    as (c & Hc & _).
  pose proof (lookup_lt_Some _ _ _ Hc) as Hlt.
  change (objective a :: map objective l) with (map objective (a :: l)) in Hlt.
  rewrite length_map in Hlt.
  destruct (lookup_lt_is_Some_2 (a :: l) _ Hlt) as (xb & Hxb).
  unfold initial_state, evaluate_all, getitem. cbn [map argmin rbind].
  rewrite Hc, Hxb. cbn [rbind].
  destruct (iter_format_length (verbosity problem) (resolved (_maxiter slf)))
    as [[]|err]; cbn [rbind]; eauto.
Qed.

(** The population [solve] works with, when the argument can be iterated. *)
Lemma initial_population_Ok (slf : ParticleSwarm) (x0 : population Point)
    (e : effects) :
  x0 <> XNotIterable ->
  exists slf' l e',
    initial_population slf x0 e = Ok (slf', l, e') /\
    _maxiter slf' = _maxiter slf /\ _logverbosity slf' = _logverbosity slf /\
    (l <> [] <->
     match x0 with
     | XNone => 0 < resolved (_populationsize slf)
     | XNotIterable => False
     | XList l0 => l0 <> []
     end).
Proof.
  intros Hx. destruct x0 as [| |l0]; [| contradiction |]; simpl.
  - do 3 eexists. split; [reflexivity|]. split; [reflexivity|].
    split; [reflexivity|].
    destruct (resolved (_populationsize slf)) as [|q|q]; simpl.
    + split; [intros H; contradiction | lia].
    + split; [lia|]. intros _. rewrite Z2Nat.inj_pos.
      destruct (Pos2Nat.is_succ q) as (m & ->). simpl. discriminate.
    + split; [intros H; contradiction | lia].
  - destruct (Z.of_nat (length l0) =? resolved (_populationsize slf));
      do 3 eexists; (split; [reflexivity|]); simpl; tauto.
Qed.

(** X5: [solve] gets to its loop exactly when the population is not empty
    (a list with an element, or no list and a positive population size) and
    the column width of the progress table can be computed (verbosity below
    2, or a positive [maxiter]).  With a population that is not empty, the
    error of the column width is the error of [solve]. *)
Theorem first_state_exists_exactly_when (slf : ParticleSwarm)
    (x0 : population Point) :
  let slf' := resolve_defaults slf in
  let populated :=
    match x0 with
    | XNone => 0 < resolved (_populationsize slf')
    | XNotIterable => False
    | XList l => l <> []
    end in
  let width :=
    iter_format_length (verbosity problem) (resolved (_maxiter slf')) in
  ((exists st0, start slf x0 = Ok st0) <-> populated /\ width = Ok tt) /\
  (forall e fuel, populated -> width = Raise e ->
     solve fuel slf x0 = Raise e).
Proof.
  intros slf' populated width.
  assert (Hdec : x0 = XNotIterable \/ x0 <> XNotIterable).
  { destruct x0; [right; discriminate | left; reflexivity | right; discriminate]. }
  destruct Hdec as [Hx|Hx].
  { subst x0. split; [|intros e fuel []].
    split; [intros (st0 & E); discriminate | intros [[] _]]. }
  destruct (initial_population_Ok slf' x0 effects0 Hx)
    as (slf'' & l & e' & Hpop & Hm & _ & Hl).
  fold populated in Hl.
  assert (Hstart : start slf x0 = initial_state slf'' l e').
  { unfold start. fold slf'. rewrite Hpop. reflexivity. }
  destruct l as [|a l].
  - assert (Hno : ~ populated) by (intros H; apply Hl in H; contradiction).
    split; [|intros e fuel H; contradiction].
    rewrite Hstart, initial_state_nil.
    split; [intros (st0 & E); discriminate | intros [H _]; contradiction].
  - assert (Hyes : populated) by (apply Hl; discriminate).
    pose proof (initial_state_cons slf'' a l e') as Hcons.
    rewrite Hm in Hcons. fold width in Hcons.
    split.
    + rewrite Hstart. destruct width as [[]|err].
      * split; [auto | intros _; exact Hcons].
      * rewrite Hcons. split; [intros (st0 & E) | intros [_ E]]; discriminate.
    + intros e fuel _ Hw. unfold solve. rewrite Hstart.
      rewrite Hw in Hcons. rewrite Hcons. reflexivity.
Qed.

(** X6: an empty population makes [solve] raise the [ValueError] of
    [argmin]: an empty list, no list with a population size that is not
    positive, and no list with the default population size on a manifold
    whose dimension is not positive. *)
Theorem empty_population_raises (slf : ParticleSwarm) (fuel : nat) :
  solve fuel slf (XList []) = Raise argmin_of_nothing /\
  (resolved (_populationsize (resolve_defaults slf)) <= 0 ->
   solve fuel slf XNone = Raise argmin_of_nothing) /\
  (_populationsize slf = None -> dim man <= 0 ->
   solve fuel slf XNone = Raise argmin_of_nothing).
Proof.
  assert (Hnone : resolved (_populationsize (resolve_defaults slf)) <= 0 ->
                  solve fuel slf XNone = Raise argmin_of_nothing).
  { intros Hp. unfold solve, start, initial_population.
    set (p := resolved (_populationsize (resolve_defaults slf))) in *.
    replace (Z.to_nat p) with 0%nat by lia. reflexivity. }
  split; [|split].
  - unfold solve, start, initial_population.
    destruct (Z.of_nat (length []) =?
              resolved (_populationsize (resolve_defaults slf)));
      reflexivity.
  - exact Hnone.
  - intros Hp Hd. apply Hnone. unfold resolve_defaults. rewrite Hp. simpl. lia.
Qed.

(** *** What the loop can raise *)

(** The answer the scan ends with is an answer of the criterion. *)
Lemma stop_scan_last (n : nat) (st : locals) :
  n <> 0%nat ->
  exists c, stop_reason (stop_scan n st) =
    Some (check_stopping_criterion (self st) c (iter st) (costevals st)).
Proof.
  revert st. induction n as [|n IH]; intros st Hn; [contradiction|]. simpl.
  destruct (check_stopping_criterion (self st) (clock (eff st)) (iter st)
              (costevals st)) as [s|] eqn:E.
  - exists (clock (eff st)). simpl. rewrite E. reflexivity.
  - destruct n as [|n].
    + exists (clock (eff st)). simpl. rewrite E. reflexivity.
    + match goal with |- context [stop_scan _ ?t] =>
        destruct (IH t) as (c & Hc); [discriminate|] end.
      exists c. exact Hc.
Qed.

Lemma inertia_weight_zero (it : Z) :
  inertia_weight it 0 = Raise ZeroDivisionError.
Proof. reflexivity. Qed.

Lemma iteration_Raise (n : nat) (st : locals) (e : exn) :
  shaped n (sw st) -> n <> 0%nat ->
  iteration st = Raise e ->
  e = ZeroDivisionError /\ resolved (_maxiter (self st)) = 0.
Proof.
  intros Hs Hn E.
  destruct (Z.eq_dec (resolved (_maxiter (self st))) 0) as [Hm|Hm].
  - split; [|exact Hm]. unfold iteration in E.
    pose proof (stop_scan_frame (length (x (sw st)))
                  (with_iter (iter st + 1) st)) as (Hself & _).
    cbv zeta in Hself. simpl in Hself.
    destruct Hs as (Hx & _).
    destruct (stop_scan_last (length (x (sw st)))
                (with_iter (iter st + 1) st)) as (c & Hc); [lia|].
    change (sw (with_iter (iter st + 1) st)) with (sw st) in E.
    rewrite Hc in E. destruct (truthy _); [discriminate|].
    rewrite Hself, Hm, inertia_weight_zero in E. simpl in E. congruence.
  - destruct (iteration_total n st Hs Hn Hm) as (o & Ho & _). congruence.
Qed.

Lemma start_self (slf : ParticleSwarm) (x0 : population Point) (st0 : locals) :
  start slf x0 = Ok st0 ->
  _maxiter (self st0) = _maxiter (resolve_defaults slf) /\
  _logverbosity (self st0) = _logverbosity slf /\
  _nostalgia (self st0) = _nostalgia slf /\
  _social (self st0) = _social slf.
Proof.
  intros H. apply start_Ok in H as (slf' & l & e & Hpop & Hinit & _).
  apply initial_state_Ok in Hinit as (imin & _ & _ & _ & _ & -> & _).
  destruct x0 as [| |l0]; simpl in Hpop.
  - injection Hpop as <- _ _. auto.
  - discriminate.
  - destruct (Z.of_nat (length l0) =? _); injection Hpop as <- _ _; auto.
Qed.

(** The counters of a state of the run. *)
Lemma after_counted (slf : ParticleSwarm) (x0 : population Point)
    (st0 : locals) (n : nat) (stn : locals) :
  start slf x0 = Ok st0 -> after n st0 = Some stn ->
  counted stn /\ self stn = self st0 /\ iter stn = Z.of_nat n.
Proof.
  intros Hstart.
  assert (H0 : counted st0 /\ self st0 = self st0 /\ iter st0 = Z.of_nat 0).
  { apply start_Ok in Hstart as (slf' & l & e & _ & Hinit & Hlen & Hn0 & Hc0).
    apply initial_state_Ok in Hinit
      as (imin & Hne & _ & _ & _ & Hs & Hi & Hce & _ & He & Hx & _).
    unfold counted. rewrite Hs, Hx, Hce, He, Hi. simpl. rewrite Hn0, Hc0.
    split; [|auto]. repeat split; auto; try lia.
    destruct l; [contradiction|]. simpl in Hlen. lia. }
  revert stn. induction n as [|n IH]; intros stn Hn.
  - simpl in Hn. injection Hn as <-. exact H0.
  - replace (Datatypes.S n) with (n + 1)%nat in Hn by lia.
    rewrite after_plus in Hn.
    destruct (after n st0) as [stm|] eqn:Hm; [|discriminate].
    destruct (IH stm eq_refl) as (Hcm & Hsm & Him).
    simpl in Hn. destruct (iteration stm) as [[t|t]|] eqn:Hit; try discriminate.
    injection Hn as ->.
    pose proof (iteration_counted _ _ Hcm Hit) as (_ & _ & Hnext).
    destruct (Hnext _ eq_refl) as (Hcn & Hin).
    apply iteration_swarm in Hit as (Hself & _). simpl in Hself.
    split; [exact Hcn|]. split; [congruence|]. lia.
Qed.

Lemma loop_Raise (fuel : nat) (st : locals) (e : exn) :
  loop fuel st = Raise e ->
  exists k stk, after k st = Some stk /\ iteration stk = Raise e.
Proof.
  revert st. induction fuel as [|fuel IH]; intros st; simpl; [discriminate|].
  destruct (iteration st) as [[t|t]|e'] eqn:Hit; simpl.
  - intros E. apply IH in E as (k & stk & Hk & He).
    exists (Datatypes.S k), stk. simpl. rewrite Hit. auto.
  - discriminate.
  - intros E. injection E as <-. exists 0%nat, st. auto.
Qed.

(** X7: for a population that is a list, given or drawn by [solve]: once
    the loop is entered it can raise one error only, the
    [ZeroDivisionError] of the inertia weight, and only when [maxiter] is
    zero; no index is ever out of range and [stop_reason] is never read
    unbound.  With [maxiter] zero, a pass in which the stopping criterion
    does not answer raises it. *)
Theorem loop_raises_only_for_zero_maxiter (slf : ParticleSwarm)
    (x0 : population Point) (st0 : locals) :
  (x0 = XNone \/ exists l : list Point, x0 = XList l) ->
  start slf x0 = Ok st0 ->
  let maxiter := resolved (_maxiter (resolve_defaults slf)) in
  (forall fuel e, solve fuel slf x0 = Raise e ->
     e = ZeroDivisionError /\ maxiter = 0) /\
  (forall n stn, after n st0 = Some stn ->
     maxiter = 0 ->
     (forall c, truthy (check_stopping_criterion (self st0) c
                          (Z.of_nat n + 1) (costevals stn)) = false) ->
     iteration stn = Raise ZeroDivisionError).
Proof.
  intros _ Hstart maxiter.
  destruct (start_self _ _ _ Hstart) as (Hm & _).
  destruct (start_shaped _ _ _ Hstart) as (p & Hp & Hs0 & _).
  split.
  - intros fuel e E. unfold solve in E. rewrite Hstart in E. simpl in E.
    destruct (loop fuel st0) as [r|e'] eqn:Hloop; simpl in E; [discriminate|].
    injection E as ->.
    apply loop_Raise in Hloop as (k & stk & Hk & He).
    destruct (after_counted _ _ _ _ _ Hstart Hk) as (_ & Hself & _).
    pose proof (after_shaped _ _ _ _ Hs0 Hk) as Hs.
    destruct (iteration_Raise p stk e Hs Hp He) as (-> & Hz).
    split; [reflexivity|]. unfold maxiter. rewrite <- Hm, <- Hself. exact Hz.
  - intros n stn Hn Hz Hquiet.
    destruct (after_counted _ _ _ _ _ Hstart Hn) as (_ & Hself & Hiter).
    pose proof (after_shaped _ _ _ _ Hs0 Hn) as (Hx & _).
    unfold iteration.
    pose proof (stop_scan_frame (length (x (sw stn)))
                  (with_iter (iter stn + 1) stn)) as (Hself' & _).
    cbv zeta in Hself'. simpl in Hself'.
    destruct (stop_scan_last (length (x (sw stn)))
                (with_iter (iter stn + 1) stn)) as (c & Hc); [lia|].
    change (sw (with_iter (iter stn + 1) stn)) with (sw stn).
    rewrite Hc. cbn [self iter costevals with_iter].
    rewrite Hself', Hself, Hiter, Hquiet, Hm.
    unfold maxiter in Hz. rewrite Hz, inertia_weight_zero. reflexivity.
Qed.

(** *** Random numbers and checks *)

Lemma pass_draws (st : locals) (o : outcome) :
  iteration st = Ok o ->
  draws (eff (state_of o)) =
    match o with
    | Continue _ => (draws (eff st) + 2 * length (x (sw st)))%nat
    | Break _ => draws (eff st)
    end.
Proof.
  intros E. apply iteration_Ok in E. cbv zeta in E.
  pose proof (stop_scan_frame (length (x (sw st))) (with_iter (iter st + 1) st))
    as (_ & _ & _ & _ & Hd & _).
  cbv zeta in Hd. simpl in Hd.
  destruct E as (r & _ & [(_ & ->)|(_ & w & st2 & st3 & _ & H2 & H3 & ->)]);
    simpl.
  - destruct (1 <=? verbosity problem); simpl; exact Hd.
  - apply velocity_loop_blown in H2. apply update_loop_swept in H3.
    rewrite (swp_eff H3). simpl. rewrite (blw_eff H2). simpl. lia.
Qed.

(** X8: the random numbers a run consumes.  Building the first state
    draws one number per particle for the velocities, and one more per
    particle when the population itself is drawn; every pass that goes on
    draws two per particle. *)
Theorem random_numbers_drawn (slf : ParticleSwarm) (x0 : population Point)
    (st0 : locals) :
  start slf x0 = Ok st0 ->
  let p := length (x (sw st0)) in
  draws (eff st0) =
    match x0 with
    | XNone => (2 * p)%nat
    | _ => p
    end /\
  forall n stn, after n st0 = Some stn ->
    draws (eff stn) = (draws (eff st0) + 2 * n * p)%nat.
Proof.
  intros Hstart p. split.
  - apply start_Ok in Hstart as (slf' & l & e & Hpop & Hinit & _).
    apply initial_state_Ok in Hinit
      as (imin & _ & _ & _ & _ & _ & _ & _ & _ & He & Hx & _).
    unfold p. rewrite He, Hx. simpl.
    destruct x0 as [| |l0]; simpl in Hpop.
    + injection Hpop as _ <- <-. simpl. rewrite length_map, length_seq. lia.
    + discriminate.
    + destruct (Z.of_nat (length l0) =? _); injection Hpop as _ <- <-;
        simpl; lia.
  - destruct (start_shaped _ _ _ Hstart) as (q & _ & Hs0 & _).
    assert (Hq : q = p) by (destruct Hs0 as (Hx & _); unfold p; congruence).
    subst q. induction n as [|n IH]; intros stn Hn.
    + simpl in Hn. injection Hn as <-. lia.
    + replace (Datatypes.S n) with (n + 1)%nat in Hn by lia.
      rewrite after_plus in Hn.
      destruct (after n st0) as [stm|] eqn:Hm; [|discriminate].
      pose proof (after_shaped _ _ _ _ Hs0 Hm) as (Hx & _).
      simpl in Hn. destruct (iteration stm) as [[t|t]|] eqn:Hit; try discriminate.
      injection Hn as ->. apply pass_draws in Hit. simpl in Hit.
      rewrite Hit, (IH stm eq_refl), Hx. lia.
Qed.

(** The checks of one scan: no more than there are particles, at least one
    when there is a particle, and one per particle when the criterion does
    not answer. *)
Lemma stop_scan_count (n : nat) (st : locals) :
  exists k,
    length (checks (eff (stop_scan n st))) =
      (length (checks (eff st)) + k)%nat /\
    (k <= n)%nat /\ (n <> 0%nat -> k <> 0%nat) /\
    ((forall c, check_stopping_criterion (self st) c (iter st) (costevals st)
                = None) -> k = n).
Proof.
  revert st. induction n as [|n IH]; intros st; simpl.
  - exists 0%nat. repeat split; auto; lia.
  - destruct (check_stopping_criterion (self st) (clock (eff st)) (iter st)
                (costevals st)) as [r|] eqn:E.
    + exists 1%nat. simpl. rewrite length_app. simpl.
      repeat split; try lia. intros Hall. rewrite Hall in E. discriminate.
    + match goal with |- context [stop_scan n ?t] =>
        destruct (IH t) as (k & Hk & Hle & _ & Hall) end.
      simpl in Hk, Hall. rewrite length_app in Hk. simpl in Hk.
      exists (Datatypes.S k). repeat split; try lia.
      intros Hnone. f_equal. apply Hall. exact Hnone.
Qed.

Lemma pass_checks (st : locals) (o : outcome) :
  iteration st = Ok o ->
  exists k,
    length (checks (eff (state_of o))) = (length (checks (eff st)) + k)%nat /\
    (k <= length (x (sw st)))%nat /\
    (length (x (sw st)) <> 0%nat -> k <> 0%nat) /\
    ((forall c, check_stopping_criterion (self st) c (iter st + 1)
                  (costevals st) = None) -> k = length (x (sw st))).
Proof.
  intros E. apply iteration_Ok in E. cbv zeta in E.
  destruct (stop_scan_count (length (x (sw st))) (with_iter (iter st + 1) st))
    as (k & Hk & Hle & Hpos & Hall).
  simpl in Hk, Hall.
  exists k. split; [|auto].
  destruct E as (r & _ & [(_ & ->)|(_ & w & st2 & st3 & _ & H2 & H3 & ->)]);
    simpl.
  - destruct (1 <=? verbosity problem); simpl; exact Hk.
  - apply velocity_loop_blown in H2. apply update_loop_swept in H3.
    rewrite (swp_eff H3). simpl. rewrite (blw_eff H2). simpl. exact Hk.
Qed.

(** X9: the stopping criterion is asked once per particle until it
    answers: in the [n] passes a run has made, between [n] and [n] times
    the population size checks were made, and exactly that many when the
    criterion never answered. *)
Theorem stopping_criterion_asked_per_particle (slf : ParticleSwarm)
    (x0 : population Point) (st0 : locals) :
  start slf x0 = Ok st0 ->
  let p := length (x (sw st0)) in
  forall n stn, after n st0 = Some stn ->
    (n <= length (checks (eff stn)) <= n * p)%nat /\
    ((forall s c it ce, check_stopping_criterion s c it ce = None) ->
     length (checks (eff stn)) = (n * p)%nat).
Proof.
  intros Hstart p.
  destruct (start_shaped _ _ _ Hstart) as (q & Hq0 & Hs0 & _).
  assert (Hq : q = p) by (destruct Hs0 as (Hx & _); unfold p; congruence).
  subst q.
  assert (H0 : length (checks (eff st0)) = 0%nat).
  { pose proof Hstart as H.
    apply start_Ok in H as (slf' & l & e & _ & Hinit & _ & _ & Hc).
    apply initial_state_Ok in Hinit
      as (imin & _ & _ & _ & _ & _ & _ & _ & _ & He & _).
    rewrite He. simpl. rewrite Hc. reflexivity. }
  induction n as [|n IH]; intros stn Hn.
  - simpl in Hn. injection Hn as <-. rewrite H0. split; [lia | auto].
  - replace (Datatypes.S n) with (n + 1)%nat in Hn by lia.
    rewrite after_plus in Hn.
    destruct (after n st0) as [stm|] eqn:Hm; [|discriminate].
    pose proof (after_shaped _ _ _ _ Hs0 Hm) as (Hx & _).
    destruct (IH stm eq_refl) as (Hbound & Hexact).
    simpl in Hn. destruct (iteration stm) as [[t|t]|] eqn:Hit; try discriminate.
    injection Hn as ->.
    apply pass_checks in Hit as (k & Hk & Hle & Hpos & Hall).
    simpl in Hk. rewrite Hx in *. rewrite Hk. split; [|].
    + specialize (Hpos Hq0). lia.
    + intros Hnone. rewrite (Hexact Hnone), (Hall (fun c => Hnone _ _ _ _)).
      lia.
Qed.

(** *** The log *)

(** X10: what [solve] returns.  The point is [xbest]; there is a log
    exactly when [logverbosity] is positive, and it reports that point, the
    cost of the objective at it, the number of passes made, which is at
    least one and at most the fuel, [costevals] as the population size
    times that number, and a stopping reason that is not empty. *)
Theorem returned_log_reports_the_run (slf : ParticleSwarm)
    (x0 : population Point) (st0 : locals) :
  start slf x0 = Ok st0 ->
  forall fuel pt lg st', solve fuel slf x0 = Ok (Some ((pt, lg), st')) ->
    pt = xbest (sw st') /\
    (_logverbosity slf <= 0 -> lg = None) /\
    (0 < _logverbosity slf ->
     exists l, lg = Some l /\
       log_x l = pt /\
       log_objective l = objective pt /\
       1 <= log_iter l <= Z.of_nat fuel /\
       log_costevals l =
         resolved (_populationsize (self st0)) * log_iter l /\
       truthy (log_stop_reason l) = true).
Proof.
  intros Hstart fuel pt lg st' E.
  destruct (solve_Some _ _ _ _ _ _ Hstart E) as (Hr & k & stk & Hfuel & Hk & Hb).
  destruct (start_self _ _ _ Hstart) as (_ & Hlv & _).
  destruct (after_counted _ _ _ _ _ Hstart Hk)
    as ((_ & _ & Hce & _) & Hself & Hiter).
  pose proof (after_best_evaluated _ _ _ (start_best_evaluated _ _ _ Hstart) Hk)
    as (_ & Hfb).
  apply break_keeps_swarm in Hb as (Hsw & Hself' & Hit' & Hce' & r & Hsr & Ht).
  unfold returned in Hr. rewrite Hself', Hself, Hlv in Hr.
  destruct (Z.leb_spec (_logverbosity slf) 0) as [Hle|Hgt];
    injection Hr as -> ->.
  - split; [reflexivity|]. split; [reflexivity | lia].
  - split; [reflexivity|]. split; [lia|]. intros _.
    eexists. split; [reflexivity|]. simpl.
    rewrite Hsr, Hce', Hit', Hce, Hiter, Hself, Hsw, Hfb. simpl.
    repeat split; auto; lia.
Qed.

(** *** Where a run stops *)

Lemma break_answer (st st' : locals) :
  iteration st = Ok (Break st') ->
  length (x (sw st)) <> 0%nat ->
  exists c, truthy (check_stopping_criterion (self st) c (iter st + 1)
                      (costevals st)) = true.
Proof.
  intros E Hn. apply iteration_Ok in E. cbv zeta in E.
  destruct (stop_scan_last (length (x (sw st))) (with_iter (iter st + 1) st) Hn)
    as (c & Hc).
  destruct E as (r & Hr & [(Ht & _)|(_ & w & st2 & st3 & _ & _ & _ & E)]);
    [|discriminate].
  rewrite Hc in Hr. injection Hr as <-. exists c. exact Ht.
Qed.

Lemma loop_of_after (fuel n : nat) (st stn st' : locals) :
  after n st = Some stn -> iteration stn = Ok (Break st') ->
  (n < fuel)%nat ->
  loop fuel st = Ok (Some st').
Proof.
  revert fuel st. induction n as [|n IH]; intros fuel st Hn Hb Hf;
    (destruct fuel as [|fuel]; [lia|]); simpl in *.
  - injection Hn as ->. rewrite Hb. reflexivity.
  - destruct (iteration st) as [[t|t]|]; try discriminate. simpl.
    apply (IH fuel t Hn Hb). lia.
Qed.

(** X22: a run stops in the pass in which the stopping criterion is first
    met.  When [maxiter] is not zero, the criterion is not met for the
    values of [iter] below [k] and is met for [k], whatever the clock and
    [costevals], then [solve] makes [k - 1] passes that move the swarm,
    breaks in pass [k] with [iter = k] and [costevals] the population size
    times [k], and returns, for every fuel from [k] on. *)
Theorem stops_in_the_pass_the_criterion_is_met (slf : ParticleSwarm)
    (x0 : population Point) (st0 : locals) (k : nat) :
  start slf x0 = Ok st0 ->
  resolved (_maxiter (self st0)) <> 0 ->
  k <> 0%nat ->
  (forall c ce j, (0 < j < k)%nat ->
     truthy (check_stopping_criterion (self st0) c (Z.of_nat j) ce) = false) ->
  (forall c ce,
     truthy (check_stopping_criterion (self st0) c (Z.of_nat k) ce) = true) ->
  forall fuel, (k <= fuel)%nat ->
    exists r st' stk,
      solve fuel slf x0 = Ok (Some (r, st')) /\
      after (k - 1) st0 = Some stk /\
      iteration stk = Ok (Break st') /\
      iter st' = Z.of_nat k /\
      costevals st' = resolved (_populationsize (self st0)) * Z.of_nat k.
Proof.
  intros Hstart Hm Hk Hquiet Hmet fuel Hfuel.
  destruct (start_shaped _ _ _ Hstart) as (p & Hp & Hs0 & _).
  assert (Hreach : forall j, (j < k)%nat -> exists stj, after j st0 = Some stj).
  { induction j as [|j IH]; intros Hj; [exists st0; reflexivity|].
    destruct IH as (stj & Hsj); [lia|].
    destruct (after_counted _ _ _ _ _ Hstart Hsj) as (_ & Hself & Hiter).
    pose proof (after_shaped _ _ _ _ Hs0 Hsj) as Hs.
    assert (Hm' : resolved (_maxiter (self stj)) <> 0) by congruence.
    destruct (iteration_total p stj Hs Hp Hm') as ([t|t] & E & _).
    - exists t. replace (Datatypes.S j) with (j + 1)%nat by lia.
      rewrite after_plus, Hsj. simpl. rewrite E. reflexivity.
    - exfalso. destruct Hs as (Hx & _).
      destruct (break_answer _ _ E) as (c & Hc); [lia|].
      rewrite Hself, Hiter in Hc.
      replace (Z.of_nat j + 1) with (Z.of_nat (Datatypes.S j)) in Hc by lia.
      rewrite Hquiet in Hc by lia. discriminate. }
  destruct (Hreach (k - 1)%nat) as (stk & Hsk); [lia|].
  destruct (after_counted _ _ _ _ _ Hstart Hsk)
    as ((_ & _ & Hce & _) & Hself & Hiter).
  pose proof (after_shaped _ _ _ _ Hs0 Hsk) as Hs.
  assert (Hm' : resolved (_maxiter (self stk)) <> 0) by congruence.
  destruct (iteration_total p stk Hs Hp Hm') as (o & E & _ & Hbreak).
  destruct Hbreak as (st' & ->).
  { intros c. rewrite Hself, Hiter.
    replace (Z.of_nat (k - 1) + 1) with (Z.of_nat k) by lia. apply Hmet. }
  exists (returned st'), st', stk.
  split.
  - unfold solve. rewrite Hstart. cbn [rbind].
    rewrite (loop_of_after fuel (k - 1) st0 stk st' Hsk E) by lia.
    reflexivity.
  - split; [exact Hsk|]. split; [exact E|].
    apply break_keeps_swarm in E as (_ & _ & Hit & Hc' & _).
    rewrite Hit, Hc', Hce, Hiter, Hself. split; [lia|]. f_equal. lia.
Qed.

End Facts.

(** *** On the line *)

Section OnTheLine.

Import Flat FlatMore.

Abbreviation start_on s := (start (setting := s)).
Abbreviation after_on s := (after (ops := LineOps) (setting := s)).
Abbreviation pass_on s := (iteration (ops := LineOps) (setting := s)).
Abbreviation solve_on s := (solve (ops := LineOps) (setting := s)).

Lemma best_costs_on_the_line :
  start_on swarm_setting swarm_solver (XList [(-3)%Q]) = Ok swarm_first /\
  after_on swarm_setting 2 swarm_first = Some swarm_third /\
  best_evaluated (setting := swarm_setting) (sw swarm_third).
Proof.
  assert (H0 : start_on swarm_setting swarm_solver (XList [(-3)%Q])
               = Ok swarm_first) by (vm_compute; reflexivity).
  assert (H2 : after_on swarm_setting 2 swarm_first = Some swarm_third)
    by (vm_compute; reflexivity).
  split; [exact H0|]. split; [exact H2|].
  destruct (best_costs_belong_to_best_positions (ops := LineOps) _ _ _ H0)
    as (_ & Hrun & _).
  exact (Hrun 2%nat _ H2).
Defined.

Lemma positions_move_on_the_line :
  start_on swarm_setting swarm_solver (XList [(-3)%Q]) = Ok swarm_first /\
  after_on swarm_setting 1 swarm_first = Some swarm_second /\
  pass_on swarm_setting swarm_second = Ok (Continue swarm_third) /\
  bests_lag (setting := swarm_setting) (sw swarm_second) /\
  xprev (sw swarm_third) = x (sw swarm_second).
Proof.
  assert (H0 : start_on swarm_setting swarm_solver (XList [(-3)%Q])
               = Ok swarm_first) by (vm_compute; reflexivity).
  assert (H1 : after_on swarm_setting 1 swarm_first = Some swarm_second)
    by (vm_compute; reflexivity).
  assert (H2 : pass_on swarm_setting swarm_second = Ok (Continue swarm_third))
    by (vm_compute; reflexivity).
  split; [exact H0|]. split; [exact H1|]. split; [exact H2|].
  destruct (positions_move_and_bests_lag (ops := LineOps) _ _ _ H0
              1%nat _ H1) as (Hlag & Hpass).
  split; [exact Hlag|].
  destruct (Hpass _ H2) as (Hp & _). exact Hp.
Defined.

Lemma first_pass_on_the_line :
  start_on swarm_setting swarm_solver (XList [(-3)%Q]) = Ok swarm_first /\
  pass_on swarm_setting swarm_first = Ok (Continue swarm_second) /\
  fy (sw swarm_second) = fy (sw swarm_first) /\
  xbest (sw swarm_second) = xbest (sw swarm_first).
Proof.
  assert (H0 : start_on swarm_setting swarm_solver (XList [(-3)%Q])
               = Ok swarm_first) by (vm_compute; reflexivity).
  assert (H1 : pass_on swarm_setting swarm_first = Ok (Continue swarm_second))
    by (vm_compute; reflexivity).
  split; [exact H0|]. split; [exact H1|].
  destruct (first_pass_improves_nothing (ops := LineOps) _ _ _ _ H0 H1)
    as (Hf & _ & _ & Hx & _).
  split; [exact Hf | exact Hx].
Defined.

Lemma returned_point_on_the_line :
  start_on swarm_setting swarm_solver (XList [(-3)%Q; 2%Q]) = Ok duo_first /\
  solve_on swarm_setting 6 swarm_solver (XList [(-3)%Q; 2%Q])
    = Ok duo_returned /\
  after_on swarm_setting 3 duo_first = Some duo_fourth /\
  xprev (sw duo_fourth) !! 1%nat = Some duo_found /\
  (duo_found == 3.08)%Q /\
  match duo_returned with
  | Some (r, _) =>
      (fst r == 0.13625)%Q /\
      (cost square (fst r) <= cost square duo_found)%Q
  | None => False
  end.
Proof.
  assert (H0 : start_on swarm_setting swarm_solver (XList [(-3)%Q; 2%Q])
               = Ok duo_first) by (vm_compute; reflexivity).
  assert (H1 : solve_on swarm_setting 6 swarm_solver (XList [(-3)%Q; 2%Q])
               = Ok duo_returned) by (vm_compute; reflexivity).
  assert (H3 : after_on swarm_setting 3 duo_first = Some duo_fourth)
    by (vm_compute; reflexivity).
  assert (Hq : xprev (sw duo_fourth) !! 1%nat = Some duo_found)
    by (vm_compute; reflexivity).
  split; [exact H0|]. split; [exact H1|]. split; [exact H3|].
  split; [exact Hq|]. split; [vm_compute; reflexivity|].
  unfold duo_returned in *.
  split; [vm_compute; reflexivity|].
  exact (returned_point_is_best_evaluated (ops := LineOps) _ _ _ H0 _ _ _ H1
           3%nat duo_fourth 1%nat duo_found H3 Hq).
Defined.

Lemma first_state_on_the_line :
  (0 < resolved (_populationsize
                   (resolve_defaults (setting := swarm_setting) swarm_solver))) /\
  exists st0, start_on swarm_setting swarm_solver XNone = Ok st0.
Proof.
  assert (Hp : 0 < resolved (_populationsize
                 (resolve_defaults (setting := swarm_setting) swarm_solver)))
    by reflexivity.
  split; [exact Hp|].
  pose proof (first_state_exists_exactly_when (setting := swarm_setting)
                swarm_solver XNone) as T.
  cbv zeta in T. destruct T as (Hiff & _).
  apply Hiff. split; [exact Hp | reflexivity].
Defined.

Lemma empty_population_on_the_dot :
  _populationsize default_solver = None /\
  dim (manifold (problem (Setting := dot_setting))) <= 0 /\
  solve_on dot_setting 1 default_solver XNone = Raise argmin_of_nothing.
Proof.
  assert (H1 : _populationsize default_solver = None) by reflexivity.
  assert (H2 : dim (manifold (problem (Setting := dot_setting))) <= 0)
    by (vm_compute; discriminate).
  split; [exact H1|]. split; [exact H2|].
  destruct (empty_population_raises (ops := LineOps) (setting := dot_setting)
              default_solver 1) as (_ & _ & Hdim).
  exact (Hdim H1 H2).
Defined.

Lemma zero_maxiter_on_the_line :
  (XList [(-3)%Q] = XNone \/ exists l : list Q, XList [(-3)%Q] = XList l) /\
  start_on quiet_setting zero_solver (XList [(-3)%Q]) = Ok zero_first /\
  resolved (_maxiter (resolve_defaults (setting := quiet_setting) zero_solver))
    = 0 /\
  pass_on quiet_setting zero_first = Raise ZeroDivisionError.
Proof.
  assert (H0 : start_on quiet_setting zero_solver (XList [(-3)%Q])
               = Ok zero_first) by (vm_compute; reflexivity).
  assert (Hz : resolved (_maxiter (resolve_defaults (setting := quiet_setting)
                                     zero_solver)) = 0) by reflexivity.
  assert (Hl : XList [(-3)%Q] = XNone \/
               exists l : list Q, XList [(-3)%Q] = XList l)
    by (right; exists [(-3)%Q]; reflexivity).
  split; [exact Hl|]. split; [exact H0|]. split; [exact Hz|].
  pose proof (loop_raises_only_for_zero_maxiter (ops := LineOps) _ _ _ Hl H0)
    as T.
  cbv zeta in T. destruct T as (_ & Hpass).
  apply (Hpass 0%nat zero_first eq_refl Hz). intros c. reflexivity.
Defined.

Lemma random_numbers_on_the_line :
  start_on swarm_setting swarm_solver (XList [(-3)%Q]) = Ok swarm_first /\
  after_on swarm_setting 2 swarm_first = Some swarm_third /\
  draws (eff swarm_third) = (draws (eff swarm_first) + 2 * 2 * 1)%nat.
Proof.
  assert (H0 : start_on swarm_setting swarm_solver (XList [(-3)%Q])
               = Ok swarm_first) by (vm_compute; reflexivity).
  assert (H2 : after_on swarm_setting 2 swarm_first = Some swarm_third)
    by (vm_compute; reflexivity).
  split; [exact H0|]. split; [exact H2|].
  pose proof (random_numbers_drawn (ops := LineOps) _ _ _ H0) as T.
  cbv zeta in T. destruct T as (_ & Hrun).
  exact (Hrun 2%nat _ H2).
Defined.

Lemma checks_on_the_line :
  start_on quiet_setting swarm_solver (XList [(-3)%Q; 2%Q]) = Ok pair_first /\
  after_on quiet_setting 2 pair_first = Some pair_third /\
  length (checks (eff pair_third)) = (2 * 2)%nat.
Proof.
  assert (H0 : start_on quiet_setting swarm_solver (XList [(-3)%Q; 2%Q])
               = Ok pair_first) by (vm_compute; reflexivity).
  assert (H2 : after_on quiet_setting 2 pair_first = Some pair_third)
    by (vm_compute; reflexivity).
  split; [exact H0|]. split; [exact H2|].
  pose proof (stopping_criterion_asked_per_particle (ops := LineOps) _ _ _ H0)
    as T.
  cbv zeta in T. destruct (T 2%nat _ H2) as (_ & Hexact).
  apply Hexact. intros s c it ce. reflexivity.
Defined.

Lemma returned_log_on_the_line :
  start_on swarm_setting brief_solver (XList [(-3)%Q]) = Ok brief_first /\
  solve_on swarm_setting 3 brief_solver (XList [(-3)%Q]) = Ok brief_returned /\
  0 < _logverbosity brief_solver /\
  match brief_returned with
  | Some ((pt, Some l), _) =>
      log_x l = pt /\ log_objective l = cost square pt /\
      log_costevals l = 1 * log_iter l
  | _ => False
  end.
Proof.
  assert (H0 : start_on swarm_setting brief_solver (XList [(-3)%Q])
               = Ok brief_first) by (vm_compute; reflexivity).
  assert (H1 : solve_on swarm_setting 3 brief_solver (XList [(-3)%Q])
               = Ok brief_returned) by (vm_compute; reflexivity).
  assert (Hv : 0 < _logverbosity brief_solver) by reflexivity.
  split; [exact H0|]. split; [exact H1|]. split; [exact Hv|].
  unfold brief_returned in *.
  destruct (returned_log_reports_the_run (ops := LineOps) _ _ _ H0 _ _ _ _ H1)
    as (_ & _ & Hlog).
  destruct (Hlog Hv) as (l & Hl & Hx & Ho & _ & Hc & _).
  injection Hl as <-. split; [exact Hx|]. split; [exact Ho | exact Hc].
Defined.

Lemma stops_on_the_line :
  start_on swarm_setting brief_solver (XList [(-3)%Q]) = Ok brief_first /\
  resolved (_maxiter (self brief_first)) <> 0 /\
  exists r st' stk,
    solve_on swarm_setting 3 brief_solver (XList [(-3)%Q])
      = Ok (Some (r, st')) /\
    after_on swarm_setting 1 brief_first = Some stk /\
    iter st' = 2.
Proof.
  assert (H0 : start_on swarm_setting brief_solver (XList [(-3)%Q])
               = Ok brief_first) by (vm_compute; reflexivity).
  assert (Hm : resolved (_maxiter (self brief_first)) <> 0)
    by (vm_compute; discriminate).
  split; [exact H0|]. split; [exact Hm|].
  destruct (stops_in_the_pass_the_criterion_is_met (ops := LineOps)
              _ _ _ 2%nat H0 Hm) with (fuel := 3%nat)
    as (r & st' & stk & E & Hk & _ & Hi & _).
  - discriminate.
  - intros c ce j Hj. assert (j = 1%nat) as -> by lia. reflexivity.
  - intros c ce. reflexivity.
  - lia.
  - exists r, st', stk. split; [exact E|]. split; [exact Hk | exact Hi].
Defined.

End OnTheLine.
End ParticleSwarmExtras.

(** * Further properties of the conjugate gradient *)

Module ConjugateGradientExtras.
Import ConjugateGradient ConjugateGradientInvariants ConjugateGradientProofs.

Section Facts.

Context {Point Tangent LS : Type} {ops : TangentOps Tangent}
  {setting : Setting Point Tangent LS}.

Abbreviation locals := (locals Point Tangent LS).
Abbreviation effects := (effects Point Tangent).
Abbreviation man := (manifold problem).
Abbreviation objective := (cost problem).
Abbreviation gradient := (grad problem).

(** *** A pass, in one equation *)

Lemma iteration_eq (st : locals) :
  iteration st =
    if truthy (fst (check st)) then Ok (Break (broken st))
    else
      match next_direction st (searched_dir st) (newx st) (newgrad st)
              (Pnewgrad st) (newgradPnewgrad st) with
      | Ok (b, d) => Ok (Continue (next_state st b d))
      | Raise e => Raise e
      end.
Proof.
  unfold iteration, broken, next_state, searched.
  destruct (check st) as [reason e]. cbn [fst snd].
  destruct (truthy reason); [reflexivity|].
  destruct (descent_guard_effects st e) as [Hg _].
  destruct (descent_guard st e) as [[d0 df0] e']. cbn [fst snd] in *.
  injection Hg as -> ->.
  unfold newgradPnewgrad, Pnewgrad, newgrad, newx.
  destruct (search (ls st) objective man (x st) (searched_dir st) (cost_x st)
              (searched_df0 st)) as [[step nx] ls'].
  cbn [fst snd].
  destruct (next_direction st (searched_dir st) nx (gradient nx)
              (precon problem nx (gradient nx))
              (inner man nx (gradient nx) (precon problem nx (gradient nx))))
    as [[b d]|err]; reflexivity.
Qed.

Lemma next_direction_eq (st : locals) :
  next_direction st (searched_dir st) (newx st) (newgrad st) (Pnewgrad st)
    (newgradPnewgrad st) =
  let* _ := orth_grads st in
  if restarts st then Ok (0%Q, tneg (Pnewgrad st))
  else
    let* b := beta_of st in
    Ok (b, tadd (tneg (Pnewgrad st)) (tscale b (transported_dir st))).
Proof.
  unfold next_direction, orth_grads, restarts, beta_of, oldgrad.
  destruct (truediv _ _) as [o|e] eqn:E; [|reflexivity].
  apply truediv_Ok in E as [_ ->]. reflexivity.
Qed.

(** A pass that goes on, taken apart. *)
Lemma iteration_Continue (st st' : locals) :
  iteration st = Ok (Continue st') ->
  truthy (fst (check st)) = false /\
  ~ (newgradPnewgrad st == 0)%Q /\
  exists b d, st' = next_state st b d /\
    ((restarts st = true /\ b = 0%Q /\ d = tneg (Pnewgrad st)) \/
     (restarts st = false /\ beta_of st = Ok b /\
      d = tadd (tneg (Pnewgrad st)) (tscale b (transported_dir st)))).
Proof.
  intros H. rewrite iteration_eq, next_direction_eq in H.
  destruct (truthy (fst (check st))); [discriminate|].
  split; [reflexivity|].
  unfold orth_grads in H.
  destruct (truediv (inner man (newx st) (oldgrad st) (Pnewgrad st))
              (newgradPnewgrad st)) as [o|e] eqn:E; [|discriminate].
  apply truediv_Ok in E as [Hnz _]. split; [exact Hnz|].
  cbn [rbind] in H. destruct (restarts st).
  - injection H as <-. exists 0%Q, (tneg (Pnewgrad st)). auto.
  - destruct (beta_of st) as [b|e]; [|discriminate].
    cbn [rbind] in H. injection H as <-. eexists _, _. eauto.
Qed.

Lemma iteration_Break (st st' : locals) :
  iteration st = Ok (Break st') ->
  truthy (fst (check st)) = true /\ st' = broken st.
Proof.
  rewrite iteration_eq.
  destruct (truthy (fst (check st))).
  - intros E. injection E as <-. auto.
  - destruct (next_direction _ _ _ _ _ _) as [[b d]|e]; discriminate.
Qed.

(** *** What a pass can raise *)

Lemma truediv_cases (a b : Q) :
  ((b == 0)%Q /\ truediv a b = Raise ZeroDivisionError) \/
  (~ (b == 0)%Q /\ truediv a b = Ok (a / b)%Q).
Proof.
  unfold truediv. destruct (Qeq_bool b 0) eqn:E.
  - left. apply Qeq_bool_iff in E. auto.
  - right. split; [|reflexivity]. intros Hb.
    apply Qeq_bool_iff in Hb. congruence.
Qed.

Lemma pymax_ge (a b : Q) : (a <= pymax a b)%Q /\ (b <= pymax a b)%Q.
Proof.
  unfold pymax. destruct (Qltb a b) eqn:E.
  - apply Qltb_lt in E. split; [apply Qlt_le_weak, E | apply Qle_refl].
  - apply Qltb_ge in E. split; [apply Qle_refl | exact E].
Qed.

Lemma beta_of_Raise (st : locals) (e : exn) :
  beta_of st = Raise e ->
  (e = ZeroDivisionError /\ _beta_type (self st) <> HestenesStiefel) \/
  exists text, _beta_type (self st) = Other text /\
    e = ValueError (unknown_beta_type text).
Proof.
  unfold beta_of, beta_rule.
  destruct (_beta_type (self st)) as [| | | |text].
  - intros E. apply truediv_Raise in E as [_ ->]. left. split; [auto|discriminate].
  - match goal with |- context [truediv ?a ?b] =>
      destruct (truediv_cases a b) as [[_ ->]|[_ ->]] end; cbn [rbind].
    + intros E. injection E as <-. left. split; [auto|discriminate].
    + discriminate.
  - match goal with |- context [truediv ?a ?b] =>
      destruct (truediv_cases a b) as [[_ ->]|[_ ->]] end; discriminate.
  - match goal with |- context [truediv ?a ?b] =>
      destruct (truediv_cases a b) as [[_ ->]|[_ ->]] end; cbn [rbind].
    { intros E. injection E as <-. left. split; [auto|discriminate]. }
    match goal with |- context [truediv ?a ?b] =>
      destruct (truediv_cases a b) as [[_ ->]|[_ ->]] end; cbn [rbind].
    { intros E. injection E as <-. left. split; [auto|discriminate]. }
    match goal with |- context [truediv ?a ?b] =>
      destruct (truediv_cases a b) as [[_ ->]|[_ ->]] end; cbn [rbind].
    { intros E. injection E as <-. left. split; [auto|discriminate]. }
    discriminate.
  - intros E. injection E as <-. right. eauto.
Qed.

Lemma pass_Raise (st : locals) (e : exn) :
  iteration st = Raise e ->
  truthy (fst (check st)) = false /\
  (((newgradPnewgrad st == 0)%Q /\ e = ZeroDivisionError) \/
   (~ (newgradPnewgrad st == 0)%Q /\ restarts st = false /\
    beta_of st = Raise e)).
Proof.
  intros H. rewrite iteration_eq, next_direction_eq in H.
  destruct (truthy (fst (check st))); [discriminate|].
  split; [reflexivity|]. unfold orth_grads in H.
  destruct (truediv_cases (inner man (newx st) (oldgrad st) (Pnewgrad st))
              (newgradPnewgrad st)) as [[Hz E]|[Hnz E]];
    rewrite E in H; cbn [rbind] in H.
  - injection H as <-. left. auto.
  - right. split; [exact Hnz|]. destruct (restarts st); [discriminate|].
    split; [reflexivity|].
    destruct (beta_of st) as [b|e']; [discriminate|].
    cbn [rbind] in H. congruence.
Qed.

(** X11: a pass raises nothing but [ZeroDivisionError] and, when
    [beta_type] is none of the four rules, the [ValueError] that lists
    them. *)
Theorem pass_raises_two_errors_only (st : locals) (e : exn) :
  iteration st = Raise e ->
  e = ZeroDivisionError \/
  exists text, _beta_type (self st) = Other text /\
    e = ValueError (unknown_beta_type text).
Proof.
  intros H. apply pass_Raise in H as (_ & [(_ & ->)|(_ & _ & Hb)]).
  - left. reflexivity.
  - apply beta_of_Raise in Hb as [(-> & _)|Hother]; auto.
Qed.

(** *** The other rules *)

Lemma continue_with (st : locals) (b : Q) :
  truthy (fst (check st)) = false ->
  ~ (newgradPnewgrad st == 0)%Q ->
  restarts st = false ->
  beta_of st = Ok b ->
  iteration st =
    Ok (Continue (next_state st b
          (tadd (tneg (Pnewgrad st)) (tscale b (transported_dir st))))).
Proof.
  intros Ht Hnz Hre Hb. rewrite iteration_eq, next_direction_eq, Ht.
  unfold orth_grads.
  destruct (truediv_cases (inner man (newx st) (oldgrad st) (Pnewgrad st))
              (newgradPnewgrad st)) as [[Hz _]|[_ ->]]; [contradiction|].
  cbn [rbind]. rewrite Hre, Hb. reflexivity.
Qed.

(** X14: under the Fletcher-Reeves rule, in a pass that is not restarted
    and in which the old inner product [gradPgrad] is not zero, [beta] is
    the quotient of the new and the old inner product of the gradient and
    the preconditioned gradient, and the next direction is
    [-Pnewgrad + beta * desc_dir] with the transported direction. *)
Theorem fletcher_reeves_pass (st : locals) :
  _beta_type (self st) = FletcherReeves ->
  truthy (fst (check st)) = false ->
  ~ (newgradPnewgrad st == 0)%Q ->
  restarts st = false ->
  ~ (gradPgrad st == 0)%Q ->
  exists st', iteration st = Ok (Continue st') /\
    beta st' = Some (newgradPnewgrad st / gradPgrad st)%Q /\
    desc_dir st' =
      tadd (tneg (Pgrad st'))
        (tscale (newgradPnewgrad st / gradPgrad st)%Q (transported_dir st)).
Proof.
  intros Hbt Ht Hnz Hre Hn.
  assert (Hb : beta_of st = truediv (newgradPnewgrad st) (gradPgrad st)).
  { unfold beta_of, beta_rule. rewrite Hbt. reflexivity. }
  destruct (truediv_cases (newgradPnewgrad st) (gradPgrad st))
    as [[Hz E]|[_ E]]; [contradiction|]. rewrite E in Hb.
  eexists. split; [apply continue_with; eassumption|]. auto.
Qed.

(** X15: under the Polak-Ribiere rule, in a pass that is not restarted
    and in which [gradPgrad] is not zero, [beta] is
    [max(0, inner(newx, Pnewgrad, newgrad - oldgrad) / gradPgrad)] and so
    never negative, and the next direction is
    [-Pnewgrad + beta * desc_dir] with the transported direction. *)
Theorem polak_ribiere_pass (st : locals) :
  _beta_type (self st) = PolakRibiere ->
  truthy (fst (check st)) = false ->
  ~ (newgradPnewgrad st == 0)%Q ->
  restarts st = false ->
  ~ (gradPgrad st == 0)%Q ->
  let ip_diff := inner man (newx st) (Pnewgrad st) (diff st) in
  exists st' b, iteration st = Ok (Continue st') /\
    beta st' = Some b /\ b = pymax 0 (ip_diff / gradPgrad st) /\
    (0 <= b)%Q /\ (ip_diff / gradPgrad st <= b)%Q /\
    desc_dir st' = tadd (tneg (Pgrad st')) (tscale b (transported_dir st)).
Proof.
  intros Hbt Ht Hnz Hre Hn ip_diff.
  assert (Hb : beta_of st =
               let* q := truediv ip_diff (gradPgrad st) in Ok (pymax 0 q)).
  { unfold beta_of, beta_rule. rewrite Hbt. reflexivity. }
  destruct (truediv_cases ip_diff (gradPgrad st)) as [[Hz E]|[_ E]];
    [contradiction|].
  rewrite E in Hb; cbn [rbind] in Hb.
  eexists _, _. split; [apply continue_with; eassumption|].
  split; [reflexivity|]. split; [reflexivity|].
  destruct (pymax_ge 0 (ip_diff / gradPgrad st)) as [H0 H1]. auto.
Qed.

(** X16: under the Hager-Zhang rule, in a pass that is not restarted and
    in which neither the denominator [inner(newx, diff, desc_dir)] nor the
    denominator of [eta_HZ] is zero, [beta] is the larger of the
    Hager-Zhang quotient and
    [eta_HZ = -1 / (norm(newx, desc_dir) * min(0.01, gradnorm))], with the
    transported direction and the gradient norm of the point the pass
    began at. *)
Theorem hager_zhang_pass (st : locals) :
  _beta_type (self st) = HagerZhang ->
  truthy (fst (check st)) = false ->
  ~ (newgradPnewgrad st == 0)%Q ->
  restarts st = false ->
  let d := transported_dir st in
  let Pdiff :=
    tsub (Pnewgrad st) (transp man (x st) (newx st) (Pgrad st)) in
  let deno := inner man (newx st) (diff st) d in
  let numo :=
    (inner man (newx st) (diff st) (Pnewgrad st)
     - 2 * inner man (newx st) (diff st) Pdiff
         * inner man (newx st) d (newgrad st) / deno)%Q in
  let scale := (norm man (newx st) d * pymin 0.01 (gradnorm st))%Q in
  ~ (deno == 0)%Q -> ~ (scale == 0)%Q ->
  exists st' b, iteration st = Ok (Continue st') /\
    beta st' = Some b /\ b = pymax (numo / deno) (-1 / scale) /\
    (numo / deno <= b)%Q /\ (-1 / scale <= b)%Q /\
    desc_dir st' = tadd (tneg (Pgrad st')) (tscale b d).
Proof.
  intros Hbt Ht Hnz Hre d Pdiff deno numo scale Hd Hs.
  assert (Hb : beta_of st =
    let* t := truediv
         (2 * inner man (newx st) (diff st) Pdiff
            * inner man (newx st) d (newgrad st))%Q deno in
    let* b := truediv
         (inner man (newx st) (diff st) (Pnewgrad st) - t)%Q deno in
    let* eta := truediv (-1) scale in
    Ok (pymax b eta)).
  { unfold beta_of, beta_rule. rewrite Hbt. reflexivity. }
  destruct (truediv_cases
              (2 * inner man (newx st) (diff st) Pdiff
                 * inner man (newx st) d (newgrad st))%Q deno)
    as [[Hz E]|[_ E]]; [contradiction|].
  rewrite E in Hb; cbn [rbind] in Hb.
  destruct (truediv_cases
              (inner man (newx st) (diff st) (Pnewgrad st)
               - 2 * inner man (newx st) (diff st) Pdiff
                   * inner man (newx st) d (newgrad st) / deno)%Q deno)
    as [[Hz E']|[_ E']]; [contradiction|].
  rewrite E' in Hb; cbn [rbind] in Hb.
  destruct (truediv_cases (-1) scale) as [[Hz E'']|[_ E'']];
    [contradiction|].
  rewrite E'' in Hb; cbn [rbind] in Hb.
  eexists _, _. split; [apply continue_with; eassumption|].
  split; [reflexivity|]. split; [reflexivity|].
  destruct (pymax_ge (numo / deno) (-1 / scale)) as [H0 H1].
  split; [exact H0|]. split; [exact H1 | reflexivity].
Qed.

(** *** The reset *)

(** X17: the reset discards the direction.  Of two states that differ in
    [desc_dir] only, both with a derivative [df0] that is not negative, a
    pass that gets past the stopping criterion makes the same: the same
    line search, the same new point, the same [beta] and next direction,
    or the same error. *)
Theorem reset_forgets_the_direction (st : locals) (d : Tangent) :
  truthy (fst (check st)) = false ->
  (0 <= inner man (x st) (grad_x st) (desc_dir st))%Q ->
  (0 <= inner man (x st) (grad_x st) d)%Q ->
  iteration (with_desc_dir d st) = iteration st.
Proof.
  intros Ht H1 H2. apply Qle_bool_iff in H1, H2.
  assert (Hc : check (with_desc_dir d st) = check st) by reflexivity.
  unfold iteration. rewrite Hc.
  destruct (check st) as [reason e]. cbn [fst] in Ht. rewrite Ht.
  unfold descent_guard. cbn [x grad_x desc_dir Pgrad gradPgrad with_desc_dir].
  rewrite H1, H2. reflexivity.
Qed.

(** *** The first state and the bookkeeping *)

Lemma start_runs (slf : ConjugateGradient LS) (x0 : option Point)
    (reuse : bool) (st0 : locals) :
  start slf x0 reuse = Ok st0 ->
  iter_format_length (verbosity problem) (_maxiter slf) = Ok tt /\
  x st0 = default (rand man 0) x0 /\
  coherent st0 /\
  desc_dir st0 = tneg (Pgrad st0) /\
  configured slf st0 /\
  ls st0 =
    (if reuse then default (_linesearch slf) (linesearch slf)
     else _linesearch slf) /\
  iter st0 = 0 /\ stepsize st0 = None /\ beta st0 = None /\
  searches (eff st0) = [] /\ appended (eff st0) = [] /\
  clock (eff st0) = 0%nat /\
  draws (eff st0) = match x0 with Some _ => 0%nat | None => 1%nat end.
Proof.
  unfold start. intros H.
  destruct (iter_format_length (verbosity problem) (_maxiter slf))
    as [[]|e] eqn:Hw.
  2:{ destruct x0; discriminate. }
  split; [reflexivity|].
  destruct x0 as [p0|]; cbn [rbind] in H; injection H as <-;
    unfold coherent, configured, print_if;
    destruct (1 <=? verbosity problem), reuse, (linesearch slf); cbn;
    repeat split; reflexivity.
Qed.

Lemma start_total (slf : ConjugateGradient LS) (x0 : option Point)
    (reuse : bool) :
  iter_format_length (verbosity problem) (_maxiter slf) = Ok tt ->
  exists st0, start slf x0 reuse = Ok st0.
Proof.
  intros Hw. unfold start. destruct x0; rewrite Hw; cbn [rbind]; eauto.
Qed.

Lemma after_split (n m : nat) (st : locals) :
  after (n + m) st =
    match after n st with
    | Some st' => after m st'
    | None => None
    end.
Proof.
  revert st. induction n as [|n IH]; intros st; simpl; [reflexivity|].
  destruct (iteration st) as [[t|t]|]; auto.
Qed.

Lemma after_keeps (P : locals -> Prop) :
  (forall st st', P st -> iteration st = Ok (Continue st') -> P st') ->
  forall n st st', P st -> after n st = Some st' -> P st'.
Proof.
  intros Hstep. induction n as [|n IH]; intros st st' H0; simpl.
  - intros E. injection E as <-. exact H0.
  - destruct (iteration st) as [[t|t]|] eqn:Hit; try discriminate.
    apply IH. eapply Hstep; eauto.
Qed.

Lemma loop_returns (fuel : nat) (st st' : locals) :
  loop fuel st = Ok (Some st') ->
  exists k stk, (k < fuel)%nat /\ after k st = Some stk /\
    iteration stk = Ok (Break st').
Proof.
  revert st. induction fuel as [|fuel IH]; intros st; simpl.
  - discriminate.
  - intros E. apply rbind_Ok in E as ([t|t] & Hit & E).
    + apply IH in E as (k & stk & Hk & Hn & Hb).
      exists (Datatypes.S k), stk. simpl. rewrite Hit. split; [lia | auto].
    + injection E as <-. exists 0%nat, st. split; [lia | auto].
Qed.

Lemma check_effects (st : locals) :
  clock (snd (check st)) = Datatypes.S (clock (eff st)) /\
  draws (snd (check st)) = draws (eff st) /\
  searches (snd (check st)) = searches (eff st) /\
  length (appended (snd (check st))) =
    (length (appended (eff st))
     + (if (2 <=? _logverbosity (self st))%Z then 1 else 0))%nat.
Proof.
  unfold check. cbn [snd].
  destruct (2 <=? _logverbosity (self st)); cbn;
    rewrite ?length_app; cbn; repeat split; lia.
Qed.

Lemma descent_guard_frame (st : locals) (e : effects) :
  clock (snd (descent_guard st e)) = clock e /\
  draws (snd (descent_guard st e)) = draws e /\
  appended (snd (descent_guard st e)) = appended e.
Proof.
  unfold descent_guard.
  destruct (Qle_bool 0 _); cbn [snd]; [|auto].
  unfold print_if. destruct (3 <=? verbosity problem); cbn; auto.
Qed.

Lemma next_state_counted (st : locals) (b : Q) (d : Tangent) :
  counted 1 st (next_state st b d).
Proof.
  destruct (check_effects st) as (Hc & Hd & Hs & Ha).
  destruct (descent_guard_frame st (snd (check st))) as (Gc & Gd & Ga).
  destruct (descent_guard_effects st (snd (check st))) as (_ & Gs).
  unfold counted, next_state, log_search.
  cbn [iter eff self searches clock appended draws _logverbosity].
  rewrite length_app, Gs, Hs, Gc, Hc, Ga, Ha, Gd, Hd. cbn [length].
  repeat split; lia.
Qed.

Lemma counted_step (n : nat) (st0 st st' : locals) :
  _logverbosity (self st) = _logverbosity (self st0) ->
  counted n st0 st -> counted 1 st st' ->
  counted (Datatypes.S n) st0 st'.
Proof.
  intros Hlv (H1 & H2 & H3 & H4 & H5) (G1 & G2 & G3 & G4 & G5).
  unfold counted. rewrite G1, G2, G3, G4, G5, H1, H2, H3, H4, H5, Hlv.
  repeat split; try lia.
  destruct (2 <=? _logverbosity (self st0)); lia.
Qed.

Lemma next_state_configured (slf : ConjugateGradient LS) (st : locals)
    (b : Q) (d : Tangent) :
  configured slf st -> configured slf (next_state st b d).
Proof.
  intros (_ & H2 & H3 & H4 & H5 & H6). unfold configured, next_state. cbn.
  repeat split; assumption.
Qed.

Lemma next_state_coherent (st : locals) (b : Q) (d : Tangent) :
  coherent (next_state st b d).
Proof.
  unfold coherent, next_state. cbn. repeat split; reflexivity.
Qed.

(** The invariants of a run, together. *)
Lemma after_run (slf : ConjugateGradient LS) (x0 : option Point)
    (reuse : bool) (st0 : locals) (n : nat) (stn : locals) :
  start slf x0 reuse = Ok st0 -> after n st0 = Some stn ->
  configured slf stn /\ coherent stn /\ counted n st0 stn.
Proof.
  intros Hstart.
  apply start_runs in Hstart as (_ & _ & Hco & _ & Hcf & _).
  revert stn. induction n as [|n IH]; intros stn Hn.
  - simpl in Hn. injection Hn as <-. split; [exact Hcf|]. split; [exact Hco|].
    unfold counted. repeat split; try lia.
    destruct (2 <=? _logverbosity (self st0)); lia.
  - replace (Datatypes.S n) with (n + 1)%nat in Hn by lia.
    rewrite after_split in Hn.
    destruct (after n st0) as [stm|] eqn:Hm; [|discriminate].
    destruct (IH stm eq_refl) as (Hcfm & Hcom & Hcnt).
    simpl in Hn. destruct (iteration stm) as [[t|t]|] eqn:Hit; try discriminate.
    injection Hn as ->.
    apply iteration_Continue in Hit as (_ & _ & b & d & -> & _).
    split; [apply next_state_configured; exact Hcfm|].
    split; [apply next_state_coherent|].
    apply (counted_step n st0 stm); [|exact Hcnt|apply next_state_counted].
    destruct Hcfm as (_ & _ & _ & _ & _ & ->).
    destruct Hcf as (_ & _ & _ & _ & _ & ->). reflexivity.
Qed.

(** X18: the bookkeeping of a run.  After [n] passes that went on, [iter]
    is [n], the line search has been called [n] times and the stopping
    criterion [n] times, [n] rows have been appended to the log when
    [logverbosity] is at least 2 and none otherwise, and no random number
    has been drawn since the first state, for which one is drawn exactly
    when no starting point is given. *)
Theorem passes_are_counted (slf : ConjugateGradient LS) (x0 : option Point)
    (reuse : bool) (st0 : locals) :
  start slf x0 reuse = Ok st0 ->
  forall n stn, after n st0 = Some stn ->
    iter stn = Z.of_nat n /\
    length (searches (eff stn)) = n /\
    clock (eff stn) = n /\
    length (appended (eff stn)) =
      (if (2 <=? _logverbosity slf)%Z then n else 0%nat) /\
    draws (eff stn) = match x0 with Some _ => 0%nat | None => 1%nat end.
Proof.
  intros Hstart n stn Hn.
  destruct (after_run _ _ _ _ _ _ Hstart Hn) as (_ & _ & H1 & H2 & H3 & H4 & H5).
  apply start_runs in Hstart
    as (_ & _ & _ & _ & (_ & _ & _ & _ & _ & Hlv) & _ & Hi & _ & _ & Hs & Ha & Hc & Hd).
  rewrite Hi in H1. rewrite Hs in H2. rewrite Hc in H3.
  rewrite Ha, Hlv in H4. rewrite Hd in H5. simpl in *.
  repeat split; auto; lia.
Qed.

(** X19: the state always carries the cost, the gradient, its norm, the
    preconditioned gradient and their inner product of the point it is
    at, so what [solve] returns is consistent: the point is the one the
    last line search returned (or the starting point), and a log reports
    that point, the cost of the objective at it, the norm of the gradient
    at it, and as the number of iterations the number of line
    searches. *)
Theorem state_is_coherent (slf : ConjugateGradient LS) (x0 : option Point)
    (reuse : bool) (st0 : locals) :
  start slf x0 reuse = Ok st0 ->
  (forall n stn, after n st0 = Some stn -> coherent stn) /\
  (forall fuel pt lg st',
     solve fuel slf x0 reuse = Ok (Some ((pt, lg), st')) ->
     pt = x st' /\ coherent st' /\
     (_logverbosity slf <= 0 -> lg = None) /\
     (0 < _logverbosity slf ->
      exists l, lg = Some l /\
        log_x l = pt /\
        log_objective l = objective pt /\
        log_gradnorm l = norm man pt (gradient pt) /\
        log_iter l = Z.of_nat (length (searches (eff st'))) /\
        truthy (log_stop_reason l) = true)).
Proof.
  intros Hstart. split.
  - intros n stn Hn. destruct (after_run _ _ _ _ _ _ Hstart Hn) as (_ & H & _).
    exact H.
  - intros fuel pt lg st' E. unfold solve in E. rewrite Hstart in E.
    cbn [rbind] in E.
    apply rbind_Ok in E as ([st''|] & Hloop & E); [|discriminate].
    simpl in E. injection E as Hr <-.
    apply loop_returns in Hloop as (k & stk & _ & Hk & Hb).
    destruct (after_run _ _ _ _ _ _ Hstart Hk)
      as ((_ & _ & _ & _ & _ & Hlv) & Hco & Hi & Hs & _).
    apply start_runs in Hstart
      as (_ & _ & _ & _ & _ & _ & Hi0 & _ & _ & Hs0 & _).
    rewrite Hi0 in Hi. rewrite Hs0 in Hs. simpl in Hi, Hs.
    apply iteration_Break in Hb as (Ht & ->).
    assert (Hc' : coherent (broken stk)) by exact Hco.
    assert (Hss : searches (eff (broken stk)) = searches (eff stk)).
    { unfold broken. cbn. unfold print_if.
      destruct (1 <=? verbosity problem); cbn; apply check_searches. }
    unfold returned in Hr. change (self (broken stk)) with (self stk) in Hr.
    rewrite Hlv in Hr.
    destruct (Z.leb_spec (_logverbosity slf) 0) as [Hle|Hgt];
      injection Hr as <- <-.
    + split; [reflexivity|]. split; [exact Hc'|].
      split; [reflexivity | lia].
    + split; [reflexivity|]. split; [exact Hc'|]. split; [lia|]. intros _.
      eexists. split; [reflexivity|]. cbn [log_x log_objective log_gradnorm
        log_iter log_stop_reason].
      destruct Hco as (H1 & H2 & H3 & _).
      split; [reflexivity|]. split; [exact H1|].
      split; [rewrite H3, H2; reflexivity|].
      split; [|exact Ht].
      rewrite Hss, Hs. lia.
Qed.

(** X20: the line search object is carried from one [solve] to the next
    exactly when the caller asks for it.  The first state works with a
    copy of the configured line search unless [reuselinesearch] is set and
    an earlier [solve] left one; in every state of a run [self.linesearch]
    is the object the loop works with and the configured one is untouched;
    so [solve] on the solver a run ends with starts from the line search
    that run ended with when [reuselinesearch] is set, and from the
    configured one otherwise. *)
Theorem line_search_is_carried_over (slf : ConjugateGradient LS)
    (x0 : option Point) (reuse : bool) (st0 : locals) :
  start slf x0 reuse = Ok st0 ->
  ls st0 =
    (if reuse then default (_linesearch slf) (linesearch slf)
     else _linesearch slf) /\
  forall n stn, after n st0 = Some stn ->
    linesearch (self stn) = Some (ls stn) /\
    _linesearch (self stn) = _linesearch slf /\
    forall st' x1 again st1,
      iteration stn = Ok (Break st') ->
      start (self st') x1 again = Ok st1 ->
      ls st1 = (if again then ls stn else _linesearch slf).
Proof.
  intros Hstart. pose proof Hstart as H.
  apply start_runs in H as (_ & _ & _ & _ & _ & Hls & _).
  split; [exact Hls|]. intros n stn Hn.
  destruct (after_run _ _ _ _ _ _ Hstart Hn) as ((Hl & Hl' & _) & _).
  split; [exact Hl|]. split; [exact Hl'|].
  intros st' x1 again st1 Hb H1.
  apply iteration_Break in Hb as (_ & ->).
  apply start_runs in H1 as (_ & _ & _ & _ & _ & Hls1 & _).
  change (self (broken stn)) with (self stn) in Hls1.
  rewrite Hls1, Hl, Hl'. destruct again; reflexivity.
Qed.

(** X21: when the stopping criterion is met at the first check, [solve]
    returns the starting point: no line search is made and the point it
    was given comes back, for every amount of fuel that allows one
    pass. *)
Theorem criterion_met_at_once (slf : ConjugateGradient LS) (p : Point)
    (reuse : bool) (st0 : locals) (fuel : nat) :
  start slf (Some p) reuse = Ok st0 ->
  truthy (fst (check st0)) = true ->
  exists lg st',
    solve (Datatypes.S fuel) slf (Some p) reuse = Ok (Some ((p, lg), st')) /\
    searches (eff st') = [] /\ iter st' = 0 /\ beta st' = None.
Proof.
  intros Hstart Ht. unfold solve. rewrite Hstart. cbn [rbind loop].
  rewrite iteration_eq, Ht. cbn [rbind option_map].
  apply start_runs in Hstart
    as (_ & Hx & _ & _ & _ & _ & Hi & _ & Hb & Hs & _).
  assert (Hss : searches (eff (broken st0)) = []).
  { transitivity (searches (eff st0)); [|exact Hs].
    unfold broken. cbn. unfold print_if.
    destruct (1 <=? verbosity problem); cbn; apply check_searches. }
  assert (Hr : fst (returned (broken st0)) = p).
  { unfold returned. destruct (_ <=? 0); cbn; exact Hx. }
  destruct (returned (broken st0)) as [pt lg]. cbn in Hr. subst pt.
  exists lg, (broken st0). split; [reflexivity|].
  split; [exact Hss|]. split; [exact Hi | exact Hb].
Qed.

End Facts.

(** *** On the line *)

Section OnTheLine.

Import Flat FlatMore.

Abbreviation on_square := (cg_setting square_cg).
Abbreviation pass_on s := (iteration (ops := LineOps) (setting := s)).
Abbreviation start_on s := (start (ops := LineOps) (setting := s)).
Abbreviation after_on s :=
  (ConjugateGradientInvariants.after (ops := LineOps) (setting := s)).
Abbreviation solve_on s := (solve (ops := LineOps) (setting := s)).
Abbreviation check_on s := (check (setting := s)).

Lemma pass_raises_on_the_line :
  pass_on on_square (cg_first square_cg (Other "Bogus") Infinity) =
    Raise (ValueError (unknown_beta_type "Bogus")) /\
  (ValueError (unknown_beta_type "Bogus") = ZeroDivisionError \/
   exists text,
     _beta_type (self (cg_first square_cg (Other "Bogus") Infinity)) =
       Other text /\
     ValueError (unknown_beta_type "Bogus") =
       ValueError (unknown_beta_type text)).
Proof.
  assert (H : pass_on on_square (cg_first square_cg (Other "Bogus") Infinity)
              = Raise (ValueError (unknown_beta_type "Bogus")))
    by (vm_compute; reflexivity).
  split; [exact H|].
  exact (pass_raises_two_errors_only (ops := LineOps) (setting := on_square)
           _ _ H).
Defined.

Lemma fletcher_reeves_on_the_line :
  ~ (gradPgrad (cg_first square_cg FletcherReeves Infinity) == 0)%Q /\
  exists st',
    pass_on on_square (cg_first square_cg FletcherReeves Infinity) =
      Ok (Continue st') /\
    beta st' = Some (9.0000 / 36)%Q.
Proof.
  assert (H : ~ (gradPgrad (cg_first square_cg FletcherReeves Infinity)
                 == 0)%Q) by (vm_compute; discriminate).
  split; [exact H|].
  destruct (fletcher_reeves_pass (ops := LineOps) (setting := on_square)
              (cg_first square_cg FletcherReeves Infinity))
    as (st' & E & Hb & _).
  - reflexivity.
  - vm_compute. reflexivity.
  - vm_compute. discriminate.
  - vm_compute. reflexivity.
  - exact H.
  - exists st'. split; [exact E | exact Hb].
Defined.

Lemma polak_ribiere_on_the_line :
  ~ (gradPgrad (cg_first square_cg PolakRibiere Infinity) == 0)%Q /\
  exists st' b,
    pass_on on_square (cg_first square_cg PolakRibiere Infinity) =
      Ok (Continue st') /\
    beta st' = Some b /\ (0 <= b)%Q.
Proof.
  assert (H : ~ (gradPgrad (cg_first square_cg PolakRibiere Infinity)
                 == 0)%Q) by (vm_compute; discriminate).
  split; [exact H|].
  pose proof (polak_ribiere_pass (ops := LineOps) (setting := on_square)
                (cg_first square_cg PolakRibiere Infinity)) as T.
  cbv zeta in T. destruct T as (st' & b & E & Hb & _ & Hpos & _).
  - reflexivity.
  - vm_compute. reflexivity.
  - vm_compute. discriminate.
  - vm_compute. reflexivity.
  - exact H.
  - exists st', b. split; [exact E|]. split; [exact Hb | exact Hpos].
Defined.

Lemma hager_zhang_on_the_line :
  exists st' b,
    pass_on on_square (cg_first square_cg HagerZhang Infinity) =
      Ok (Continue st') /\
    beta st' = Some b /\ (-1 / (6 * 0.01) <= b)%Q.
Proof.
  pose proof (hager_zhang_pass (ops := LineOps) (setting := on_square)
                (cg_first square_cg HagerZhang Infinity)) as T.
  cbv zeta in T. destruct T as (st' & b & E & Hb & _ & _ & Heta & _).
  - reflexivity.
  - vm_compute. reflexivity.
  - vm_compute. discriminate.
  - vm_compute. reflexivity.
  - vm_compute. discriminate.
  - vm_compute. discriminate.
  - exists st', b. split; [exact E|]. split; [exact Hb|].
    refine (Qle_trans _ _ _ _ Heta). vm_compute. discriminate.
Defined.

Lemma reset_on_the_line :
  (0 <= inner Line 3 (grad square_cg 3) 6)%Q /\
  (0 <= inner Line 3 (grad square_cg 3) 12)%Q /\
  pass_on on_square
    (with_desc_dir 12%Q (cg_state square_cg FletcherReeves Infinity 6)) =
  pass_on on_square (cg_state square_cg FletcherReeves Infinity 6).
Proof.
  assert (H1 : (0 <= inner Line 3 (grad square_cg 3) 6)%Q)
    by (vm_compute; discriminate).
  assert (H2 : (0 <= inner Line 3 (grad square_cg 3) 12)%Q)
    by (vm_compute; discriminate).
  split; [exact H1|]. split; [exact H2|].
  apply (reset_forgets_the_direction (ops := LineOps) (setting := on_square)
           (cg_state square_cg FletcherReeves Infinity 6) 12%Q);
    [vm_compute; reflexivity | exact H1 | exact H2].
Defined.

Lemma passes_counted_on_the_line :
  start_on on_square (cg_brief_solver 2) (Some 3%Q) false =
    Ok (cg_brief_first 2) /\
  after_on on_square 1 (cg_brief_first 2) = Some cg_brief_second /\
  iter cg_brief_second = 1 /\
  length (searches (eff cg_brief_second)) = 1%nat.
Proof.
  assert (H0 : start_on on_square (cg_brief_solver 2) (Some 3%Q) false
               = Ok (cg_brief_first 2)) by (vm_compute; reflexivity).
  assert (H1 : after_on on_square 1 (cg_brief_first 2) = Some cg_brief_second)
    by (vm_compute; reflexivity).
  split; [exact H0|]. split; [exact H1|].
  destruct (passes_are_counted (ops := LineOps) _ _ _ _ H0 1%nat _ H1)
    as (Hi & Hs & _).
  split; [exact Hi | exact Hs].
Defined.

Lemma coherent_on_the_line :
  start_on on_square (cg_brief_solver 2) (Some 3%Q) false =
    Ok (cg_brief_first 2) /\
  solve_on on_square 3 (cg_brief_solver 2) (Some 3%Q) false =
    Ok cg_brief_returned /\
  match cg_brief_returned with
  | Some ((pt, Some l), _) =>
      log_x l = pt /\ log_objective l = cost square_cg pt
  | _ => False
  end.
Proof.
  assert (H0 : start_on on_square (cg_brief_solver 2) (Some 3%Q) false
               = Ok (cg_brief_first 2)) by (vm_compute; reflexivity).
  assert (H1 : solve_on on_square 3 (cg_brief_solver 2) (Some 3%Q) false
               = Ok cg_brief_returned) by (vm_compute; reflexivity).
  split; [exact H0|]. split; [exact H1|].
  unfold cg_brief_returned in *.
  destruct (state_is_coherent (ops := LineOps) _ _ _ _ H0) as (_ & Hret).
  destruct (Hret _ _ _ _ H1) as (_ & _ & _ & Hlog).
  destruct Hlog as (l & Hl & Hx & Ho & _); [reflexivity|].
  injection Hl as <-. split; [exact Hx | exact Ho].
Defined.

Lemma line_search_on_the_line :
  start_on on_square (cg_brief_solver 2) (Some 3%Q) false =
    Ok (cg_brief_first 2) /\
  after_on on_square 1 (cg_brief_first 2) = Some cg_brief_second /\
  pass_on on_square cg_brief_second = Ok (Break cg_brief_broken) /\
  exists st1,
    start_on on_square (self cg_brief_broken) (Some 0%Q) true = Ok st1 /\
    ls st1 = ls cg_brief_second.
Proof.
  assert (H0 : start_on on_square (cg_brief_solver 2) (Some 3%Q) false
               = Ok (cg_brief_first 2)) by (vm_compute; reflexivity).
  assert (H1 : after_on on_square 1 (cg_brief_first 2) = Some cg_brief_second)
    by (vm_compute; reflexivity).
  assert (H2 : pass_on on_square cg_brief_second = Ok (Break cg_brief_broken))
    by (vm_compute; reflexivity).
  split; [exact H0|]. split; [exact H1|]. split; [exact H2|].
  eexists. split; [vm_compute; reflexivity|].
  destruct (line_search_is_carried_over (ops := LineOps) _ _ _ _ H0)
    as (_ & Hrun).
  destruct (Hrun 1%nat _ H1) as (_ & _ & Hnext).
  refine (Hnext _ (Some 0%Q) true _ H2 _). vm_compute. reflexivity.
Defined.

Lemma criterion_met_on_the_line :
  start_on on_square (cg_brief_solver 1) (Some 3%Q) false =
    Ok (cg_brief_first 1) /\
  truthy (fst (check_on on_square (cg_brief_first 1))) = true /\
  exists lg st',
    solve_on on_square 1 (cg_brief_solver 1) (Some 3%Q) false =
      Ok (Some ((3%Q, lg), st')) /\
    searches (eff st') = [].
Proof.
  assert (H0 : start_on on_square (cg_brief_solver 1) (Some 3%Q) false
               = Ok (cg_brief_first 1)) by (vm_compute; reflexivity).
  assert (H1 : truthy (fst (check_on on_square (cg_brief_first 1))) = true)
    by (vm_compute; reflexivity).
  split; [exact H0|]. split; [exact H1|].
  destruct (criterion_met_at_once (ops := LineOps) _ _ _ _ 0%nat H0 H1)
    as (lg & st' & E & Hs & _).
  exists lg, st'. split; [exact E | exact Hs].
Defined.

End OnTheLine.
End ConjugateGradientExtras.
